(** * DustSweeper: token discovery filter, verified-token registry, versioned
      caches and the transfer-call builder.

    A shallow embedding of the TypeScript sources
      - the useTransferBuilder hook (buildTransferCalls),
      - hooks/use-token-balances.ts (fetchTokens, its filter and its cache),
      - hooks/use-verified-tokens.ts (fetchVerifiedTokens, isTokenVerified),
      - lib/config.ts (getMoralisChainName),
      - components/transfer-configuration.tsx (validateAddress),
    followed by the properties the specification states about them; and of
      - app/api/tokens/verified/route.ts (GET),
      - lib/config.ts (getMoralisApiKeys) and lib/moralis (fetchMoralisJson),
      - hooks/use-token-balances.ts (the request with two keys and its error
        message, the sort, the cache in localStorage),
    with further properties of the code.

    Conventions.  A JS string is the [string] of its UTF-8 bytes; the
    letters, digits and signs the modelled code looks for are ASCII, and
    white space is that of all of Unicode.  bigint is [Z].  A JS number that
    only ever holds an integer (timestamps, version counters, array lengths)
    is [Z] or [nat].  A number read from a decimal string is a double: the
    rational it is rounded to, or one of the three values that are no
    rational, the constructors of [number].  A USD amount that comes with a
    token is a rational [Q].  Exceptions are the left summand of a [sum]. *)

From Stdlib Require Import ZArith NArith QArith String Ascii List Lia Bool Sorted
  Permutation.
From stdpp Require Import gmap strings.
Import ListNotations.

Close Scope Q_scope.
Local Open Scope string_scope.
Local Open Scope Z_scope.

(** ** JavaScript strings *)

Module JS.

Definition chars (s : string) : list ascii := list_ascii_of_string s.
Definition str (l : list ascii) : string := string_of_list_ascii l.

Definition is_digit (c : ascii) : bool :=
  let n := nat_of_ascii c in (48 <=? n)%nat && (n <=? 57)%nat.
Definition is_upper (c : ascii) : bool :=
  let n := nat_of_ascii c in (65 <=? n)%nat && (n <=? 90)%nat.
Definition is_lower (c : ascii) : bool :=
  let n := nat_of_ascii c in (97 <=? n)%nat && (n <=? 122)%nat.
(** [a-fA-F0-9] *)
Definition is_hex (c : ascii) : bool :=
  let n := nat_of_ascii c in
  is_digit c || ((65 <=? n)%nat && (n <=? 70)%nat)
             || ((97 <=? n)%nat && (n <=? 102)%nat).
(** TAB, LF, VT, FF, CR and SPACE: the one-byte members of StrWhiteSpaceChar. *)
Definition is_space (c : ascii) : bool :=
  let n := nat_of_ascii c in ((9 <=? n)%nat && (n <=? 13)%nat) || (n =? 32)%nat.

Definition lower_char (c : ascii) : ascii :=
  if is_upper c then ascii_of_nat (nat_of_ascii c + 32) else c.
Definition upper_char (c : ascii) : ascii :=
  if is_lower c then ascii_of_nat (nat_of_ascii c - 32) else c.

(** [s.toLowerCase()], on the ASCII letters. *)
Definition toLowerCase (s : string) : string := str (map lower_char (chars s)).

(** [s.slice(n)] for [n >= 0]. *)
Definition slice (n : nat) (s : string) : string := str (skipn n (chars s)).

(** [s.padStart(n, c)] with a one-character filler: a string that is already
    [n] long or longer is returned unchanged. *)
Definition padStart (n : nat) (c : ascii) (s : string) : string :=
  str (repeat c (n - String.length s)) ++ s.

(** [!!s] : only the empty string is falsy. *)
Definition truthy (s : string) : bool := negb (String.eqb s "").

(** [a || b] on strings. *)
Definition or_else (a b : string) : string := if truthy a then a else b.

Definition hex_digit (n : Z) : ascii :=
  nth (Z.to_nat n) (chars "0123456789abcdef") "0"%char.

(** Digits of a positive number in base 16, most significant first. *)
Fixpoint hex_pos (fuel : nat) (n : Z) (acc : list ascii) : list ascii :=
  match fuel with
  | O => acc
  | S f => if n <? 16 then hex_digit n :: acc
           else hex_pos f (n / 16) (hex_digit (n mod 16) :: acc)
  end.

(** [n.toString(16)] on a bigint. *)
Definition toString16 (n : Z) : string :=
  if n =? 0 then "0"
  else if n <? 0 then "-" ++ str (hex_pos (Z.to_nat (Z.log2 (- n)) + 1) (- n) [])
  else str (hex_pos (Z.to_nat (Z.log2 n) + 1) n []).

Definition digit_val (c : ascii) : Z := Z.of_nat (nat_of_ascii c) - 48.

Definition hex_val (c : ascii) : Z :=
  let n := Z.of_nat (nat_of_ascii c) in
  if is_digit c then n - 48 else if is_upper c then n - 55 else n - 87.

(** Value of a digit string in the given base, [None] when a character is no
    digit of that base or the string is empty. *)
Fixpoint digits_val (base : Z) (ok : ascii -> bool) (val : ascii -> Z)
    (l : list ascii) (acc : Z) : option Z :=
  match l with
  | [] => Some acc
  | c :: r => if ok c then digits_val base ok val r (base * acc + val c) else None
  end.

Definition nonempty_digits (base : Z) (ok : ascii -> bool) (val : ascii -> Z)
    (l : list ascii) : option Z :=
  match l with [] => None | _ => digits_val base ok val l 0 end.

Definition is_bin (c : ascii) : bool :=
  let n := nat_of_ascii c in (n =? 48)%nat || (n =? 49)%nat.
Definition is_oct (c : ascii) : bool :=
  let n := nat_of_ascii c in (48 <=? n)%nat && (n <=? 55)%nat.

Definition byte (c : ascii) (n : nat) : bool := (nat_of_ascii c =? n)%nat.

(** The number of bytes of the StrWhiteSpaceChar at the head of [l], 0 when
    there is none: the six of [is_space], U+00A0, U+1680, U+2000 to U+200A,
    U+2028, U+2029, U+202F, U+205F, U+3000 and U+FEFF in UTF-8. *)
Definition white_bytes (l : list ascii) : nat :=
  match l with
  | a :: r =>
      if is_space a then 1%nat
      else match r with
           | b :: r' =>
               if byte a 194 && byte b 160 then 2%nat
               else match r' with
                    | c :: _ =>
                        let n := nat_of_ascii c in
                        if byte a 225 && byte b 154 && byte c 128 then 3%nat
                        else if byte a 226 && byte b 128
                                && (((128 <=? n)%nat && (n <=? 138)%nat)
                                    || (n =? 168)%nat || (n =? 169)%nat
                                    || (n =? 175)%nat) then 3%nat
                        else if byte a 226 && byte b 129 && byte c 159 then 3%nat
                        else if byte a 227 && byte b 128 && byte c 128 then 3%nat
                        else if byte a 239 && byte b 187 && byte c 191 then 3%nat
                        else 0%nat
                    | [] => 0%nat
                    end
           | [] => 0%nat
           end
  | [] => 0%nat
  end.

(** The same at the end of a string whose bytes are given last first. *)
Definition white_bytes_end (r : list ascii) : nat :=
  if (white_bytes (rev (firstn 1 r)) =? 1)%nat then 1%nat
  else if (white_bytes (rev (firstn 2 r)) =? 2)%nat then 2%nat
  else if (white_bytes (rev (firstn 3 r)) =? 3)%nat then 3%nat
  else 0%nat.

(** Dropping from the head as long as [measure] finds something to drop. *)
Fixpoint drop_while (measure : list ascii -> nat) (fuel : nat)
    (l : list ascii) : list ascii :=
  match fuel with
  | O => l
  | S f => match measure l with
           | O => l
           | n => drop_while measure f (skipn n l)
           end
  end.

(** Leading white space dropped. *)
Definition drop_space (l : list ascii) : list ascii :=
  drop_while white_bytes (length l) l.

(** [s.trim()] *)
Definition trim (l : list ascii) : list ascii :=
  let l' := drop_space l in
  rev (drop_while white_bytes_end (length l') (rev l')).

(** [BigInt(s)] on a string (StringToBigInt): white space is trimmed, the
    empty string is [0n], then either a prefixed binary, octal or hexadecimal
    literal or an optionally signed decimal one; anything else throws a
    SyntaxError, here [None]. *)
Definition BigInt (s : string) : option Z :=
  match trim (chars s) with
  | [] => Some 0
  | "0"%char :: "x"%char :: r | "0"%char :: "X"%char :: r =>
      nonempty_digits 16 is_hex hex_val r
  | "0"%char :: "o"%char :: r | "0"%char :: "O"%char :: r =>
      nonempty_digits 8 is_oct digit_val r
  | "0"%char :: "b"%char :: r | "0"%char :: "B"%char :: r =>
      nonempty_digits 2 is_bin digit_val r
  | "+"%char :: r => nonempty_digits 10 is_digit digit_val r
  | "-"%char :: r => option_map Z.opp (nonempty_digits 10 is_digit digit_val r)
  | l => nonempty_digits 10 is_digit digit_val l
  end.

End JS.

(** ** Keccak-256, for the address checksum of viem's [isAddress] *)

Module Keccak.
Local Open Scope N_scope.

Definition mask64 : N := 0xFFFFFFFFFFFFFFFF.

Definition rotl64 (x n : N) : N :=
  N.lor (N.land (N.shiftl x n) mask64) (N.shiftr x (64 - n)).

(** The state is 25 lanes of 64 bits; lane (x, y) sits at index [x + 5 y]. *)
Definition lane (st : list N) (x y : nat) : N :=
  nth (x mod 5 + 5 * (y mod 5)) st 0.

Definition idx : list nat := seq 0 25.

Definition rot_offsets : list N :=
  [0; 1; 62; 28; 27; 36; 44; 6; 55; 20; 3; 10; 43; 25; 39; 41; 45; 15; 21; 8;
   18; 2; 61; 56; 14].

Definition round_constants : list N :=
  [0x0000000000000001; 0x0000000000008082; 0x800000000000808A;
   0x8000000080008000; 0x000000000000808B; 0x0000000080000001;
   0x8000000080008081; 0x8000000000008009; 0x000000000000008A;
   0x0000000000000088; 0x0000000080008009; 0x000000008000000A;
   0x000000008000808B; 0x800000000000008B; 0x8000000000008089;
   0x8000000000008003; 0x8000000000008002; 0x8000000000000080;
   0x000000000000800A; 0x800000008000000A; 0x8000000080008081;
   0x8000000000008080; 0x0000000080000001; 0x8000000080008008].

Definition theta (st : list N) : list N :=
  let C := map (fun x => fold_left N.lxor (map (lane st x) (seq 0 5)) 0)
               (seq 0 5) in
  let D := map (fun x => N.lxor (nth ((x + 4) mod 5) C 0)
                                (rotl64 (nth ((x + 1) mod 5) C 0) 1))
               (seq 0 5) in
  map (fun i => N.lxor (nth i st 0) (nth (i mod 5) D 0)) idx.

(** Lane (X, Y) of the result is lane (x, y) = (X + 3 Y, X) rotated. *)
Definition rho_pi (st : list N) : list N :=
  map (fun i => let x := ((i mod 5 + 3 * (i / 5)) mod 5)%nat in
                let y := (i mod 5)%nat in
                rotl64 (lane st x y) (nth (x + 5 * y) rot_offsets 0)) idx.

Definition chi (st : list N) : list N :=
  map (fun i => let x := (i mod 5)%nat in
                let y := (i / 5)%nat in
                N.lxor (lane st x y)
                  (N.land (N.lxor (lane st (x + 1) y) mask64)
                          (lane st (x + 2) y))) idx.

Definition iota (rc : N) (st : list N) : list N :=
  match st with
  | [] => []
  | a :: r => N.lxor a rc :: r
  end.

Definition round (st : list N) (rc : N) : list N :=
  iota rc (chi (rho_pi (theta st))).

Definition keccak_f (st : list N) : list N := fold_left round round_constants st.

Fixpoint le_word (bs : list N) : N :=
  match bs with
  | [] => 0
  | b :: r => b + 256 * le_word r
  end.

Fixpoint chunks {A} (fuel n : nat) (l : list A) : list (list A) :=
  match fuel with
  | O => []
  | S f => match l with
           | [] => []
           | _ => firstn n l :: chunks f n (skipn n l)
           end
  end.

Definition rate : nat := 136.

Definition pad (msg : list N) : list N :=
  let q := (rate - length msg mod rate)%nat in
  if (q =? 1)%nat then msg ++ [0x81]
  else msg ++ [0x01] ++ repeat 0 (q - 2) ++ [0x80].

Definition absorb (st block : list N) : list N :=
  let lanes := map le_word (chunks 17 8 block) in
  keccak_f (map (fun i => N.lxor (nth i st 0) (nth i lanes 0)) idx).

Fixpoint word_bytes (n : nat) (w : N) : list N :=
  match n with
  | O => []
  | S k => (w mod 256) :: word_bytes k (w / 256)
  end.

(** The 32 bytes of the digest. *)
Definition keccak256 (msg : list N) : list N :=
  let p := pad msg in
  let st := fold_left absorb (chunks (length p) rate p) (repeat 0 25) in
  flat_map (word_bytes 8) (firstn 4 st).

(** The 64 nibbles of the digest, high nibble of each byte first. *)
Definition nibbles (bs : list N) : list N :=
  flat_map (fun b => [b / 16; b mod 16]) bs.

End Keccak.

(** ** viem: isAddress *)

Module Viem.

(** [/^0x[a-fA-F0-9]{40}$/.test(address)] *)
Definition addressRegex (address : string) : bool :=
  match JS.chars address with
  | "0"%char :: "x"%char :: r => (length r =? 40)%nat && forallb JS.is_hex r
  | _ => false
  end.

(** [checksumAddress(address)] (EIP-55, no chain id): character [i] of the
    lowercased hex part is uppercased when nibble [i] of the Keccak-256 digest
    of that lowercased hex part is 8 or more. *)
Fixpoint checksumChars (hexAddress : list ascii) (hash : list N) : list ascii :=
  match hexAddress, hash with
  | c :: r, h :: hs =>
      (if (8 <=? h)%N then JS.upper_char c else c) :: checksumChars r hs
  | _, _ => hexAddress
  end.

Definition checksumAddress (address : string) : string :=
  let hexAddress := JS.chars (JS.toLowerCase (JS.slice 2 address)) in
  let hash := Keccak.nibbles (Keccak.keccak256 (map N_of_ascii hexAddress)) in
  "0x" ++ JS.str (checksumChars hexAddress (firstn 40 hash)).

(** [isAddress(address)], strict as by default. *)
Definition isAddress (address : string) : bool :=
  if negb (addressRegex address) then false
  else if String.eqb (JS.toLowerCase address) address then true
  else String.eqb (checksumAddress address) address.

End Viem.

(** ** Exceptions *)

Definition bind {E A B : Type} (m : E + A) (f : A -> E + B) : E + B :=
  match m with
  | inl e => inl e
  | inr a => f a
  end.

Notation "'let*' x ':=' m 'in' k" := (bind m (fun x => k))
  (at level 10, x name, m at level 100, k at level 200).

Definition throw {E A : Type} (e : E) : E + A := inl e.
Definition ret {E A : Type} (a : A) : E + A := inr a.

(** ** Array.prototype.sort *)

Module JSArray.

Definition Qpos_bool (q : Q) : bool := negb (Qle_bool q 0).

(** [insert x l] puts [x], which stood before every element of [l], into the
    sorted [l]: it moves behind [y] only when [compareFn(x, y) > 0]. *)
Fixpoint insert {A} (compareFn : A -> A -> Q) (x : A) (l : list A) : list A :=
  match l with
  | [] => [x]
  | y :: r => if Qpos_bool (compareFn x y) then y :: insert compareFn x r
              else x :: l
  end.

(** [l.sort(compareFn)]: the sort is stable (ECMAScript 2019), and for a
    consistent comparator the stable sorted arrangement is unique, so that
    stable insertion computes what every conforming engine returns. *)
Definition sort {A} (compareFn : A -> A -> Q) (l : list A) : list A :=
  fold_right (insert compareFn) [] l.

(** [l.slice(0, n)] *)
Definition slice0 {A} (n : nat) (l : list A) : list A := firstn n l.

(** The comparator [(a, b) => key(b) - key(a)], and the order it sorts
    into: descending by key. *)
Definition byKey {A} (key : A -> Q) (a b : A) : Q := (key b - key a)%Q.
Definition desc {A} (key : A -> Q) (a b : A) : Prop := (key b <= key a)%Q.

End JSArray.

(** ** The transfer-call builder (the useTransferBuilder hook) *)

Module Builder.

Record Token := {
  contract_address : string;
  contract_name : string;
  contract_ticker_symbol : string;
  contract_decimals : Z;
  supports_erc : list string;
  native_token : bool;
  is_spam : bool;
  balance : string;
  quote : Q;
}.

Inductive CallType := native_transfer | erc20_transfer.

(** [TransferCall]; the [description], a locale-formatted display string, is
    left out. *)
Record TransferCall := {
  to : string;
  value : Z;
  data : option string;
  type : CallType;
}.

Record TransferCallWithValue := {
  call : TransferCall;
  tokenQuote : Q;
  token : option Token;
}.

Record PrecheckResult := { total : nat; valid : nat; failed : nat }.

Record BuildResult := {
  calls : list TransferCall;
  precheckResult : PrecheckResult;
}.

Inductive BuildError :=
  | InvalidTargetAddressFormat
  | WalletNotConnected
  | SyntaxError                  (* BigInt of a string that is no integer *)
  | RangeError                   (* toLocaleString, digits out of range *)
  | PublicClientNotAvailable
  | InvalidDecimalNumber         (* parseEther *)
  | NoValidTransfers.

(** What the hook reads from its surroundings: the connected account, its
    native balance, and the chain client with the outcome of the [i]-th
    [eth_call] it is asked to make ([true]: the call returns, [false]: it
    reverts). *)
Record BalanceData := { balance_value : Z; balance_symbol : string }.

Record Env := {
  address : option string;
  balanceData : option BalanceData;
  getPublicClient : Z -> option (nat -> TransferCall -> bool);
}.

Definition NATIVE_TOKEN_RESERVE (chainId : Z) : option string :=
  if chainId =? 1 then Some "0.002248"
  else if chainId =? 137 then Some "0.04496"
  else if chainId =? 56 then Some "0.0001724"
  else if chainId =? 42161 then Some "0.0001124"
  else if chainId =? 8453 then Some "0.0001124"
  else if chainId =? 10 then Some "0.0001124"
  else None.

Fixpoint split_dot (l : list ascii) : list ascii * option (list ascii) :=
  match l with
  | [] => ([], None)
  | c :: r => if Ascii.eqb c "."%char then ([], Some r)
              else let (i, f) := split_dot r in (c :: i, f)
  end.

Fixpoint strip_zeros (l : list ascii) : list ascii :=
  match l with
  | "0"%char :: r => strip_zeros r
  | _ => l
  end.

(** viem's [parseEther(s)] = [parseUnits(s, 18)] on an unsigned decimal whose
    fraction, trailing zeros dropped, has at most 18 digits: integer part and
    fraction padded to 18 digits, read as one integer.  Longer fractions (which
    viem rounds) and signed inputs do not occur in the table and are not
    modelled; a string that is no decimal number throws. *)
Definition parseEther (s : string) : BuildError + Z :=
  let (int, f) := split_dot (JS.chars s) in
  let frac := rev (strip_zeros (rev (match f with Some d => d | None => [] end))) in
  if forallb JS.is_digit int && forallb JS.is_digit frac
     && (length frac <=? 18)%nat
  then match JS.digits_val 10 JS.is_digit JS.digit_val
               (int ++ frac ++ repeat "0"%char (18 - length frac)) 0 with
       | Some n => ret n
       | None => throw InvalidDecimalNumber
       end
  else throw InvalidDecimalNumber.

(** [BigInt(token.balance || "0")] *)
Definition balanceOf (t : Token) : BuildError + Z :=
  match JS.BigInt (JS.or_else (balance t) "0") with
  | Some b => ret b
  | None => throw SyntaxError
  end.

(** [tokens.filter(token => BigInt(token.balance || "0") > 0n && !token.native_token)] *)
Fixpoint filterERC20 (tokens : list Token) : BuildError + list Token :=
  match tokens with
  | [] => ret []
  | t :: r =>
      let* b := balanceOf t in
      let* l := filterERC20 r in
      ret (if (0 <? b) && negb (native_token t) then t :: l else l)
  end.

(** [(a, b) => b.quote - a.quote] *)
Definition byQuote (a b : Token) : Q := (quote b - quote a)%Q.

(** Step 1: the top 20 ERC20 tokens by value. *)
Definition allERC20Tokens (tokens : list Token) : BuildError + list Token :=
  let* l := filterERC20 tokens in
  ret (JSArray.slice0 20 (JSArray.sort byQuote l)).

(** [transfer(address,uint256)] call data. *)
Definition encodeTransfer (targetAddress : string) (balance : Z) : string :=
  let recipientAddress := JS.padStart 64 "0" (JS.slice 2 targetAddress) in
  let amountHex := JS.padStart 64 "0" (JS.toString16 balance) in
  "0xa9059cbb" ++ recipientAddress ++ amountHex.

(** The entry pushed for a token whose balance is [b]. *)
Definition erc20Call (targetAddress : string) (t : Token) (b : Z)
    : TransferCallWithValue :=
  {| call := {| type := erc20_transfer;
                to := contract_address t;
                value := 0;
                data := Some (encodeTransfer targetAddress b) |};
     tokenQuote := quote t;
     token := Some t |}.

(** The largest [maximumFractionDigits] that Intl.NumberFormat takes
    (ECMA-402 from its 2023 edition on; 20 before). *)
Definition MAX_FRACTION_DIGITS : Z := 100.

(** [tokenAmount.toLocaleString(undefined, { maximumFractionDigits:
    token.contract_decimals })]: a RangeError unless the digits are within
    range.  The string itself goes into the description only, which is left
    out.  [contract_decimals] is an integer. *)
Definition formattedAmount (t : Token) : BuildError + unit :=
  if (0 <=? contract_decimals t) && (contract_decimals t <=? MAX_FRACTION_DIGITS)
  then ret tt
  else throw RangeError.

(** Step 2: one call per selected token. *)
Fixpoint precheckCalls (targetAddress : string) (selected : list Token)
    : BuildError + list TransferCallWithValue :=
  match selected with
  | [] => ret []
  | t :: r =>
      let* b := balanceOf t in
      if b =? 0 then precheckCalls targetAddress r
      else
        let* formatted := formattedAmount t in
        let* l := precheckCalls targetAddress r in
        ret (erc20Call targetAddress t b :: l)
  end.

(** Step 3: the loop over [precheckCalls], from index [i], with the three
    variables it updates. *)
Fixpoint precheckLoop (publicClient_call : nat -> TransferCall -> bool)
    (i : nat) (cs : list TransferCallWithValue)
    (precheckValidCalls : list TransferCallWithValue)
    (validCount failedCount : nat)
    : list TransferCallWithValue * nat * nat :=
  match cs with
  | [] => (precheckValidCalls, validCount, failedCount)
  | c :: r =>
      if publicClient_call i (call c)
      then precheckLoop publicClient_call (S i) r
             (precheckValidCalls ++ [c]) (S validCount) failedCount
      else precheckLoop publicClient_call (S i) r
             precheckValidCalls validCount (S failedCount)
  end.

(** [balanceData?.value || BigInt(0)] *)
Definition nativeBalance (env : Env) : Z :=
  match balanceData env with
  | Some bd => balance_value bd
  | None => 0
  end.

(** Step 4: the native transfer, if any. *)
Definition nativeTransferCall (env : Env) (tokens : list Token)
    (targetAddress : string) (chainId : Z)
    : BuildError + option TransferCallWithValue :=
  match NATIVE_TOKEN_RESERVE chainId with
  | Some reserveAmountStr =>
      if JS.truthy reserveAmountStr then
        let* reserveAmountWei := parseEther reserveAmountStr in
        if reserveAmountWei <? nativeBalance env then
          let transferAmount := nativeBalance env - reserveAmountWei in
          let nativeToken := List.find native_token tokens in
          ret (Some {| call := {| type := native_transfer;
                                  to := targetAddress;
                                  value := transferAmount;
                                  data := None |};
                       tokenQuote := match nativeToken with
                                     | Some t => quote t
                                     | None => 0%Q
                                     end;
                       token := nativeToken |})
        else ret None
      else ret None
  | None => ret None
  end.

Definition maxTransfers : nat := 10.

(** [(a, b) => (b.tokenQuote || 0) - (a.tokenQuote || 0)] *)
Definition byTokenQuote (a b : TransferCallWithValue) : Q :=
  (tokenQuote b - tokenQuote a)%Q.

Definition option_list {A} (o : option A) : list A :=
  match o with
  | Some a => [a]
  | None => []
  end.

(** Step 5: valid calls and native transfer together, by value. *)
Definition allValidCalls (precheckValidCalls : list TransferCallWithValue)
    (nativeCall : option TransferCallWithValue) : list TransferCallWithValue :=
  JSArray.sort byTokenQuote (precheckValidCalls ++ option_list nativeCall).

(** Step 6: the first ten, without the sorting fields. *)
Definition finalCalls (all : list TransferCallWithValue) : list TransferCall :=
  map call (JSArray.slice0 maxTransfers all).

Definition buildTransferCalls (env : Env) (tokens : list Token)
    (targetAddress : string) (chainId : Z) : BuildError + BuildResult :=
  if negb (Viem.isAddress targetAddress) then throw InvalidTargetAddressFormat
  else match address env with
  | None => throw WalletNotConnected
  | Some _ =>
    let* selected := allERC20Tokens tokens in
    let* pre := precheckCalls targetAddress selected in
    match getPublicClient env chainId with
    | None => throw PublicClientNotAvailable
    | Some publicClient_call =>
      let '(precheckValidCalls, validCount, failedCount) :=
        precheckLoop publicClient_call 0 pre [] 0%nat 0%nat in
      let* nativeCall := nativeTransferCall env tokens targetAddress chainId in
      let final := finalCalls (allValidCalls precheckValidCalls nativeCall) in
      if (length final =? 0)%nat then throw NoValidTransfers
      else ret {| calls := final;
                  precheckResult := {| total := length pre;
                                       valid := validCount;
                                       failed := failedCount |} |}
    end
  end.

(** The form that calls the builder
    (components/transfer-configuration.tsx, [validateAddress] and
    [handleBuildTransfers]): [None] when the form refuses the address and
    the builder is not called. *)
Definition validateAddress (env : Env) (addr : string) : bool :=
  if negb (JS.truthy (JS.str (JS.trim (JS.chars addr)))) then false
  else if negb (Viem.isAddress addr) then false
  else match address env with
       | Some a => negb (String.eqb (JS.toLowerCase addr) (JS.toLowerCase a))
       | None => true
       end.

Definition handleBuildTransfers (env : Env) (tokens : list Token)
    (targetAddress : string) (chainId : Z) : option (BuildError + BuildResult) :=
  if validateAddress env targetAddress
  then Some (buildTransferCalls env tokens targetAddress chainId)
  else None.

(** *** Vocabulary of the statements *)

(** The tokens step 1 ranks: non-native, with a balance that reads as a
    positive integer. *)
Definition eligible (t : Token) : bool :=
  match JS.BigInt (JS.or_else (balance t) "0") with
  | Some b => (0 <? b) && negb (native_token t)
  | None => false
  end.

(** The token's amount can be formatted with its decimals. *)
Definition formattable (t : Token) : Prop :=
  0 <= contract_decimals t <= MAX_FRACTION_DIGITS.

(** The balance a token's string stands for (0 when it is no integer). *)
Definition amount (t : Token) : Z :=
  match JS.BigInt (JS.or_else (balance t) "0") with
  | Some b => b
  | None => 0
  end.

(** The candidates whose simulation, made in order from index [i], returns,
    and those whose simulation reverts. *)
Fixpoint succeeded (publicClient_call : nat -> TransferCall -> bool) (i : nat)
    (cs : list TransferCallWithValue) : list TransferCallWithValue :=
  match cs with
  | [] => []
  | c :: r => if publicClient_call i (call c)
              then c :: succeeded publicClient_call (S i) r
              else succeeded publicClient_call (S i) r
  end.

Fixpoint reverted (publicClient_call : nat -> TransferCall -> bool) (i : nat)
    (cs : list TransferCallWithValue) : list TransferCallWithValue :=
  match cs with
  | [] => []
  | c :: r => if publicClient_call i (call c)
              then reverted publicClient_call (S i) r
              else c :: reverted publicClient_call (S i) r
  end.

(** What a successful build went through. *)
Inductive BuildTrace (env : Env) (tokens : list Token) (target : string)
    (chainId : Z) (res : BuildResult) : Prop :=
| Trace (selected : list Token) (client : nat -> TransferCall -> bool)
    (native : option TransferCallWithValue)
    (pre := map (fun t => erc20Call target t (amount t)) selected)
    (validCalls := succeeded client 0 pre)
    (Haddress : Viem.isAddress target = true)
    (Hconnected : exists a, address env = Some a)
    (Hstep1 : allERC20Tokens tokens = inr selected)
    (Hstep2 : precheckCalls target selected = inr pre)
    (Hstep3 : getPublicClient env chainId = Some client)
    (Hstep4 : nativeTransferCall env tokens target chainId = inr native)
    (Hcalls : calls res = finalCalls (allValidCalls validCalls native))
    (Hnonempty : calls res <> [])
    (Htotal : total (precheckResult res) = length pre)
    (Hvalid : valid (precheckResult res) = length validCalls)
    (Hfailed : failed (precheckResult res) = length (reverted client 0 pre)).

(** [nativeToken?.quote || 0]: the value the native transfer is ranked by. *)
Definition nativeQuote (tokens : list Token) : Q :=
  match List.find native_token tokens with
  | Some t => quote t
  | None => 0%Q
  end.

(** The chain's reserve in wei, when the chain has one. *)
Definition reserveWei (chainId : Z) : option Z :=
  match NATIVE_TOKEN_RESERVE chainId with
  | Some s => match parseEther s with
              | inr r => Some r
              | inl _ => None
              end
  | None => None
  end.

(** The integer a string of hexadecimal digits stands for. *)
Definition hex_value (s : string) : option Z :=
  JS.nonempty_digits 16 JS.is_hex JS.hex_val (JS.chars s).

(** [0-9a-f] *)
Definition lower_hex (c : ascii) : bool := JS.is_hex c && negb (JS.is_upper c).

Definition zeros24 : string := "000000000000000000000000".

(** The call data as the specification words it: the address part in
    lowercase. *)
Definition encodeTransfer_lowercase (targetAddress : string) (balance : Z)
    : string :=
  "0xa9059cbb" ++ zeros24 ++ JS.toLowerCase (JS.slice 2 targetAddress)
  ++ JS.padStart 64 "0" (JS.toString16 balance).

Definition is_native (c : TransferCall) : bool :=
  match type c with
  | native_transfer => true
  | erc20_transfer => false
  end.

End Builder.

(** Sample wallets and tokens for the examples. *)
Module BuilderTest.
Import Builder.

Definition tok (addr bal : string) (q : Q) (native : bool) : Token :=
  {| contract_address := addr; contract_name := "T";
     contract_ticker_symbol := "T"; contract_decimals := 18;
     supports_erc := (if native then [] else ["erc20"]);
     native_token := native; is_spam := false;
     balance := bal; quote := q |}.

Definition sender : string := "0x5aaeb6053f3e94c9b9a09f33669435e7ef1beaed".
Definition zeroAddress : string := "0x0000000000000000000000000000000000000000".
Definition friend : string := "0xfb6916095ca1df60bb79ce92ce3ea74c37c5d359".
Definition friendChecksummed : string :=
  "0xfB6916095ca1df60bB79Ce92cE3Ea74c37c5d359".

Definition usdc : Token :=
  tok "0x833589fcd6edb6e08f4c7c32d4f71b54bda02913" "1000" (50 # 1) false.
Definition true_ : Token :=
  tok "0x21cfcfc3d8f98fc728f48341d10ad8283f6eb7ab" "255" (12 # 1) false.
Definition eth : Token := tok zeroAddress "5000000000000000" (9 # 1) true.

(** A wallet holding [bal] wei whose [i]-th simulated call returns iff
    [ok i]. *)
Definition wallet (bal : Z) (ok : nat -> bool) : Env :=
  {| address := Some sender;
     balanceData := Some {| balance_value := bal; balance_symbol := "ETH" |};
     getPublicClient := fun _ => Some (fun i _ => ok i) |}.

Definition env0 (bal : Z) : Env := wallet bal (fun _ => true).

(** Twenty-five tokens worth $1 to $25, one base unit each. *)
Definition twentyFive : list Token :=
  map (fun i => tok "0x833589fcd6edb6e08f4c7c32d4f71b54bda02913" "1"
                    (inject_Z (Z.of_nat i)) false) (seq 1 25).

End BuilderTest.

(** ** JavaScript numbers that hold an amount *)

Module JSNumber.

(** A number as [parseFloat] returns it: a double.  A finite double is
    given by the rational it is; negative zero is the rational 0, which it
    equals in every comparison made. *)
Inductive number :=
  | NaN
  | Num (q : Q)
  | Infinity
  | NegInfinity.

(** [x === 0] *)
Definition is_zero (x : number) : bool :=
  match x with
  | Num q => Qeq_bool q 0
  | _ => false
  end.

(** [x > c] for a finite [c] *)
Definition gt (x : number) (c : Q) : bool :=
  match x with
  | Num q => negb (Qle_bool q c)
  | Infinity => true
  | NaN | NegInfinity => false
  end.

(** [2^k] *)
Definition pow2 (k : Z) : Q :=
  if 0 <=? k then inject_Z (2 ^ k) else (1 # Z.to_pos (2 ^ (- k)))%Q.

(** The integer nearest to [n / d], the even one of two that are equally
    near; [d] is positive. *)
Definition nearest_even (n d : Z) : Z :=
  let fl := n / d in
  let r := n mod d in
  if 2 * r <? d then fl
  else if d <? 2 * r then fl + 1
  else if Z.even fl then fl else fl + 1.

(** The largest [e] with [2^e <= n / d], for positive [n] and [d]. *)
Definition floor_log2 (n d : Z) : Z :=
  let e := Z.log2 n - Z.log2 d in
  if (if 0 <=? e then d * 2 ^ e <=? n else d <=? n * 2 ^ (- e))
  then e else e - 1.

(** The Number value of the positive rational [n / d]: the nearest double,
    the one with an even significand of two that are equally near (IEEE 754
    binary64).  Doubles are the multiples of [2^(e - 52)] in each interval
    from [2^e] to [2^(e + 1)] for [e] from -1022 to 1023, and the multiples
    of [2^-1074] below [2^-1022]; what rounds to [2^1024] is Infinity. *)
Definition round_pos (n d : Z) : number :=
  let k := Z.max (floor_log2 n d) (-1022) - 52 in
  let m := if 0 <=? k then nearest_even n (d * 2 ^ k)
           else nearest_even (n * 2 ^ (- k)) d in
  if (0 <=? k) && (2 ^ 1024 <=? m * 2 ^ k) then Infinity
  else Num (inject_Z m * pow2 k)%Q.

(** The Number value of a rational. *)
Definition toNumber (q : Q) : number :=
  match Qnum q with
  | Z0 => Num 0
  | Zpos n => round_pos (Zpos n) (Zpos (Qden q))
  | Zneg n => match round_pos (Zpos n) (Zpos (Qden q)) with
              | Num v => Num (- v)
              | Infinity => NegInfinity
              | other => other
              end
  end.

Fixpoint span (p : ascii -> bool) (l : list ascii) : list ascii * list ascii :=
  match l with
  | c :: r => if p c then let (a, b) := span p r in (c :: a, b) else ([], l)
  | [] => ([], [])
  end.

Fixpoint starts_with (pre l : list ascii) : bool :=
  match pre, l with
  | [], _ => true
  | p :: pre', c :: l' => Ascii.eqb p c && starts_with pre' l'
  | _ :: _, [] => false
  end.

Definition sign (l : list ascii) : bool * list ascii :=
  match l with
  | "+"%char :: r => (false, r)
  | "-"%char :: r => (true, r)
  | _ => (false, l)
  end.

Fixpoint decimal_val (l : list ascii) (acc : Z) : Z :=
  match l with
  | [] => acc
  | c :: r => decimal_val r (10 * acc + JS.digit_val c)
  end.

(** The exponent part at the head of [l], 0 when there is none or it lacks
    its digits. *)
Definition exponent (l : list ascii) : Z :=
  match l with
  | "e"%char :: r | "E"%char :: r =>
      let (neg, r') := sign r in
      let (ds, _) := span JS.is_digit r' in
      match ds with
      | [] => 0
      | _ => if neg then - decimal_val ds 0 else decimal_val ds 0
      end
  | _ => 0
  end.

(** [parseFloat(s)]: leading white space is skipped, then the longest prefix
    that is a decimal literal (sign, digits, fraction, exponent) or a signed
    "Infinity" is read, and its value is rounded to a double; [NaN] when
    there is no such prefix.  (Beyond twenty significant digits the standard
    lets an engine round a truncated value; engines round the exact one.) *)
Definition parseFloat (s : string) : number :=
  let (neg, l) := sign (JS.drop_space (JS.chars s)) in
  if starts_with (JS.chars "Infinity") l
  then (if neg then NegInfinity else Infinity)
  else
    let (int, r1) := span JS.is_digit l in
    let (frac, r2) := match r1 with
                      | "."%char :: r => span JS.is_digit r
                      | _ => ([], r1)
                      end in
    match int, frac with
    | [], [] => NaN
    | _, _ =>
        let mantissa := decimal_val (int ++ frac) 0 in
        let e := exponent r2 - Z.of_nat (length frac) in
        toNumber (inject_Z (if neg then - mantissa else mantissa)
                  * Qpower (10 # 1) e)%Q
    end.

End JSNumber.

(** ** The discovery filter (hooks/use-token-balances.ts, fetchTokens) *)

Module Discovery.
Import JSNumber.

(** [APP_CONFIG.MIN_TOKEN_VALUE_USD], the number [0.01]: the double nearest
    to 1/100, which is 5764607523034235 / 2^59. *)
Definition MIN_TOKEN_VALUE_USD : Q :=
  match toNumber (1 # 100) with
  | Num q => q
  | _ => 0
  end.

Definition NATIVE_SENTINEL : string := "0xeeeeeeeeeeeeeeeeeeeeeeeeeeeeeeeeeeeeeeee".
Definition ZERO_ADDRESS : string := "0x0000000000000000000000000000000000000000".

(** A normalized asset record, with the fields the filter reads.  A string
    field that is absent is the empty string (both are falsy);
    [native_token] and [is_spam] hold the truthiness of the field;
    [supports_erc] is [Some] when the field is an array. *)
Record Asset := {
  balance : string;
  balance_formatted : string;
  token_balance : string;
  token_address : string;
  contract_address : string;
  native_token : bool;
  supports_erc : option (list string);
  usd_value : string;
  is_spam : bool;
}.

(** [asset.balance || asset.balance_formatted || asset.token_balance || '0'] *)
Definition balanceValue (asset : Asset) : string :=
  JS.or_else (JS.or_else (JS.or_else (balance asset) (balance_formatted asset))
                         (token_balance asset)) "0".

(** [asset.token_address || asset.contract_address || ''] *)
Definition tokenAddress (asset : Asset) : string :=
  JS.or_else (JS.or_else (token_address asset) (contract_address asset)) "".

Definition isNative (asset : Asset) : bool :=
  native_token asset
  || (JS.truthy (tokenAddress asset)
      && String.eqb (JS.toLowerCase (tokenAddress asset)) NATIVE_SENTINEL).

Definition isErc20 (asset : Asset) : bool :=
  if isNative asset then false
  else match supports_erc asset with
       | Some l => existsb (String.eqb "erc20") l
       | None => false
       end
       || (JS.truthy (tokenAddress asset)
           && negb (String.eqb (tokenAddress asset) ZERO_ADDRESS)
           && negb (String.eqb (JS.toLowerCase (tokenAddress asset))
                               NATIVE_SENTINEL)).

(** [parseFloat(asset.usd_value || '0')] *)
Definition quote (asset : Asset) : number :=
  parseFloat (JS.or_else (usd_value asset) "0").

Definition hasValue (asset : Asset) : bool :=
  is_zero (quote asset) || gt (quote asset) MIN_TOKEN_VALUE_USD.

Definition hasBalance (asset : Asset) : bool :=
  JS.truthy (balanceValue asset)
  && negb (String.eqb (balanceValue asset) "0")
  && gt (parseFloat (balanceValue asset)) 0.

(** The callback of [assetsWithPrices.filter]. *)
Definition keep (isTokenVerified : string -> bool) (asset : Asset) : bool :=
  let isValidTokenType := isNative asset || isErc20 asset in
  let isNotSpam := negb (is_spam asset) in
  let isVerified :=
    isNative asset
    || (JS.truthy (tokenAddress asset) && isTokenVerified (tokenAddress asset)) in
  if isNative asset then hasBalance asset && isNotSpam
  else isValidTokenType && hasValue asset && hasBalance asset && isNotSpam
       && isVerified.

Definition filteredTokens (isTokenVerified : string -> bool)
    (assetsWithPrices : list Asset) : list Asset :=
  List.filter (keep isTokenVerified) assetsWithPrices.

(** *** Vocabulary of the statements *)

Definition positive (x : number) : Prop :=
  match x with
  | Num q => (0 < q)%Q
  | Infinity => True
  | NaN | NegInfinity => False
  end.




(** Passing verification: there is an address and the registry accepts it. *)
Definition verified (isTokenVerified : string -> bool) (asset : Asset) : Prop :=
  tokenAddress asset <> "" /\ isTokenVerified (tokenAddress asset) = true.

Definition with_usd_value (v : string) (asset : Asset) : Asset :=
  {| balance := balance asset; balance_formatted := balance_formatted asset;
     token_balance := token_balance asset; token_address := token_address asset;
     contract_address := contract_address asset;
     native_token := native_token asset; supports_erc := supports_erc asset;
     usd_value := v; is_spam := is_spam asset |}.

(** A sample record: tagged erc20, not spam, with the given address,
    balance and USD value. *)
Definition sample (addr bal usd : string) : Asset :=
  {| balance := bal; balance_formatted := ""; token_balance := "";
     token_address := addr; contract_address := "";
     native_token := false; supports_erc := Some ["erc20"];
     usd_value := usd; is_spam := false |}.

End Discovery.

(** ** Versioned caches with a time to live *)

(** Both hooks keep a module-level [Map] from a key to an entry stamped with
    the time and the cache version of its writing, next to a module-level
    version counter, and read it with the same test. *)
Module VersionedCache.

(** [APP_CONFIG.CACHE_TTL], in milliseconds *)
Definition CACHE_TTL : Z := 2 * 60 * 1000.

Section Cache.
Context {K : Type} `{Countable K} {V : Type}.

Record Entry := { data : V; timestamp : Z; version : Z }.

(** The [Map] and the version counter beside it. *)
Record t := { cache : gmap K Entry; cacheVersion : Z }.

(** [const cache = new Map(); let cacheVersion = 1] *)
Definition empty : t := {| cache := ∅; cacheVersion := 1 |}.

(** [const cached = cache.get(key)]
    [if (cached && Date.now() - cached.timestamp < CACHE_TTL
         && cached.version === cacheVersion)] *)
Definition get (now : Z) (key : K) (c : t) : option V :=
  match cache c !! key with
  | Some cached =>
      if (now - timestamp cached <? CACHE_TTL)
         && (version cached =? cacheVersion c)
      then Some (data cached)
      else None
  | None => None
  end.

(** [cache.set(key, { ...data, timestamp: Date.now(), version: cacheVersion })] *)
Definition put (now : Z) (key : K) (v : V) (c : t) : t :=
  {| cache := <[key := {| data := v; timestamp := now;
                          version := cacheVersion c |}]> (cache c);
     cacheVersion := cacheVersion c |}.

(** [cacheVersion++] *)
Definition invalidate (c : t) : t :=
  {| cache := cache c; cacheVersion := cacheVersion c + 1 |}.
End Cache.

Arguments Entry : clear implicits.
Arguments t K {_ _} V.

End VersionedCache.

(** ** The verified-token registry (hooks/use-verified-tokens.ts) *)

Module Registry.

Inductive ApiStatus := untested | working | failed.

(** [a === b] on statuses *)
Definition status_eqb (a b : ApiStatus) : bool :=
  match a, b with
  | untested, untested | working, working | failed, failed => true
  | _, _ => false
  end.

(** The status kept in a cache entry: ['working' | 'failed']. *)
Inductive EntryStatus := entry_working | entry_failed.

Definition status_of (s : EntryStatus) : ApiStatus :=
  match s with
  | entry_working => working
  | entry_failed => failed
  end.

(** An entry's [verifiedTokens] and [apiStatus]; the cache adds [timestamp]
    and [version]. *)
Definition CacheData : Type := gset string * EntryStatus.

(** [const cache = new Map<number, CacheEntry>()] with [cacheVersion]. *)
Abbreviation Cache := (VersionedCache.t Z CacheData).

Definition invalidateVerifiedTokensCache (c : Cache) : Cache :=
  VersionedCache.invalidate c.

Record VerifiedToken := {
  address : string;
  symbol : string;
  decimals : Z;
  listed : bool;
}.

(** What [fetch] and [response.json()] come to. *)
Inductive Response :=
  | Rejected (message : string)      (* fetch, json() or data.tokens throws *)
  | NotOk (message : string)         (* !response.ok *)
  | Json (tokens : option (list VerifiedToken))
                                     (* data.tokens: an array, or absent *)
  | NotArray (typeOf : string).      (* data.tokens is some other value,
                                        [typeof data.tokens] is [typeOf] *)

(** The state of one [useVerifiedTokens(chainId)]. *)
Record Hook := {
  verifiedTokens : gset string;
  loading : bool;
  error : option string;
  apiStatus : ApiStatus;
  isReady : bool;
}.

(** The [useState] initial values. *)
Definition initial : Hook :=
  {| verifiedTokens := ∅; loading := true; error := None;
     apiStatus := untested; isReady := false |}.

(** [data.tokens.filter(t => t.listed && t.address).map(t => t.address.toLowerCase())] *)
Definition verifiedAddresses (tokens : list VerifiedToken) : gset string :=
  list_to_set
    (map (fun t => JS.toLowerCase (address t))
         (List.filter (fun t => listed t && JS.truthy (address t)) tokens)).

(** The [try] block after the cache check: [inl] is the message thrown. *)
Definition parseResponse (r : Response) : string + gset string :=
  match r with
  | Rejected m => inl m
  | NotOk m => inl m
  | Json (Some tokens) => inr (verifiedAddresses tokens)
  | Json None =>
      inl "Invalid response format - expected tokens array, got: undefined"
  | NotArray typeOf =>
      inl ("Invalid response format - expected tokens array, got: " ++ typeOf)
  end.

(** [fetchVerifiedTokens()]: the cache is read at time [now]; on a miss the
    request is made, [r] comes back and the cache is written at [now']. *)
Definition fetchVerifiedTokens (chainId : Z) (now now' : Z) (r : Response)
    (c : Cache) (h : Hook) : Cache * Hook :=
  match VersionedCache.get now chainId c with
  | Some (tokens, status) =>
      (c, {| verifiedTokens := tokens; loading := false; error := None;
             apiStatus := status_of status; isReady := true |})
  | None =>
      match parseResponse r with
      | inr verified =>
          (VersionedCache.put now' chainId (verified, entry_working) c,
           {| verifiedTokens := verified; loading := false; error := None;
              apiStatus := working; isReady := true |})
      | inl message =>
          let previousCache := VersionedCache.cache c !! chainId in
          let previous : gset string :=
            match previousCache with
            | Some e => fst (VersionedCache.data e)
            | None => ∅
            end in
          (VersionedCache.put now' chainId (previous, entry_failed) c,
           {| verifiedTokens :=
                match previousCache with
                | Some e => if (0 <? size (fst (VersionedCache.data e)))%nat
                            then fst (VersionedCache.data e) else ∅
                | None => ∅
                end;
              loading := false; error := Some message;
              apiStatus := failed; isReady := true |})
      end
  end.

(** [isTokenVerified(tokenAddress)] *)
Definition isTokenVerified (h : Hook) (tokenAddress : string) : bool :=
  if negb (isReady h) then false
  else if (size (verifiedTokens h) =? 0)%nat
          && status_eqb (apiStatus h) failed then true
  else if status_eqb (apiStatus h) failed
          && (0 <? size (verifiedTokens h))%nat
       then bool_decide (JS.toLowerCase tokenAddress ∈ verifiedTokens h)
  else if (size (verifiedTokens h) =? 0)%nat
          && status_eqb (apiStatus h) working then true
  else bool_decide (JS.toLowerCase tokenAddress ∈ verifiedTokens h).

(** *** Vocabulary of the statements *)

(** The request failed: nothing came back, or a status that is not ok, or a
    body without a token array. *)
Definition fetch_failed (r : Response) : Prop :=
  exists message, parseResponse r = inl message.

(** No non-empty set is cached for the chain, fresh or stale. *)
Definition no_previous_set (chainId : Z) (c : Cache) : Prop :=
  forall e, VersionedCache.cache c !! chainId = Some e ->
            fst (VersionedCache.data e) = ∅.

End Registry.

(** ** The token cache of hooks/use-token-balances.ts *)

Module TokenCache.

(** [const cache = new Map<string, TokenCacheEntry>()] with
    [tokenCacheVersion]; [data] is the filtered token list. *)
Abbreviation Cache := (VersionedCache.t string (list Builder.Token)).

(** [`${address}-${chainId}`]; the chain id is given in decimal digits. *)
Definition cacheKey (address chainId : string) : string :=
  address ++ "-" ++ chainId.

Definition invalidateTokenBalanceCache (c : Cache) : Cache :=
  VersionedCache.invalidate c.

End TokenCache.

(** ** Chain resolution (lib/config.ts) and the start of discovery *)

Module Config.

(** [SUPPORTED_CHAINS] of types/index.ts.  config.ts also reads
    [SUPPORTED_CHAINS.MONAD], which that table does not define; it is the
    parameter [MONAD] below, [None] for [undefined]. *)
Definition ETHEREUM : Z := 1.
Definition POLYGON : Z := 137.
Definition BSC : Z := 56.
Definition ARBITRUM : Z := 42161.
Definition BASE : Z := 8453.
Definition OPTIMISM : Z := 10.

(** [case SUPPORTED_CHAINS.MONAD:] *)
Definition is_monad (MONAD : option Z) (chainId : Z) : bool :=
  match MONAD with
  | Some m => chainId =? m
  | None => false
  end.

Definition getMoralisChainName (MONAD : option Z) (chainId : Z) : string :=
  if chainId =? ETHEREUM then "eth"
  else if chainId =? POLYGON then "polygon"
  else if chainId =? BSC then "bsc"
  else if chainId =? ARBITRUM then "arbitrum"
  else if chainId =? BASE then "base"
  else if chainId =? OPTIMISM then "optimism"
  else if is_monad MONAD chainId then "monad"
  else "base".

(** Its neighbour in the same file, which does tell an unknown chain. *)
Definition getTrustWalletChainName (MONAD : option Z) (chainId : Z)
    : option string :=
  if chainId =? ETHEREUM then Some "ethereum"
  else if chainId =? POLYGON then Some "polygon"
  else if chainId =? BSC then Some "bsc"
  else if chainId =? ARBITRUM then Some "arbitrum"
  else if chainId =? BASE then Some "base"
  else if chainId =? OPTIMISM then Some "optimism"
  else if is_monad MONAD chainId then Some "monad"
  else None.

(** The chains the upstream provider's table knows. *)
Definition supported (MONAD : option Z) (chainId : Z) : bool :=
  match getTrustWalletChainName MONAD chainId with
  | Some _ => true
  | None => false
  end.

End Config.

Module FetchTokens.

(** The module constants read from the environment. *)
Record Keys := {
  PRIMARY_API_KEY : string;
  FALLBACK_API_KEY : string;
  MORALIS_BASE_URL : string;
}.

Inductive DiscoveryError :=
  | UnsupportedChain (chainId : Z)
  | KeysNotConfigured.

(** How [fetchTokens] begins: it returns at once, throws inside its [try]
    (its own [catch] then reports the error and clears the tokens), or makes
    its first request. *)
Inductive Start :=
  | Return
  | Throw (e : DiscoveryError)
  | Fetch (url : string) (apiKey : string).

(** [fetchTokens()] of hooks/use-token-balances.ts up to its first [fetch],
    for wallet [address] (empty when there is none). *)
Definition fetchTokens (MONAD : option Z) (keys : Keys) (address : string)
    (chainId : Z) : Start :=
  if negb (JS.truthy address) then Return
  else
    let chainName := Config.getMoralisChainName MONAD chainId in
    if negb (JS.truthy chainName) then Throw (UnsupportedChain chainId)
    else if negb (JS.truthy (PRIMARY_API_KEY keys))
            && negb (JS.truthy (FALLBACK_API_KEY keys))
    then Throw KeysNotConfigured
    else
      let url := MORALIS_BASE_URL keys ++ "/wallets/" ++ address
                 ++ "/tokens?chain=" ++ chainName
                 ++ "&exclude_spam=true&exclude_unverified_contracts=true&limit=100" in
      if JS.truthy (PRIMARY_API_KEY keys) then Fetch url (PRIMARY_API_KEY keys)
      else Fetch url (FALLBACK_API_KEY keys).

Definition SEPOLIA : Z := 11155111.

Definition sampleKeys : Keys :=
  {| PRIMARY_API_KEY := "key"; FALLBACK_API_KEY := "";
     MORALIS_BASE_URL := "https://deep-index.moralis.io/api/v2.2" |}.

End FetchTokens.

(** ** States of a versioned cache *)

Module CacheStates.
Import VersionedCache.

(** What a cache can come to from the empty one: the code only ever writes
    entries and bumps the version. *)
Inductive reachable {K : Type} `{Countable K} {V : Type}
    : VersionedCache.t K V -> Prop :=
  | reach_empty : reachable VersionedCache.empty
  | reach_put now key v c :
      reachable c -> reachable (VersionedCache.put now key v c)
  | reach_invalidate c :
      reachable c -> reachable (VersionedCache.invalidate c).

End CacheStates.

(** ** Decimal numerals *)

Module Decimal.

Definition digit (n : Z) : ascii := ascii_of_nat (Z.to_nat (48 + n)).

(** Digits of a non-negative number in base 10, most significant first. *)
Fixpoint dec_pos (fuel : nat) (n : Z) (acc : list ascii) : list ascii :=
  match fuel with
  | O => acc
  | S f => if n <? 10 then digit n :: acc
           else dec_pos f (n / 10) (digit (n mod 10) :: acc)
  end.

(** [String(n)] and [`${n}`] for an integer number [n] (below 10^21 in
    size, where JavaScript still writes all digits). *)
Definition toString10 (n : Z) : string :=
  if n <? 0 then "-" ++ JS.str (dec_pos (Z.to_nat (Z.log2 (- n)) + 1) (- n) [])
  else JS.str (dec_pos (Z.to_nat (Z.log2 n) + 1) n []).

Definition has_hex_prefix (l : list ascii) : bool :=
  JSNumber.starts_with (JS.chars "0x") l || JSNumber.starts_with (JS.chars "0X") l.

Fixpoint hex_digits_val (l : list ascii) (acc : Z) : Z :=
  match l with
  | [] => acc
  | c :: r => hex_digits_val r (16 * acc + JS.hex_val c)
  end.

(** [parseInt(s)] without a radix: leading white space (that of Unicode,
    line terminators included) and a sign are skipped, "0x" selects base 16,
    and the longest run of digits is read; [None] is NaN.  The value is the
    exact integer, which the Number returned is the rounding of: the two have
    the same sign, and they equal the same integers below 2^53. *)
Definition parseInt (s : string) : option Z :=
  let (neg, l) := JSNumber.sign (JS.drop_space (JS.chars s)) in
  let value :=
    if has_hex_prefix l
    then match fst (JSNumber.span JS.is_hex (skipn 2 l)) with
         | [] => None
         | ds => Some (hex_digits_val ds 0)
         end
    else match fst (JSNumber.span JS.is_digit l) with
         | [] => None
         | ds => Some (JSNumber.decimal_val ds 0)
         end in
  option_map (fun v => if neg then - v else v) value.

End Decimal.

(** ** The verified-token route (app/api/tokens/verified/route.ts) *)

Module VerifiedRoute.

(** [Object.values(SUPPORTED_CHAINS)] *)
Definition SUPPORTED_CHAIN_IDS : list Z := [1; 137; 56; 42161; 8453; 10].

(** [NextResponse.json(body, { status })] with the body's [tokens] and
    [error]. *)
Record RouteResponse := {
  status : Z;
  tokens : option (list Registry.VerifiedToken);
  error : string;
}.

Definition badRequest (message : string) : RouteResponse :=
  {| status := 400; tokens := None; error := message |}.

(** [array.includes(parseInt(s))]: NaN is in no array of chain ids. *)
Definition includes (ids : list Z) (n : option Z) : bool :=
  match n with
  | Some i => existsb (Z.eqb i) ids
  | None => false
  end.

(** [GET(request)] for the query parameters [chainId] and [limit], each the
    empty string when absent. *)
Definition GET (chainIdParam limitParam : string) : RouteResponse :=
  let limit := JS.or_else limitParam "1000" in
  if negb (JS.truthy chainIdParam)
  then badRequest "Missing required parameter: chainId"
  else if negb (includes SUPPORTED_CHAIN_IDS (Decimal.parseInt chainIdParam))
  then badRequest "Unsupported chain ID"
  else match Decimal.parseInt limit with
       | None => badRequest "Invalid limit parameter"
       | Some n => if n <=? 0 then badRequest "Invalid limit parameter"
                   else {| status := 200; tokens := Some []; error := "" |}
       end.

(** [response.ok] *)
Definition ok (r : RouteResponse) : bool :=
  (200 <=? status r) && (status r <=? 299).

(** What [fetchVerifiedTokens] makes of the route's answer. *)
Definition toHookResponse (r : RouteResponse) : Registry.Response :=
  if ok r then Registry.Json (tokens r)
  else Registry.NotOk
         (JS.or_else (error r)
            ("API request failed: " ++ Decimal.toString10 (status r))).

(** [fetch(`/api/tokens/verified?chainId=${chainId}&limit=1000&listed_only=true`)] *)
Definition request (chainId : Z) : Registry.Response :=
  toHookResponse (GET (Decimal.toString10 chainId) "1000").

(** No entry of the cache holds an address. *)
Definition all_empty (c : Registry.Cache) : Prop :=
  forall k e, VersionedCache.cache c !! k = Some e ->
              fst (VersionedCache.data e) = ∅.

End VerifiedRoute.

(** ** The server's API keys (lib/config.ts, getMoralisApiKeys) *)

Module ApiKeys.

(** The environment variables read, each the empty string when unset. *)
Record ServerEnv := {
  MORALIS_API_KEYS : string;
  MORALIS_PRIMARY_API_KEY : string;
  MORALIS_API_KEY : string;
  MORALIS_FALLBACK_API_KEY : string;
  MORALIS_API_KEY_BACKUP : string;
}.

(** [s.split(sep)] for a one-character separator: the pieces between the
    separators, one piece for a string without separator, the empty string
    included. *)
Fixpoint split (sep : ascii) (l : list ascii) : list (list ascii) :=
  match l with
  | [] => [[]]
  | c :: r =>
      if Ascii.eqb c sep then [] :: split sep r
      else match split sep r with
           | h :: t => (c :: h) :: t
           | [] => [[c]]
           end
  end.

(** [Array.from(new Set(l))]: the first occurrence of each element, in
    order; [seen] holds what the set already has. *)
Fixpoint dedupe (seen l : list string) : list string :=
  match l with
  | [] => []
  | x :: r => if existsb (String.eqb x) seen then dedupe seen r
              else x :: dedupe (x :: seen) r
  end.

(** [(process.env.MORALIS_API_KEYS || "").split(",").map(k => k.trim())
      .filter(k => k.length > 0)] *)
Definition keysFromList (env : ServerEnv) : list string :=
  List.filter (fun k => (0 <? String.length k)%nat)
    (map (fun k => JS.str (JS.trim k))
         (split ","%char (JS.chars (JS.or_else (MORALIS_API_KEYS env) "")))).

Definition primary (env : ServerEnv) : string :=
  JS.or_else (MORALIS_PRIMARY_API_KEY env) (MORALIS_API_KEY env).

Definition backup (env : ServerEnv) : string :=
  JS.or_else (MORALIS_FALLBACK_API_KEY env) (MORALIS_API_KEY_BACKUP env).

Definition getMoralisApiKeys (env : ServerEnv) : list string :=
  let result :=
    (keysFromList env
     ++ (if JS.truthy (primary env) then [primary env] else [])
     ++ (if JS.truthy (backup env) then [backup env] else []))%list in
  dedupe [] result.

(** [export const getAllApiKeys = getMoralisApiKeys] *)
Definition getAllApiKeys : ServerEnv -> list string := getMoralisApiKeys.

End ApiKeys.

(** ** Requests with key rotation (lib/moralis, fetchMoralisJson) *)

Module Moralis.

(** A response of [fetch]: [json] and [text] are [None] when reading the body
    throws. *)
Record HttpResponse (J : Type) := {
  status : Z;
  statusText : string;
  json : option J;
  text : option string;
}.
Arguments status {J}.
Arguments statusText {J}.
Arguments json {J}.
Arguments text {J}.

(** [res.ok] *)
Definition ok {J} (res : HttpResponse J) : bool :=
  (200 <=? status res) && (status res <=? 299).

(** [{ ok: true, data }] or [{ ok: false, status, statusText, errorText }] *)
Inductive Result (J : Type) :=
  | Ok (data : J)
  | Err (status : Z) (statusText : string) (errorText : option string).
Arguments Ok {J}.
Arguments Err {J}.

(** The promise resolves with a result or, when [fetch] itself throws,
    rejects: the function catches nothing around [fetch]. *)
Inductive Outcome (J : Type) :=
  | Rejects
  | Resolves (r : Result J).
Arguments Rejects {J}.
Arguments Resolves {J}.

(** The network: the answer to the [i]-th request of the call when made with
    a given key, [None] when [fetch] throws. *)
Definition Server (J : Type) : Type := nat -> string -> option (HttpResponse J).

(** [res.status === 401 || res.status === 403 || res.status === 429] *)
Definition key_scoped (s : Z) : bool := (s =? 401) || (s =? 403) || (s =? 429).

(** [res.status >= 500 && res.status < 600] *)
Definition transient (s : Z) : bool := (500 <=? s) && (s <? 600).

(** The inner loop for one key, with [retriesLeft = maxRetriesPerKey -
    attempt]; [trace] lists the keys of the requests made so far.  [None] is
    the [break] that goes on to the next key. *)
Fixpoint tryKey {J} (server : Server J) (apiKey : string) (retriesLeft : nat)
    (trace : list string) : option (Outcome J) * list string :=
  let trace' := (trace ++ [apiKey])%list in
  match server (length trace) apiKey with
  | None => (Some Rejects, trace')
  | Some res =>
      if ok res then
        (Some (Resolves match json res with
                        | Some data => Ok data
                        | None => Err 500 "Failed to parse JSON" None
                        end), trace')
      else if key_scoped (status res) then (None, trace')
      else match retriesLeft with
           | S r => if transient (status res) then tryKey server apiKey r trace'
                    else (Some (Resolves (Err (status res) (statusText res)
                                              (text res))), trace')
           | O => (Some (Resolves (Err (status res) (statusText res)
                                       (text res))), trace')
           end
  end.

(** The outer loop over the keys. *)
Fixpoint overKeys {J} (server : Server J) (keys : list string)
    (maxRetriesPerKey : nat) (trace : list string)
    : Outcome J * list string :=
  match keys with
  | [] => (Resolves (Err 429 "All Moralis API keys exhausted or rate-limited"
                         None), trace)
  | apiKey :: rest =>
      match tryKey server apiKey maxRetriesPerKey trace with
      | (Some outcome, trace') => (outcome, trace')
      | (None, trace') => overKeys server rest maxRetriesPerKey trace'
      end
  end.

(** The body of [fetchMoralisJson] for the keys at hand;
    [options?.maxRetriesPerKey ?? 1], a natural number. *)
Definition fetchWithKeys {J} (server : Server J) (keys : list string)
    (maxRetriesPerKey : option nat) : Outcome J * list string :=
  match keys with
  | [] => (Resolves (Err 500 "No Moralis API keys configured" None), [])
  | _ => overKeys server keys
           (match maxRetriesPerKey with Some m => m | None => 1%nat end) []
  end.

(** [fetchMoralisJson(url, options)]: its outcome and the keys of the
    requests it made, in order. *)
Definition fetchMoralisJson {J} (env : ApiKeys.ServerEnv) (server : Server J)
    (maxRetriesPerKey : option nat) : Outcome J * list string :=
  fetchWithKeys server (ApiKeys.getMoralisApiKeys env) maxRetriesPerKey.

(** *** Vocabulary of the statements *)

(** [options?.maxRetriesPerKey ?? 1] *)
Definition retries (maxRetriesPerKey : option nat) : nat :=
  match maxRetriesPerKey with
  | Some m => m
  | None => 1%nat
  end.

(** Every request of the trace was answered, and not with a 2xx status. *)
Definition all_failed {J} (server : Server J) (trace : list string) : Prop :=
  forall i key, nth_error trace i = Some key ->
    exists res, server i key = Some res /\ ok res = false.

(** Every request of the trace that is followed by another one was answered
    with a failure: a key-scoped one (401, 403, 429), or a 5xx after which
    the next request uses the same key. *)
Definition chained {J} (server : Server J) (trace : list string) : Prop :=
  forall i k k',
    nth_error trace i = Some k -> nth_error trace (S i) = Some k' ->
    exists res, server i k = Some res /\ ok res = false /\
      (key_scoped (status res) = true
       \/ (transient (status res) = true /\ k' = k)).

(** A server that answers every request with the same response. *)
Definition always {J} (res : HttpResponse J) : Server J := fun _ _ => Some res.

Definition plain (s : Z) : HttpResponse nat :=
  {| status := s; statusText := "status"; json := Some 7%nat; text := Some "body" |}.

End Moralis.

(** ** The token request and its error message
       (hooks/use-token-balances.ts, fetchTokens) *)

Module TokenRequest.
Import FetchTokens.

(** [s.includes(needle)] *)
Fixpoint includes_chars (needle l : list ascii) : bool :=
  JSNumber.starts_with needle l
  || match l with
     | [] => false
     | _ :: r => includes_chars needle r
     end.

Definition includes (s needle : string) : bool :=
  includes_chars (JS.chars needle) (JS.chars s).

(** A response of [fetch]; [text] is the body, [inr message] when reading it
    throws an error with that message. *)
Record HttpResponse := {
  status : Z;
  statusText : string;
  text : string + string;
}.

(** [response.ok] *)
Definition ok (res : HttpResponse) : bool :=
  (200 <=? status res) && (status res <=? 299).

(** [fetch] throws an error with a message, or resolves with a response. *)
Inductive FetchOutcome :=
  | Throws (message : string)
  | Responds (res : HttpResponse).

(** The network: what the [i]-th request of the call meets when it carries
    the given key. *)
Definition Server : Type := nat -> string -> FetchOutcome.

Definition CONFIG_ENV : string :=
  "Moralis API keys are not configured. Please set NEXT_PUBLIC_MORALIS_PRIMARY_API_KEY or NEXT_PUBLIC_MORALIS_FALLBACK_API_KEY in your environment variables.".
Definition CONFIG_LOCAL : string :=
  "Moralis API keys are not configured. Please set NEXT_PUBLIC_MORALIS_PRIMARY_API_KEY or NEXT_PUBLIC_MORALIS_FALLBACK_API_KEY in your .env.local file.".
Definition NETWORK_FAILED : string :=
  "Network connection failed. Please check your internet connection and try again.".

(** The inner [try]: the request with the primary key.  The result is the
    message of the error thrown or the response, with the keys sent. *)
Definition primaryRequest (keys : Keys) (server : Server)
    : (string + HttpResponse) * list string :=
  if negb (JS.truthy (PRIMARY_API_KEY keys))
  then (inl "Primary API key not configured", [])
  else match server 0%nat (PRIMARY_API_KEY keys) with
       | Throws message => (inl message, [PRIMARY_API_KEY keys])
       | Responds res =>
           if negb (ok res)
           then (inl ("Primary API failed: " ++ Decimal.toString10 (status res)),
                 [PRIMARY_API_KEY keys])
           else (inr res, [PRIMARY_API_KEY keys])
       end.

(** The [try] inside its [catch]: the request with the fallback key, the
    [i]-th of the call. *)
Definition fallbackRequest (keys : Keys) (server : Server) (i : nat)
    : (string + HttpResponse) * list string :=
  if negb (JS.truthy (FALLBACK_API_KEY keys))
  then (inl "Fallback API key not configured", [])
  else match server i (FALLBACK_API_KEY keys) with
       | Throws message => (inl message, [FALLBACK_API_KEY keys])
       | Responds res =>
           if negb (ok res)
           then match text res with
                | inr message => (inl message, [FALLBACK_API_KEY keys])
                | inl _ =>
                    (inl ("Fallback API request failed: "
                          ++ Decimal.toString10 (status res) ++ " "
                          ++ statusText res),
                     [FALLBACK_API_KEY keys])
                end
           else (inr res, [FALLBACK_API_KEY keys])
       end.

(** [catch (fallbackError)]: the message of the error it throws. *)
Definition rethrown (errorMessage : string) : string :=
  if includes errorMessage "not configured" || includes errorMessage "API key"
  then CONFIG_LOCAL
  else if includes errorMessage "ERR_CONNECTION_CLOSED"
          || includes errorMessage "Failed to fetch"
  then NETWORK_FAILED
  else errorMessage.

(** From the key check to [response] and [currentApiKey]: the message of the
    error thrown, or the response with the key that obtained it; and the
    keys of the requests made, in order. *)
Definition request (keys : Keys) (server : Server)
    : (string + HttpResponse * string) * list string :=
  if negb (JS.truthy (PRIMARY_API_KEY keys))
     && negb (JS.truthy (FALLBACK_API_KEY keys))
  then (inl CONFIG_ENV, [])
  else match primaryRequest keys server with
       | (inr response, sent) => (inr (response, PRIMARY_API_KEY keys), sent)
       | (inl _, sent) =>
           match fallbackRequest keys server (length sent) with
           | (inr response, sent') =>
               (inr (response, FALLBACK_API_KEY keys), (sent ++ sent')%list)
           | (inl errorMessage, sent') =>
               (inl (rethrown errorMessage), (sent ++ sent')%list)
           end
       end.

Definition USER_DEFAULT : string :=
  "Failed to fetch token information. Please check your connection.".
Definition USER_NETWORK : string :=
  "Network connection failed. Please check your internet connection and network settings.".
Definition USER_INVALID_KEY : string :=
  "API key is invalid or expired. Please check your API key configuration.".
Definition USER_RATE_LIMIT : string :=
  "API rate limit exceeded. Please try again later.".

(** The outer [catch]: the message shown for an error with the given
    message. *)
Definition userFriendlyError (errorMessage : string) : string :=
  if includes errorMessage "not configured" || includes errorMessage "API key"
  then CONFIG_LOCAL
  else if includes errorMessage "API"
  then "API request failed: " ++ errorMessage
  else if includes errorMessage "network" || includes errorMessage "fetch"
          || includes errorMessage "ERR_CONNECTION_CLOSED"
  then USER_NETWORK
  else if includes errorMessage "401" || includes errorMessage "403"
  then USER_INVALID_KEY
  else if includes errorMessage "429"
  then USER_RATE_LIMIT
  else USER_DEFAULT.

(** How the call stands once the request is over: it returned at once
    (no address), it holds a response and goes on to read its body, or it
    has failed, with [setError(userFriendlyError)], [setApiStatus('failed')]
    and [setTokens([])]. *)
Inductive Stage :=
  | Returned
  | Received (response : HttpResponse) (currentApiKey : string)
  | Failed (error : string).

Definition errorMessage (e : DiscoveryError) : string :=
  match e with
  | UnsupportedChain chainId => "Unsupported chain: " ++ Decimal.toString10 chainId
  | KeysNotConfigured => CONFIG_ENV
  end.

(** [fetchTokens()] up to [await response.json()].  The wait for the
    registry in front of the request, which only delays it, is left out. *)
Definition fetchTokens (MONAD : option Z) (keys : Keys) (address : string)
    (chainId : Z) (server : Server) : Stage * list string :=
  match FetchTokens.fetchTokens MONAD keys address chainId with
  | Return => (Returned, [])
  | Throw e => (Failed (userFriendlyError (errorMessage e)), [])
  | Fetch _ _ =>
      match request keys server with
      | (inr (response, currentApiKey), sent) =>
          (Received response currentApiKey, sent)
      | (inl message, sent) => (Failed (userFriendlyError message), sent)
      end
  end.

(** *** Vocabulary of the statements *)

(** The request did not bring a usable response: [fetch] threw, or the
    status is outside 200-299. *)
Definition fails (o : FetchOutcome) : Prop :=
  match o with
  | Throws _ => True
  | Responds res => ok res = false
  end.

(** A response with the given status, status text and a readable body. *)
Definition answer (s : Z) (st : string) : HttpResponse :=
  {| status := s; statusText := st; text := inl "{}" |}.

End TokenRequest.

(** ** The order of the discovered tokens
       (hooks/use-token-balances.ts, the sort of fetchTokens) *)

Module TokenOrder.
Import JSNumber.

(** [x - y] on numbers, before rounding.  The difference of two doubles is
    rounded to a double of the same sign (it is zero only when they are
    equal, and what overflows keeps its sign), and the sort reads the sign
    only. *)
Definition sub (x y : number) : number :=
  match x, y with
  | NaN, _ | _, NaN => NaN
  | Num a, Num b => Num (a - b)
  | Num _, Infinity => NegInfinity
  | Num _, NegInfinity => Infinity
  | Infinity, Infinity => NaN
  | Infinity, _ => Infinity
  | NegInfinity, NegInfinity => NaN
  | NegInfinity, _ => NegInfinity
  end.

(** What [sort] reads from the comparator's result (SortCompare): NaN
    counts as +0, and of the rest only the sign is used. *)
Definition sortValue (v : number) : Q :=
  match v with
  | NaN => 0
  | Num q => q
  | Infinity => 1
  | NegInfinity => -1
  end.

(** [parseFloat(t.balance || '0')] *)
Definition balanceNumber (t : Builder.Token) : number :=
  parseFloat (JS.or_else (Builder.balance t) "0").

(** The comparator of the sort; [a.quote || 0] is the quote itself, a finite
    number. *)
Definition compareFn (a b : Builder.Token) : Q :=
  let valueA := Builder.quote a in
  let valueB := Builder.quote b in
  if JSArray.Qpos_bool valueA && JSArray.Qpos_bool valueB
  then (valueB - valueA)%Q
  else if JSArray.Qpos_bool valueA && Qeq_bool valueB 0 then (-1)%Q
  else if Qeq_bool valueA 0 && JSArray.Qpos_bool valueB then 1%Q
  else sortValue (sub (balanceNumber b) (balanceNumber a)).

(** [tokens.sort((a, b) => ...)] *)
Definition sortTokens (tokens : list Builder.Token) : list Builder.Token :=
  JSArray.sort compareFn tokens.

(** *** Vocabulary of the statements *)

(** [x <= y] on numbers, false when one of them is NaN. *)
Definition num_le (x y : number) : Prop :=
  match x, y with
  | NaN, _ | _, NaN => False
  | NegInfinity, _ => True
  | _, Infinity => True
  | Num a, Num b => (a <= b)%Q
  | _, _ => False
  end.

Definition priced (t : Builder.Token) : Prop := (0 < Builder.quote t)%Q.
Definition unpriced (t : Builder.Token) : Prop := (Builder.quote t == 0)%Q.

(** [a] may stand before [b]: priced tokens by descending value, then the
    unpriced ones by descending balance. *)
Definition before (a b : Builder.Token) : Prop :=
  (priced a /\ priced b /\ (Builder.quote b <= Builder.quote a)%Q)
  \/ (priced a /\ unpriced b)
  \/ (unpriced a /\ unpriced b /\ num_le (balanceNumber b) (balanceNumber a)).

(** What the filter in front of the sort leaves: no negative value, and a
    balance that reads as a number. *)
Definition sortable (t : Builder.Token) : Prop :=
  (0 <= Builder.quote t)%Q /\ balanceNumber t <> NaN.

End TokenOrder.

(** ** The cache in localStorage
       (hooks/use-token-balances.ts, getCacheKey to invalidateTokenBalanceCache) *)

Module LocalCache.

Definition CACHE_PREFIX : string := "asset_cache_".

(** [60 * 60 * 1000] *)
Definition CACHE_DURATION : Z := 60 * 60 * 1000.

(** [`${CACHE_PREFIX}erc20_${address.toLowerCase()}_${chainId}`] *)
Definition getCacheKey (address : string) (chainId : Z) : string :=
  CACHE_PREFIX ++ "erc20_" ++ JS.toLowerCase address ++ "_"
  ++ Decimal.toString10 chainId.

(** [s.startsWith(prefix)] *)
Definition startsWith (s prefix : string) : bool :=
  JSNumber.starts_with (JS.chars prefix) (JS.chars s).

(** [localStorage]: strings under string keys. *)
Abbreviation Storage := (gmap string string).

(** [keys.forEach(k => localStorage.removeItem(k))] *)
Definition removeAll (keys : list string) (s : Storage) : Storage :=
  fold_left (fun acc k => delete k acc) keys s.

Section Cache.
Context {T V : Type}.

(** [JSON.stringify({ data, timestamp })]; it does not throw on a token
    list. *)
Variable stringify : T -> Z -> string.

(** [JSON.parse(cached)], together with the number that
    [now - parsed.timestamp] takes [parsed.timestamp] for: [None] when
    parsing or reading the property throws, a timestamp [None] when that
    number is NaN.  Timestamps are integers. *)
Variable parse : string -> option (V * option Z).

(** The browser: whether [setItem] stores the value or throws for want of
    space, and the order in which [Object.keys(localStorage)] lists the
    keys. *)
Variable accepts : Storage -> string -> string -> bool.
Variable keysOf : Storage -> list string.

(** [localStorage.setItem(key, value)], [None] when it throws. *)
Definition setItem (s : Storage) (key value : string) : option Storage :=
  if accepts s key value then Some (<[key := value]> s) else None.

(** [getCache(key)] at time [now]: what it returns, [None] for [null], and
    the storage it leaves. *)
Definition getCache (key : string) (now : Z) (s : Storage)
    : option V * Storage :=
  match s !! key with
  | None => (None, s)
  | Some cached =>
      if negb (JS.truthy cached) then (None, s)
      else match parse cached with
           | None => (None, s)
           | Some (parsed, Some timestamp) =>
               if now - timestamp >? CACHE_DURATION
               then (None, delete key s)
               else (Some parsed, s)
           | Some (parsed, None) => (Some parsed, s)
           end
  end.

(** The cache keys [Object.keys(localStorage).filter(k =>
    k.startsWith(CACHE_PREFIX))]. *)
Definition cacheKeys (s : Storage) : list string :=
  List.filter (fun k => startsWith k CACHE_PREFIX) (keysOf s).

(** [setCache(key, data)]; [now] and [retryNow] are the two readings of
    [Date.now()]. *)
Definition setCache (key : string) (data : T) (now retryNow : Z)
    (s : Storage) : Storage :=
  match setItem s key (stringify data now) with
  | Some s' => s'
  | None =>
      let s1 := removeAll (JSArray.slice0 10 (cacheKeys s)) s in
      match setItem s1 key (stringify data retryNow) with
      | Some s2 => s2
      | None => s1
      end
  end.

Definition invalidateTokenBalanceCache (s : Storage) : Storage :=
  removeAll (cacheKeys s) s.

End Cache.

(** *** A sample browser and encoding *)

(** Keys in the order of the map's list. *)
Definition listedKeys (s : Storage) : list string := (map_to_list s).*1.

(** Entries without data, written as the decimal timestamp. *)
Definition stamp (_ : unit) (timestamp : Z) : string :=
  Decimal.toString10 timestamp.
Definition readStamp (cached : string) : option (Z * option Z) :=
  option_map (fun n => (n, Some n)) (Decimal.parseInt cached).

End LocalCache.

(** * Properties *)

(** ** The modelled library functions on known values *)

Example keccak_empty :
  Keccak.keccak256 [] =
  map N.of_nat
    [197; 210; 70; 1; 134; 247; 35; 60; 146; 126; 125; 178; 220; 199; 3; 192;
     229; 0; 182; 83; 202; 130; 39; 59; 123; 250; 216; 4; 93; 133; 164; 112]%nat.
Proof. vm_compute. reflexivity. Qed.

Example checksum_eip55 :
  Viem.checksumAddress "0x5aaeb6053f3e94c9b9a09f33669435e7ef1beaed"
  = "0x5aAeb6053F3E94C9b9A09f33669435E7Ef1BeAed"
  /\ Viem.isAddress "0x5aAeb6053F3E94C9b9A09f33669435E7Ef1BeAed" = true
  /\ Viem.isAddress "0x5AAeb6053F3E94C9b9A09f33669435E7Ef1BeAed" = false
  /\ Viem.isAddress "0xfB6916095ca1df60bB79Ce92cE3Ea74c37c5d359" = true
  /\ Viem.isAddress "0x0000000000000000000000000000000000000000" = true
  /\ Viem.isAddress "0x00000000000000000000000000000000000000" = false.
Proof. vm_compute. repeat split. Qed.

Example BigInt_examples :
  JS.BigInt "1000" = Some 1000 /\ JS.BigInt " 12 " = Some 12
  /\ JS.BigInt "0x10" = Some 16 /\ JS.BigInt "-5" = Some (-5)
  /\ JS.BigInt "" = Some 0 /\ JS.BigInt "1.5" = None
  /\ JS.BigInt "1e3" = None /\ JS.BigInt "-" = None
  /\ JS.toString16 1000 = "3e8" /\ JS.toString16 255 = "ff"
  /\ JS.toString16 16 = "10" /\ JS.toString16 0 = "0".
Proof. vm_compute. repeat split. Qed.

(** ** Exceptions *)

Lemma bind_inr {E A B} (m : E + A) (f : A -> E + B) (b : B) :
  bind m f = inr b -> exists a, m = inr a /\ f a = inr b.
Proof. destruct m as [e|a]; simpl; [discriminate | eauto]. Qed.

Lemma bind_inl {E A B} (m : E + A) (f : A -> E + B) (e : E) :
  bind m f = inl e -> m = inl e \/ exists a, m = inr a /\ f a = inl e.
Proof. destruct m as [e'|a]; simpl; [intros [= ->]; auto | eauto]. Qed.

Lemma filter_length_perm {A} (P : A -> bool) (l l' : list A) :
  Permutation l l' -> length (List.filter P l) = length (List.filter P l').
Proof.
  induction 1 as [|x l l' _ IH|x y l|l l' l'' _ IH1 _ IH2]; simpl.
  - reflexivity.
  - destruct (P x); simpl; now rewrite IH.
  - destruct (P x), (P y); reflexivity.
  - now rewrite IH1.
Qed.

(** ** Sorting by a key, descending *)

Section SortByKey.
Context {A : Type} (key : A -> Q).

Local Abbreviation desc := (JSArray.desc key).
Local Abbreviation byKey := (JSArray.byKey key).

Lemma Qpos_bool_true q : JSArray.Qpos_bool q = true <-> (0 < q)%Q.
Proof.
  unfold JSArray.Qpos_bool. rewrite negb_true_iff.
  split.
  - intros H. apply Qnot_le_lt. intros Hle.
    apply Qle_bool_iff in Hle. congruence.
  - intros H. destruct (Qle_bool q 0) eqn:E; [|reflexivity].
    apply Qle_bool_iff in E. exfalso. exact (Qlt_not_le _ _ H E).
Qed.

Lemma byKey_pos a b : JSArray.Qpos_bool (byKey a b) = true -> (key a < key b)%Q.
Proof.
  rewrite Qpos_bool_true. unfold byKey, Qminus. intros H.
  exact (proj2 (Qlt_minus_iff _ _) H).
Qed.

Lemma byKey_nonpos a b : JSArray.Qpos_bool (byKey a b) = false -> (key b <= key a)%Q.
Proof.
  intros H. apply Qnot_lt_le. intros Hlt.
  assert (JSArray.Qpos_bool (byKey a b) = true) as H'; [|congruence].
  apply Qpos_bool_true. unfold byKey, Qminus.
  exact (proj1 (Qlt_minus_iff _ _) Hlt).
Qed.

Lemma insert_perm x l : Permutation (JSArray.insert byKey x l) (x :: l).
Proof.
  induction l as [|y r IH]; simpl; [reflexivity|].
  destruct (JSArray.Qpos_bool (byKey x y)); [|reflexivity].
  rewrite IH. apply perm_swap.
Qed.

Lemma sort_perm l : Permutation (JSArray.sort byKey l) l.
Proof.
  induction l as [|x r IH]; simpl; [reflexivity|].
  rewrite insert_perm. now apply perm_skip.
Qed.

Lemma sort_length l : length (JSArray.sort byKey l) = length l.
Proof. apply Permutation_length, sort_perm. Qed.

Lemma sort_In x l : In x (JSArray.sort byKey l) <-> In x l.
Proof.
  split; apply Permutation_in; [apply sort_perm | symmetry; apply sort_perm].
Qed.

Lemma insert_sorted x l :
  StronglySorted desc l -> StronglySorted desc (JSArray.insert byKey x l).
Proof.
  induction 1 as [|y r Hr IH Hy]; simpl.
  - repeat constructor.
  - destruct (JSArray.Qpos_bool (byKey x y)) eqn:E.
    + constructor; [exact IH|].
      apply List.Forall_forall. intros z Hz.
      apply (Permutation_in _ (insert_perm x r)) in Hz. destruct Hz as [<-|Hz].
      * apply Qlt_le_weak, byKey_pos, E.
      * rewrite List.Forall_forall in Hy. now apply Hy.
    + apply byKey_nonpos in E.
      constructor; [now constructor|].
      constructor; [exact E|].
      apply List.Forall_forall. intros z Hz. rewrite List.Forall_forall in Hy.
      unfold desc. eapply Qle_trans; [apply (Hy z Hz) | exact E].
Qed.

Lemma sort_sorted l : StronglySorted desc (JSArray.sort byKey l).
Proof.
  induction l as [|x r IH]; simpl; [constructor | now apply insert_sorted].
Qed.

(** In a descending list every element of a prefix is at least as large as
    every element behind it. *)
Lemma sorted_prefix_dominates n l :
  StronglySorted desc l ->
  forall c r, In c (firstn n l) -> In r (skipn n l) -> desc c r.
Proof.
  intros Hs. revert n. induction Hs as [|y t Ht IH Hy]; intros n c r.
  - destruct n; simpl; contradiction.
  - destruct n as [|n]; simpl; [contradiction|].
    intros [<-|Hc] Hr.
    + rewrite List.Forall_forall in Hy. apply Hy.
      rewrite <- (firstn_skipn n t). apply in_or_app. now right.
    + now apply (IH n).
Qed.

(** Stability: elements with the same key keep their order.  [sort] moves
    an element only past strictly larger ones. *)
Lemma insert_filter_comm (P : A -> bool) x l :
  (forall a b, P a = true -> P b = true -> (key a == key b)%Q) ->
  List.filter P (JSArray.insert byKey x l) = List.filter P (x :: l).
Proof.
  intros Heq. induction l as [|y r IH]; [reflexivity|].
  simpl. destruct (JSArray.Qpos_bool (byKey x y)) eqn:E; [|reflexivity].
  simpl. rewrite IH. simpl.
  destruct (P x) eqn:Px, (P y) eqn:Py; try reflexivity.
  apply byKey_pos in E. rewrite (Heq x y Px Py) in E.
  exfalso. exact (Qlt_irrefl _ E).
Qed.

Lemma sort_stable (P : A -> bool) l :
  (forall a b, P a = true -> P b = true -> (key a == key b)%Q) ->
  List.filter P (JSArray.sort byKey l) = List.filter P l.
Proof.
  intros Heq. induction l as [|x r IH]; [reflexivity|].
  simpl JSArray.sort. rewrite insert_filter_comm by exact Heq.
  simpl. now rewrite IH.
Qed.
Lemma byKey_lt a b : (key a < key b)%Q -> JSArray.Qpos_bool (byKey a b) = true.
Proof.
  intros H. apply Qpos_bool_true. unfold byKey, Qminus.
  exact (proj1 (Qlt_minus_iff _ _) H).
Qed.

(** An element stops in front of the first one that is worth no more. *)
Lemma insert_app_stop y x a b :
  JSArray.Qpos_bool (byKey y x) = false ->
  JSArray.insert byKey y (a ++ x :: b)
  = (JSArray.insert byKey y a ++ x :: b)%list.
Proof.
  intros H. induction a as [|z a IH]; simpl.
  - now rewrite H.
  - destruct (JSArray.Qpos_bool (byKey y z)); [now rewrite IH | reflexivity].
Qed.

(** It passes every element worth more. *)
Lemma insert_app_pass y a r :
  Forall (fun z => (key y < key z)%Q) a ->
  JSArray.insert byKey y (a ++ r) = (a ++ JSArray.insert byKey y r)%list.
Proof.
  induction 1 as [|z a Hz Ha IH]; simpl; [reflexivity|].
  now rewrite (byKey_lt _ _ Hz), IH.
Qed.

(** Where the sort puts the last element [x] of an array: behind the
    elements worth at least as much (the sort is stable), in front of those
    worth less. *)
Lemma sort_snoc_split l x :
  exists a b,
    JSArray.sort byKey (l ++ [x]) = (a ++ x :: b)%list /\
    Forall (fun v => (key x <= key v)%Q) a /\
    Forall (fun v => (key v < key x)%Q) b /\
    Permutation (a ++ b) l /\
    length a = length (List.filter (fun v => Qle_bool (key x) (key v)) l).
Proof.
  assert (exists a b,
            JSArray.sort byKey (l ++ [x]) = (a ++ x :: b)%list /\
            Forall (fun v => (key x <= key v)%Q) a /\
            Forall (fun v => (key v < key x)%Q) b /\
            Permutation (a ++ b) l) as (a & b & Hs & Ha & Hb & Hp).
  { induction l as [|y l (a & b & Hs & Ha & Hb & Hp)].
    - exists [], []. repeat split; constructor.
    - simpl. fold (JSArray.sort byKey (l ++ [x])). rewrite Hs.
      destruct (JSArray.Qpos_bool (byKey y x)) eqn:E.
      + exists a, (JSArray.insert byKey y b). apply byKey_pos in E.
        rewrite insert_app_pass.
        2:{ eapply List.Forall_impl; [|exact Ha]. cbv beta. intros v Hv.
            eapply Qlt_le_trans; [exact E | exact Hv]. }
        simpl. rewrite (byKey_lt _ _ E).
        repeat split; [exact Ha | |].
        * apply (Permutation_Forall (Permutation_sym (insert_perm y b))).
          now constructor.
        * rewrite insert_perm. symmetry. apply Permutation_cons_app.
          now symmetry.
      + exists (JSArray.insert byKey y a), b.
        rewrite (insert_app_stop _ _ _ _ E). apply byKey_nonpos in E.
        repeat split; [| exact Hb |].
        * apply (Permutation_Forall (Permutation_sym (insert_perm y a))).
          now constructor.
        * rewrite insert_perm. simpl. now apply perm_skip. }
  exists a, b. repeat split; try assumption.
  rewrite <- (filter_length_perm _ _ _ Hp), List.filter_app, length_app.
  assert (List.filter (fun v => Qle_bool (key x) (key v)) a = a) as ->.
  { clear -Ha. induction Ha as [|v a Hv _ IH]; simpl; [reflexivity|].
    apply Qle_bool_iff in Hv. now rewrite Hv, IH. }
  assert (List.filter (fun v => Qle_bool (key x) (key v)) b = []) as ->.
  { clear -Hb. induction Hb as [|v b Hv _ IH]; simpl; [reflexivity|].
    destruct (Qle_bool (key x) (key v)) eqn:E; [|exact IH].
    apply Qle_bool_iff in E. exfalso. exact (Qlt_not_le _ _ Hv E). }
  simpl. lia.
Qed.
End SortByKey.

Lemma In_firstn {A} (n : nat) (l : list A) (x : A) :
  In x (firstn n l) -> In x l.
Proof.
  intros H. rewrite <- (firstn_skipn n l). apply in_or_app. now left.
Qed.

(** ** The transfer-call builder, step by step *)

Section BuilderSteps.
Import Builder.

Lemma balanceOf_amount t b : balanceOf t = inr b -> amount t = b.
Proof.
  unfold balanceOf, amount.
  destruct (JS.BigInt _); simpl; [intros [= ->]; reflexivity | discriminate].
Qed.

Lemma eligible_balanceOf t :
  eligible t = true ->
  balanceOf t = inr (amount t) /\ 0 < amount t /\ native_token t = false.
Proof.
  unfold eligible, balanceOf, amount.
  destruct (JS.BigInt _) as [b|]; [|discriminate].
  rewrite andb_true_iff, negb_true_iff, Z.ltb_lt. intros [? ?]. auto.
Qed.

Lemma filterERC20_spec tokens l :
  filterERC20 tokens = inr l -> l = List.filter eligible tokens.
Proof.
  revert l. induction tokens as [|t r IH]; simpl; intros l H.
  - now injection H as <-.
  - apply bind_inr in H as (b & Hb & H).
    apply bind_inr in H as (l' & Hl' & H).
    injection H as <-. rewrite (IH l' Hl').
    unfold eligible. unfold balanceOf in Hb.
    destruct (JS.BigInt _); [|discriminate]. now injection Hb as ->.
Qed.

Lemma allERC20Tokens_spec tokens sel :
  allERC20Tokens tokens = inr sel ->
  sel = firstn 20 (JSArray.sort byQuote (List.filter eligible tokens)).
Proof.
  unfold allERC20Tokens. intros H.
  apply bind_inr in H as (l & Hl & H). injection H as <-.
  now rewrite (filterERC20_spec _ _ Hl).
Qed.

Lemma selected_eligible tokens sel t :
  allERC20Tokens tokens = inr sel -> In t sel ->
  eligible t = true /\ In t tokens.
Proof.
  intros H Ht. rewrite (allERC20Tokens_spec _ _ H) in Ht.
  apply In_firstn in Ht.
  apply (proj1 (sort_In quote _ _)) in Ht. apply List.filter_In in Ht. tauto.
Qed.

Lemma formattedAmount_spec t : formattedAmount t = inr tt <-> formattable t.
Proof.
  unfold formattedAmount, formattable.
  destruct (Z.leb_spec 0 (contract_decimals t)) as [H0|H0],
           (Z.leb_spec (contract_decimals t) MAX_FRACTION_DIGITS) as [H1|H1];
    simpl; split; intros H; try reflexivity; try discriminate; lia.
Qed.

Lemma formattedAmount_error t e :
  formattedAmount t = inl e -> e = RangeError /\ ~ formattable t.
Proof.
  intros H. split.
  - unfold formattedAmount in H. destruct (_ && _); [discriminate|].
    now injection H as <-.
  - intros Hf. apply formattedAmount_spec in Hf. congruence.
Qed.

Lemma precheckCalls_spec target sel :
  (forall t, In t sel -> eligible t = true) ->
  (forall t, In t sel -> formattable t) ->
  precheckCalls target sel
  = inr (map (fun t => erc20Call target t (amount t)) sel).
Proof.
  induction sel as [|t r IH]; simpl; intros H Hf; [reflexivity|].
  destruct (eligible_balanceOf t) as (Hb & Hpos & _); [apply H; now left|].
  rewrite Hb. simpl. destruct (Z.eqb_spec (amount t) 0); [lia|].
  rewrite (proj2 (formattedAmount_spec t)) by (apply Hf; now left). simpl.
  rewrite IH; [reflexivity | intros; apply H; now right
              | intros; apply Hf; now right].
Qed.

(** When step 2 goes through, every selected token could be formatted. *)
Lemma precheckCalls_inr target sel pre :
  (forall t, In t sel -> eligible t = true) ->
  precheckCalls target sel = inr pre ->
  pre = map (fun t => erc20Call target t (amount t)) sel
  /\ forall t, In t sel -> formattable t.
Proof.
  revert pre. induction sel as [|t r IH]; simpl; intros pre H Hpre.
  - injection Hpre as <-. split; [reflexivity | contradiction].
  - destruct (eligible_balanceOf t) as (Hb & Hpos & _); [apply H; now left|].
    rewrite Hb in Hpre. simpl in Hpre.
    destruct (Z.eqb_spec (amount t) 0); [lia|].
    apply bind_inr in Hpre as ([] & Hfmt & Hpre).
    apply bind_inr in Hpre as (l & Hl & Hpre). injection Hpre as <-.
    destruct (IH l) as [-> Hall]; [intros; apply H; now right | exact Hl|].
    split; [reflexivity|].
    intros t' [<-|Ht']; [now apply formattedAmount_spec | now apply Hall].
Qed.

Lemma precheckLoop_spec f cs : forall i v vc fc,
  precheckLoop f i cs v vc fc
  = ((v ++ succeeded f i cs)%list,
     (vc + length (succeeded f i cs))%nat,
     (fc + length (reverted f i cs))%nat).
Proof.
  induction cs as [|c r IH]; intros i v vc fc; simpl.
  - now rewrite app_nil_r, !Nat.add_0_r.
  - destruct (f i (call c)); rewrite IH; simpl.
    + now rewrite <- app_assoc, Nat.add_succ_r.
    + now rewrite Nat.add_succ_r.
Qed.

Lemma succeeded_reverted_length f cs : forall i,
  (length (succeeded f i cs) + length (reverted f i cs))%nat = length cs.
Proof.
  induction cs as [|c r IH]; intros i; simpl; [reflexivity|].
  destruct (f i (call c)); simpl; rewrite <- (IH (S i)); lia.
Qed.

Lemma succeeded_In f cs : forall i c, In c (succeeded f i cs) -> In c cs.
Proof.
  induction cs as [|c' r IH]; intros i c; simpl; [tauto|].
  destruct (f i (call c')); simpl; intros H.
  - destruct H as [H|H]; [now left | right; now apply (IH (S i))].
  - right. now apply (IH (S i)).
Qed.

Lemma build_trace env tokens target chainId res :
  buildTransferCalls env tokens target chainId = inr res ->
  BuildTrace env tokens target chainId res.
Proof.
  unfold buildTransferCalls.
  destruct (Viem.isAddress target) eqn:Haddr; simpl; [|discriminate].
  destruct (address env) as [a|] eqn:Ha; [|discriminate].
  intros H. apply bind_inr in H as (sel & Hsel & H).
  apply bind_inr in H as (pre & Hpre & H).
  destruct (getPublicClient env chainId) as [f|] eqn:Hf; [|discriminate].
  rewrite precheckLoop_spec in H. simpl in H.
  apply bind_inr in H as (nc & Hnc & H).
  destruct (length _ =? 0)%nat eqn:Hlen; [discriminate|].
  injection H as <-.
  assert (pre = map (fun t => erc20Call target t (amount t)) sel) as Epre.
  { apply (precheckCalls_inr target sel pre); [|exact Hpre].
    intros t Ht. eapply selected_eligible; eauto. }
  subst pre.
  apply Nat.eqb_neq in Hlen.
  apply (Trace _ _ _ _ _ sel f nc); simpl; eauto.
  intros E. rewrite E in Hlen. now apply Hlen.
Qed.
End BuilderSteps.

(** ** The transfer-call builder: what it returns *)

Section BuilderClaims.
Import Builder.

Lemma option_list_length {A} (o : option A) :
  length (option_list o) = 0%nat \/ length (option_list o) = 1%nat.
Proof. destruct o; simpl; auto. Qed.

Lemma finalCalls_length valid native :
  length (finalCalls (allValidCalls valid native))
  = Nat.min 10 (length valid + length (option_list native)).
Proof.
  unfold finalCalls, allValidCalls, JSArray.slice0, maxTransfers.
  rewrite length_map, length_firstn.
  change byTokenQuote with (JSArray.byKey tokenQuote).
  now rewrite sort_length, length_app.
Qed.

Lemma finalCalls_In valid native c :
  In c (finalCalls (allValidCalls valid native)) ->
  exists v, c = call v /\ (In v valid \/ native = Some v).
Proof.
  unfold finalCalls, allValidCalls, JSArray.slice0. intros H.
  apply in_map_iff in H as (v & <- & Hv). exists v. split; [reflexivity|].
  apply In_firstn in Hv.
  change byTokenQuote with (JSArray.byKey tokenQuote) in Hv.
  apply (proj1 (sort_In tokenQuote _ _)) in Hv.
  apply in_app_or in Hv as [Hv|Hv]; [now left|].
  destruct native; simpl in Hv; [|contradiction].
  destruct Hv as [<-|[]]. now right.
Qed.

(** Below the cap nothing is cut off. *)
Lemma finalCalls_all valid native v :
  (length valid + length (option_list native) <= 10)%nat ->
  In v valid \/ native = Some v ->
  In (call v) (finalCalls (allValidCalls valid native)).
Proof.
  unfold finalCalls, allValidCalls, JSArray.slice0, maxTransfers.
  intros Hlen Hv. apply in_map.
  change byTokenQuote with (JSArray.byKey tokenQuote).
  rewrite firstn_all2 by now rewrite sort_length, length_app.
  apply sort_In. apply in_or_app.
  destruct Hv as [Hv| ->]; [now left | right; now left].
Qed.

(** C10.  A successful build reports total = valid + failed, where total
    counts the encoded precheck candidates, valid those whose simulation
    returned, which are exactly the calls merged with the native transfer,
    and failed those whose simulation reverted. *)
Theorem precheck_counts_add_up env tokens target chainId res :
  buildTransferCalls env tokens target chainId = inr res ->
  exists selected client native,
    let pre := map (fun t => erc20Call target t (amount t)) selected in
    allERC20Tokens tokens = inr selected /\
    precheckCalls target selected = inr pre /\
    getPublicClient env chainId = Some client /\
    nativeTransferCall env tokens target chainId = inr native /\
    total (precheckResult res) = length pre /\
    valid (precheckResult res) = length (succeeded client 0 pre) /\
    failed (precheckResult res) = length (reverted client 0 pre) /\
    calls res = finalCalls (allValidCalls (succeeded client 0 pre) native) /\
    total (precheckResult res)
    = (valid (precheckResult res) + failed (precheckResult res))%nat.
Proof.
  intros H. destruct (build_trace _ _ _ _ _ H)
    as [sel f nc pre validCalls _ _ H1 H2 H3 H4 Hc _ Ht Hv Hf].
  exists sel, f, nc. cbv zeta. repeat split; try assumption.
  rewrite Ht, Hv, Hf. symmetry. apply succeeded_reverted_length.
Qed.

Lemma filterERC20_total tokens :
  Forall (fun t => JS.BigInt (JS.or_else (balance t) "0") <> None) tokens ->
  filterERC20 tokens = inr (List.filter eligible tokens).
Proof.
  induction 1 as [|t r Ht Hr IH]; [reflexivity|].
  simpl. unfold balanceOf, eligible.
  destruct (JS.BigInt _) as [b|]; [|now contradiction Ht].
  simpl. rewrite IH. reflexivity.
Qed.

(** C4.  The precheck candidates are min(20, number of non-native tokens
    with a positive balance) many, they are such tokens of highest USD
    value, in descending order; they exist whenever every balance reads as
    an integer.  A successful build reports that many candidates, and its
    batch has min(10, valid + n) calls, n being 1 when a native transfer
    was prepared and 0 otherwise. *)
Theorem candidate_and_batch_sizes env tokens target chainId :
  (Forall (fun t => JS.BigInt (JS.or_else (balance t) "0") <> None) tokens ->
     exists selected, allERC20Tokens tokens = inr selected) /\
  (forall selected, allERC20Tokens tokens = inr selected ->
     length selected = Nat.min 20 (length (List.filter eligible tokens)) /\
     StronglySorted (JSArray.desc quote) selected /\
     exists rest,
       Permutation (selected ++ rest) (List.filter eligible tokens) /\
       forall c r, In c selected -> In r rest -> (quote r <= quote c)%Q) /\
  (forall res, buildTransferCalls env tokens target chainId = inr res ->
     exists selected native,
       allERC20Tokens tokens = inr selected /\
       nativeTransferCall env tokens target chainId = inr native /\
       total (precheckResult res) = length selected /\
       (length (option_list native) = 0
        \/ length (option_list native) = 1)%nat /\
       length (calls res)
       = Nat.min 10 (valid (precheckResult res)
                     + length (option_list native))).
Proof.
  split; [|split].
  - intros Hall. unfold allERC20Tokens.
    rewrite (filterERC20_total _ Hall). simpl. eauto.
  - intros sel H1.
    pose proof (allERC20Tokens_spec _ _ H1) as Hsel.
    set (sorted := JSArray.sort byQuote (List.filter eligible tokens)) in Hsel.
    assert (StronglySorted (JSArray.desc quote) sorted) as Hsorted
      by apply (sort_sorted quote).
    split; [|split].
    + rewrite Hsel, length_firstn. unfold sorted.
      change byQuote with (JSArray.byKey quote). now rewrite sort_length.
    + rewrite <- (firstn_skipn 20 sorted) in Hsorted.
      rewrite Hsel. clear -Hsorted.
      induction (firstn 20 sorted) as [|x l IH]; [constructor|].
      simpl in Hsorted. inversion Hsorted as [|? ? Hl Hx]; subst.
      constructor; [now apply IH|].
      apply List.Forall_forall. intros y Hy.
      rewrite List.Forall_forall in Hx. apply Hx, in_or_app. now left.
    + exists (skipn 20 sorted). split.
      * rewrite Hsel, firstn_skipn. apply (sort_perm quote).
      * intros c r Hc' Hr. rewrite Hsel in Hc'.
        exact (sorted_prefix_dominates quote 20 sorted Hsorted c r Hc' Hr).
  - intros res H. destruct (build_trace _ _ _ _ _ H)
      as [sel f nc pre validCalls _ _ H1 H2 H3 H4 Hc _ Ht Hv Hf].
    exists sel, nc. repeat split; try assumption.
    + rewrite Ht. unfold pre. apply length_map.
    + apply option_list_length.
    + rewrite Hc, Hv. apply finalCalls_length.
Qed.
(** The native step never throws: every reserve in the table is a decimal
    number. *)
Lemma reserve_table chainId s :
  NATIVE_TOKEN_RESERVE chainId = Some s ->
  JS.truthy s = true /\ exists r, parseEther s = inr r /\ 0 < r.
Proof.
  unfold NATIVE_TOKEN_RESERVE.
  repeat (destruct (_ =? _); [intros [= <-]; split; [reflexivity|];
                              eexists; split; [vm_compute; reflexivity | lia] |]).
  discriminate.
Qed.

Lemma nativeTransferCall_configured env tokens target chainId R :
  reserveWei chainId = Some R ->
  nativeTransferCall env tokens target chainId
  = inr (if R <? nativeBalance env
         then Some {| call := {| type := native_transfer; to := target;
                                 value := nativeBalance env - R;
                                 data := None |};
                      tokenQuote := match List.find native_token tokens with
                                    | Some t => quote t
                                    | None => 0%Q
                                    end;
                      token := List.find native_token tokens |}
         else None).
Proof.
  unfold reserveWei, nativeTransferCall.
  destruct (NATIVE_TOKEN_RESERVE chainId) as [s|] eqn:Hs; [|discriminate].
  destruct (reserve_table _ _ Hs) as (-> & r & -> & _).
  intros [= ->]. simpl. now destruct (R <? nativeBalance env).
Qed.

Lemma nativeTransferCall_total env tokens target chainId :
  exists native, nativeTransferCall env tokens target chainId = inr native.
Proof.
  destruct (reserveWei chainId) as [R|] eqn:HR.
  - rewrite (nativeTransferCall_configured _ _ _ _ _ HR). eauto.
  - unfold reserveWei in HR. unfold nativeTransferCall.
    destruct (NATIVE_TOKEN_RESERVE chainId) as [s|] eqn:Hs; [|eauto].
    destruct (reserve_table _ _ Hs) as (_ & r & Hr & _).
    rewrite Hr in HR. discriminate.
Qed.

Lemma erc20Call_not_native target t b : is_native (call (erc20Call target t b)) = false.
Proof. reflexivity. Qed.

(** Whether the batch holds the prepared native transfer: the sort puts it
    behind the valid calls worth at least as much, and the batch is the
    first ten. *)
Lemma native_in_batch validCalls n :
  (forall v, In v validCalls -> type (call v) = erc20_transfer) ->
  type (call n) = native_transfer ->
  (exists c, In c (finalCalls (allValidCalls validCalls (Some n)))
             /\ type c = native_transfer)
  <-> (length (List.filter (fun v => Qle_bool (tokenQuote n) (tokenQuote v))
                 validCalls) < 10)%nat.
Proof.
  intros Herc Hn.
  unfold finalCalls, allValidCalls, JSArray.slice0, maxTransfers.
  simpl option_list. change byTokenQuote with (JSArray.byKey tokenQuote).
  destruct (sort_snoc_split tokenQuote validCalls n)
    as (a & b & -> & _ & _ & Hp & <-).
  rewrite firstn_app. split.
  - intros (c & Hin & Hty).
    destruct (Nat.lt_ge_cases (length a) 10) as [Hlt|Hge]; [exact Hlt|].
    exfalso. replace (10 - length a)%nat with 0%nat in Hin by lia.
    simpl in Hin. rewrite app_nil_r in Hin.
    apply in_map_iff in Hin as (v & <- & Hv). apply In_firstn in Hv.
    rewrite (Herc v) in Hty; [discriminate|].
    apply (Permutation_in _ Hp), in_or_app. now left.
  - intros Hlt. exists (call n). split; [|exact Hn].
    apply in_map, in_or_app. right.
    destruct (10 - length a)%nat eqn:E; [lia|]. now left.
Qed.

(** C3, as the code has it.  On a chain with reserve R a native transfer is
    prepared exactly when the native balance exceeds R, none at a balance of
    exactly R; its value is the balance less R and it is ranked by the
    native asset's USD value.  A native transfer in the returned batch is
    that one.  The batch holds it exactly when the balance exceeds R and
    fewer than ten of the token calls that passed their simulation are worth
    at least as much as the native asset: a balance above R is necessary,
    not sufficient. *)
Theorem native_transfer_above_reserve env tokens target chainId R :
  reserveWei chainId = Some R ->
  exists native,
    nativeTransferCall env tokens target chainId = inr native /\
    (native <> None <-> R < nativeBalance env) /\
    (nativeBalance env = R -> native = None) /\
    (forall n, native = Some n ->
       type (call n) = native_transfer /\ to (call n) = target /\
       data (call n) = None /\ value (call n) = nativeBalance env - R /\
       tokenQuote n = nativeQuote tokens) /\
    (forall res, buildTransferCalls env tokens target chainId = inr res ->
       (forall c, In c (calls res) -> type c = native_transfer ->
          R < nativeBalance env /\ value c = nativeBalance env - R /\
          to c = target) /\
       exists selected client,
         allERC20Tokens tokens = inr selected /\
         getPublicClient env chainId = Some client /\
         let validCalls :=
           succeeded client 0
             (map (fun t => erc20Call target t (amount t)) selected) in
         valid (precheckResult res) = length validCalls /\
         ((exists c, In c (calls res) /\ type c = native_transfer)
          <-> R < nativeBalance env /\
              (length (List.filter
                         (fun v => Qle_bool (nativeQuote tokens) (tokenQuote v))
                         validCalls) < 10)%nat)).
Proof.
  intros HR. pose proof (nativeTransferCall_configured env tokens target _ _ HR) as Hn.
  eexists. split; [exact Hn|].
  assert (forall client sel v,
            In v (succeeded client 0
                    (map (fun t => erc20Call target t (amount t)) sel)) ->
            type (call v) = erc20_transfer) as Herc.
  { intros client sel v Hv.
    apply succeeded_In, in_map_iff in Hv as (t & <- & _). reflexivity. }
  destruct (Z.ltb_spec R (nativeBalance env)) as [Hlt|Hge].
  - split; [split; [intros _; exact Hlt | discriminate]|].
    split; [lia|].
    split; [intros n [= <-]; simpl; auto|].
    intros res Hres. destruct (build_trace _ _ _ _ _ Hres)
      as [sel f nc pre validCalls _ _ H1 H2 H3 H4 Hc _ Ht Hv Hf].
    rewrite Hn in H4. injection H4 as <-. split.
    + intros c Hin Hty. rewrite Hc in Hin.
      apply finalCalls_In in Hin as (v & -> & [Hv'|Hv']).
      * rewrite (Herc f sel v Hv') in Hty. discriminate.
      * injection Hv' as <-. simpl. auto.
    + exists sel, f. split; [exact H1|]. split; [exact H3|]. cbv zeta.
      split; [exact Hv|]. rewrite Hc.
      match goal with
      | |- context [allValidCalls validCalls (Some ?n)] =>
          pose proof (native_in_batch validCalls n (Herc f sel) eq_refl) as Hb
      end.
      split.
      * intros Hex. split; [exact Hlt | exact (proj1 Hb Hex)].
      * intros [_ Hcnt]. exact (proj2 Hb Hcnt).
  - split; [split; [intros Hneq; now contradiction Hneq | lia]|].
    split; [reflexivity|].
    split; [discriminate|].
    intros res Hres. destruct (build_trace _ _ _ _ _ Hres)
      as [sel f nc pre validCalls _ _ H1 H2 H3 H4 Hc _ Ht Hv Hf].
    rewrite Hn in H4. injection H4 as <-.
    assert (forall c, In c (calls res) -> type c = native_transfer -> False)
      as Hnone.
    { intros c Hin Hty. rewrite Hc in Hin.
      apply finalCalls_In in Hin as (v & -> & [Hv'|Hv']); [|discriminate].
      rewrite (Herc f sel v Hv') in Hty. discriminate. }
    split; [intros c Hin Hty; now destruct (Hnone c Hin Hty)|].
    exists sel, f. split; [exact H1|]. split; [exact H3|]. cbv zeta.
    split; [exact Hv|]. split.
    + intros (c & Hin & Hty). now destruct (Hnone c Hin Hty).
    + intros [Hlt _]. lia.
Qed.

(** *** Validation of the destination *)

Lemma balanceOf_error t e : balanceOf t = inl e -> e = SyntaxError.
Proof.
  unfold balanceOf. destruct (JS.BigInt _); [discriminate|].
  now intros [= <-].
Qed.

Lemma filterERC20_error tokens e : filterERC20 tokens = inl e -> e = SyntaxError.
Proof.
  induction tokens as [|t r IH]; simpl; [discriminate|].
  intros H. apply bind_inl in H as [H|(b & _ & H)];
    [now apply balanceOf_error in H|].
  apply bind_inl in H as [H|(l & _ & H)]; [auto | discriminate].
Qed.

Lemma precheckCalls_error target sel e :
  precheckCalls target sel = inl e -> e = SyntaxError \/ e = RangeError.
Proof.
  induction sel as [|t r IH]; simpl; [discriminate|].
  intros H. apply bind_inl in H as [H|(b & _ & H)];
    [left; now apply balanceOf_error in H|].
  destruct (b =? 0); [now apply IH|].
  apply bind_inl in H as [H|(u & _ & H)];
    [right; now apply formattedAmount_error in H|].
  apply bind_inl in H as [H|(l & _ & H)]; [auto | discriminate].
Qed.

Lemma build_errors env tokens target chainId e :
  Viem.isAddress target = true -> address env <> None ->
  buildTransferCalls env tokens target chainId = inl e ->
  e = SyntaxError \/ e = RangeError \/ e = PublicClientNotAvailable
  \/ e = NoValidTransfers.
Proof.
  unfold buildTransferCalls. intros -> Ha. simpl.
  destruct (address env); [clear Ha | now contradiction Ha].
  intros H. apply bind_inl in H as [H|(sel & _ & H)].
  { unfold allERC20Tokens in H.
    apply bind_inl in H as [H|(l & _ & H)]; [|discriminate].
    left. now apply filterERC20_error in H. }
  apply bind_inl in H as [H|(pre & _ & H)].
  { apply precheckCalls_error in H as [H|H]; auto. }
  destruct (getPublicClient env chainId) as [f|]; [|injection H as <-; auto].
  destruct (precheckLoop _ _ _ _ _ _) as [[v vc] fc].
  destruct (nativeTransferCall_total env tokens target chainId) as (nc & Hnc).
  rewrite Hnc in H. simpl in H. destruct (length _ =? 0)%nat; [|discriminate].
  injection H as <-. auto.
Qed.

(** C1, as the code has it.  The build throws "Invalid target address
    format" exactly when the destination is no well-formed address, also
    when no wallet is connected, and "Wallet not connected" exactly when the
    destination is well formed and no account is connected.  With a
    connected wallet no well-formed destination, the zero address and the
    sender's own included, is refused: the build can then only fail on a
    balance that is no integer, on decimals too many to format a candidate's
    amount with, on a missing chain client or on an empty batch. *)
Theorem destination_validation env tokens target chainId :
  (buildTransferCalls env tokens target chainId
   = inl InvalidTargetAddressFormat
   <-> Viem.isAddress target = false) /\
  (buildTransferCalls env tokens target chainId = inl WalletNotConnected
   <-> Viem.isAddress target = true /\ address env = None) /\
  (Viem.isAddress target = true -> address env <> None ->
     forall e, buildTransferCalls env tokens target chainId = inl e ->
       e = SyntaxError \/ e = RangeError \/ e = PublicClientNotAvailable
       \/ e = NoValidTransfers).
Proof.
  assert (Viem.isAddress target = true -> address env = None ->
          buildTransferCalls env tokens target chainId
          = inl WalletNotConnected) as Hnone.
  { intros Hok Ha. unfold buildTransferCalls. now rewrite Hok, Ha. }
  assert (Viem.isAddress target = false ->
          buildTransferCalls env tokens target chainId
          = inl InvalidTargetAddressFormat) as Hbad.
  { intros Hno. unfold buildTransferCalls. now rewrite Hno. }
  split; [|split].
  - split; [|exact Hbad]. intros H.
    destruct (Viem.isAddress target) eqn:Hok; [|reflexivity].
    destruct (address env) as [a|] eqn:Ha.
    + apply build_errors in H; [|assumption|congruence].
      destruct H as [H|[H|[H|H]]]; discriminate.
    + rewrite (Hnone eq_refl eq_refl) in H. discriminate.
  - split.
    + intros H. destruct (Viem.isAddress target) eqn:Hok.
      * split; [reflexivity|]. destruct (address env) as [a|] eqn:Ha;
          [|reflexivity].
        apply build_errors in H; [|assumption|congruence].
        destruct H as [H|[H|[H|H]]]; discriminate.
      * rewrite (Hbad eq_refl) in H. discriminate.
    + intros [Hok Ha]. now apply Hnone.
  - intros Hok Ha e. now apply build_errors.
Qed.
End BuilderClaims.

(** ** Hexadecimal strings *)

Section Hex.
Import Builder.

Lemma chars_str l : JS.chars (JS.str l) = l.
Proof. apply list_ascii_of_string_of_list_ascii. Qed.

Lemma str_chars s : JS.str (JS.chars s) = s.
Proof. apply string_of_list_ascii_of_string. Qed.

Lemma chars_app (a b : string) :
  JS.chars (a ++ b)%string = (JS.chars a ++ JS.chars b)%list.
Proof. induction a as [|c a IH]; simpl; [reflexivity | now rewrite <- IH]. Qed.

Lemma length_chars s : length (JS.chars s) = String.length s.
Proof. induction s as [|c s IH]; simpl; [reflexivity | now rewrite IH]. Qed.

Lemma length_str l : String.length (JS.str l) = length l.
Proof. now rewrite <- length_chars, chars_str. Qed.

Lemma length_append (a b : string) :
  String.length (a ++ b)%string = (String.length a + String.length b)%nat.
Proof. now rewrite <- !length_chars, chars_app, length_app. Qed.

Lemma hex_digit_spec d :
  0 <= d < 16 ->
  lower_hex (JS.hex_digit d) = true /\ JS.hex_val (JS.hex_digit d) = d.
Proof.
  intros Hd.
  assert (d = 0 \/ d = 1 \/ d = 2 \/ d = 3 \/ d = 4 \/ d = 5 \/ d = 6 \/ d = 7
          \/ d = 8 \/ d = 9 \/ d = 10 \/ d = 11 \/ d = 12 \/ d = 13 \/ d = 14
          \/ d = 15) as H by lia.
  repeat (destruct H as [->|H]; [split; reflexivity|]).
  subst d. split; reflexivity.
Qed.

Lemma digits_val_app base ok val l1 l2 a :
  JS.digits_val base ok val (l1 ++ l2) a
  = match JS.digits_val base ok val l1 a with
    | Some a' => JS.digits_val base ok val l2 a'
    | None => None
    end.
Proof.
  revert a. induction l1 as [|c r IH]; intros a; simpl; [reflexivity|].
  destruct (ok c); [apply IH | reflexivity].
Qed.

Lemma digits_val_zeros k l :
  JS.digits_val 16 JS.is_hex JS.hex_val (repeat "0"%char k ++ l) 0
  = JS.digits_val 16 JS.is_hex JS.hex_val l 0.
Proof. induction k as [|k IH]; simpl; [reflexivity | exact IH]. Qed.

(** The digits [hex_pos] puts in front of [acc]. *)
Lemma hex_pos_spec fuel : forall n acc,
  0 <= n < 16 ^ Z.of_nat fuel -> (0 < fuel)%nat ->
  exists ds,
    JS.hex_pos fuel n acc = (ds ++ acc)%list /\ ds <> [] /\
    forallb lower_hex ds = true /\
    (forall a, JS.digits_val 16 JS.is_hex JS.hex_val ds a
               = Some (a * 16 ^ Z.of_nat (length ds) + n)) /\
    (forall k, (0 < k)%nat -> n < 16 ^ Z.of_nat k -> (length ds <= k)%nat).
Proof.
  induction fuel as [|f IH]; intros n acc Hn Hf; [lia|].
  simpl JS.hex_pos. destruct (Z.ltb_spec n 16) as [Hlt|Hge].
  - destruct (hex_digit_spec n) as [Hl Hv]; [lia|].
    exists [JS.hex_digit n]. repeat split.
    + discriminate.
    + simpl. now rewrite Hl.
    + intros a. simpl. unfold lower_hex in Hl.
      apply andb_true_iff in Hl as [-> _]. rewrite Hv. f_equal. lia.
    + intros k Hk _. simpl. lia.
  - assert (0 < f)%nat as Hf'.
    { destruct f; [|lia]. simpl in Hn. lia. }
    assert (16 ^ Z.of_nat (S f) = 16 * 16 ^ Z.of_nat f) as Hpow.
    { rewrite Nat2Z.inj_succ, Z.pow_succ_r; lia. }
    destruct (IH (n / 16) (JS.hex_digit (n mod 16) :: acc)) as
      (ds & Hds & Hne & Hlow & Hval & Hlen); [|exact Hf'|].
    { split; [apply Z.div_pos; lia|].
      apply Z.div_lt_upper_bound; lia. }
    destruct (hex_digit_spec (n mod 16)) as [Hl Hv];
      [apply Z.mod_pos_bound; lia|].
    exists (ds ++ [JS.hex_digit (n mod 16)])%list. repeat split.
    + now rewrite Hds, <- app_assoc.
    + destruct ds; discriminate.
    + rewrite forallb_app, Hlow. simpl. now rewrite Hl.
    + intros a. rewrite digits_val_app, Hval. simpl.
      unfold lower_hex in Hl. apply andb_true_iff in Hl as [-> _].
      rewrite Hv, length_app. simpl.
      rewrite Nat2Z.inj_add, Z.pow_add_r by lia. f_equal.
      change (16 ^ Z.of_nat 1) with 16.
      pose proof (Z.div_mod n 16). lia.
    + intros k Hk Hnk. rewrite length_app. simpl.
      destruct k as [|k]; [lia|].
      destruct k as [|k]; [simpl in Hnk; lia|].
      assert (length ds <= S k)%nat; [|lia].
      apply Hlen; [lia|].
      apply Z.div_lt_upper_bound; [lia|].
      rewrite Nat2Z.inj_succ, Z.pow_succ_r in Hnk; lia.
Qed.

(** The amount word of the call data: it reads back as the balance, in
    lowercase digits, and is 64 characters long for a 256-bit balance. *)
Lemma amountHex_spec b :
  0 < b ->
  let amountHex := JS.padStart 64 "0" (JS.toString16 b) in
  hex_value amountHex = Some b /\
  forallb lower_hex (JS.chars amountHex) = true /\
  (b < 2 ^ 256 -> String.length amountHex = 64%nat).
Proof.
  intros Hb.
  assert (JS.toString16 b = JS.str (JS.hex_pos (Z.to_nat (Z.log2 b) + 1) b []))
    as Hs.
  { unfold JS.toString16.
    destruct (Z.eqb_spec b 0); [lia|]. destruct (Z.ltb_spec b 0); [lia|].
    reflexivity. }
  destruct (hex_pos_spec (Z.to_nat (Z.log2 b) + 1) b []) as
    (ds & Hds & Hne & Hlow & Hval & Hlen); [|lia|].
  { split; [lia|].
    pose proof (Z.log2_nonneg b). pose proof (Z.log2_spec b Hb) as [_ Hlog].
    rewrite Nat2Z.inj_add, Z2Nat.id by lia. change (Z.of_nat 1) with 1.
    eapply Z.lt_le_trans; [exact Hlog|].
    rewrite <- Z.add_1_r. apply Z.pow_le_mono_l. lia. }
  rewrite app_nil_r in Hds. rewrite Hds in Hs.
  cbv zeta. unfold JS.padStart. rewrite Hs, length_str.
  unfold hex_value. rewrite chars_app, !chars_str. repeat split.
  - unfold JS.nonempty_digits.
    destruct (repeat "0"%char (64 - length ds) ++ ds)%list eqn:E.
    { apply app_eq_nil in E as [_ E]. contradiction. }
    rewrite <- E, digits_val_zeros, Hval. f_equal; lia.
  - rewrite forallb_app, Hlow, andb_true_r.
    induction (64 - length ds)%nat; [reflexivity | exact IHn].
  - intros H256. rewrite length_append, !length_str, repeat_length.
    assert (length ds <= 64)%nat; [|lia].
    apply Hlen; [lia|]. change (16 ^ Z.of_nat 64) with (2 ^ 256). exact H256.
Qed.

(** A well-formed address is "0x" and 40 hexadecimal digits. *)
Lemma isAddress_shape target :
  Viem.isAddress target = true ->
  target = ("0x" ++ JS.slice 2 target)%string /\
  String.length (JS.slice 2 target) = 40%nat /\
  forallb JS.is_hex (JS.chars (JS.slice 2 target)) = true.
Proof.
  unfold Viem.isAddress.
  destruct (Viem.addressRegex target) eqn:Hre; [|discriminate]. intros _.
  unfold Viem.addressRegex in Hre. unfold JS.slice.
  rewrite <- (str_chars target) at 1.
  destruct (JS.chars target) as [|c0 l]; [discriminate|].
  destruct c0 as [[] [] [] [] [] [] [] []]; try discriminate.
  destruct l as [|c1 r]; [discriminate|].
  destruct c1 as [[] [] [] [] [] [] [] []]; try discriminate.
  apply andb_true_iff in Hre as [Hlen Hhex]. apply Nat.eqb_eq in Hlen.
  simpl. rewrite chars_str, length_str. auto.
Qed.

Lemma recipient_word target :
  Viem.isAddress target = true ->
  JS.padStart 64 "0" (JS.slice 2 target)
  = (zeros24 ++ JS.slice 2 target)%string.
Proof.
  intros H. apply isAddress_shape in H as (_ & Hlen & _).
  unfold JS.padStart. now rewrite Hlen.
Qed.
End Hex.

(** ** The transfer-call builder: call data *)

Section BuilderEncoding.
Import Builder BuilderTest.

(** C2, as the code has it.  Every token transfer of the batch goes to the
    contract of a non-native token of the list with a positive balance, and
    its data is the selector 0xa9059cbb, 24 zero digits, the 40 hexadecimal
    digits of the destination in the case they were given in, and the
    token's whole balance in lowercase hexadecimal padded with zeros to 64
    digits (exactly 64 for a balance below 2^256); amount 1000 is 3e8 behind
    61 zeros. *)
Theorem transfer_data_encoding :
  (forall env tokens target chainId res c,
     buildTransferCalls env tokens target chainId = inr res ->
     In c (calls res) -> type c = erc20_transfer ->
     exists t,
       let amountHex := JS.padStart 64 "0" (JS.toString16 (amount t)) in
       In t tokens /\ native_token t = false /\
       balanceOf t = inr (amount t) /\ 0 < amount t /\
       to c = contract_address t /\ value c = 0 /\
       data c = Some ("0xa9059cbb" ++ zeros24 ++ JS.slice 2 target
                      ++ amountHex)%string /\
       target = ("0x" ++ JS.slice 2 target)%string /\
       String.length (JS.slice 2 target) = 40%nat /\
       forallb JS.is_hex (JS.chars (JS.slice 2 target)) = true /\
       hex_value amountHex = Some (amount t) /\
       forallb lower_hex (JS.chars amountHex) = true /\
       (amount t < 2 ^ 256 -> String.length amountHex = 64%nat)) /\
  JS.padStart 64 "0" (JS.toString16 1000)
  = "00000000000000000000000000000000000000000000000000000000000003e8".
Proof.
  split; [|reflexivity].
  intros env tokens target chainId res c H Hin Hty.
  destruct (build_trace _ _ _ _ _ H)
    as [sel f nc pre validCalls Haddr _ H1 H2 H3 H4 Hc _ Ht Hv Hf].
  rewrite Hc in Hin. apply finalCalls_In in Hin as (v & -> & [Hv'|Hv']).
  - apply succeeded_In, in_map_iff in Hv' as (t & <- & Hsel).
    destruct (selected_eligible _ _ _ H1 Hsel) as [Hel Htok].
    destruct (eligible_balanceOf _ Hel) as (Hb & Hpos & Hnat).
    destruct (isAddress_shape _ Haddr) as (Hshape & Hlen & Hhex).
    destruct (amountHex_spec _ Hpos) as (Hval & Hlow & H64).
    exists t. cbv zeta. simpl.
    unfold encodeTransfer. rewrite (recipient_word _ Haddr).
    repeat split; auto.
  - subst nc. exfalso.
    destruct (nativeTransferCall_total env tokens target chainId) as (n & Hn).
    unfold nativeTransferCall in H4.
    destruct (NATIVE_TOKEN_RESERVE chainId) as [s|]; [|discriminate].
    destruct (JS.truthy s); [|discriminate].
    destruct (parseEther s) as [e|r]; [discriminate|]. simpl in H4.
    destruct (r <? nativeBalance env); [|discriminate].
    injection H4 as <-. discriminate.
Qed.

Lemma transfer_data_encoding_witness :
  exists res c,
    buildTransferCalls (env0 0) [usdc] friend 1 = inr res /\
    In c (calls res) /\ type c = erc20_transfer /\
    data c = Some ("0xa9059cbb" ++ zeros24 ++ JS.slice 2 friend
                   ++ JS.padStart 64 "0" (JS.toString16 1000))%string /\
    to c = contract_address usdc.
Proof.
  destruct (buildTransferCalls (env0 0) [usdc] friend 1) as [e|res] eqn:E;
    [vm_compute in E; discriminate|].
  assert (exists c, In c (calls res) /\ type c = erc20_transfer) as (c & Hin & Hty).
  { vm_compute in E. injection E as <-. eexists. split; [left|]; reflexivity. }
  exists res, c. split; [reflexivity|]. split; [exact Hin|]. split; [exact Hty|].
  destruct (proj1 transfer_data_encoding _ _ _ _ _ _ E Hin Hty)
    as (t & Ht & _ & _ & _ & Hto & _ & Hdata & _).
  destruct Ht as [<-|[]]. split; [exact Hdata | exact Hto].
Defined.

(** C2 as stated fails: a destination given in checksum case is encoded in
    that case, not in lowercase. *)
Lemma mixed_case_destination_kept :
  Viem.isAddress friendChecksummed = true /\
  buildTransferCalls (env0 0) [usdc] friendChecksummed 1
  = inr {| calls :=
             [{| to := contract_address usdc; value := 0;
                 data := Some "0xa9059cbb000000000000000000000000fB6916095ca1df60bB79Ce92cE3Ea74c37c5d35900000000000000000000000000000000000000000000000000000000000003e8";
                 type := erc20_transfer |}];
           precheckResult := {| total := 1; valid := 1; failed := 0 |} |} /\
  encodeTransfer friendChecksummed 1000
  <> encodeTransfer_lowercase friendChecksummed 1000.
Proof.
  split; [vm_compute; reflexivity|].
  split; [vm_compute; reflexivity|].
  vm_compute. discriminate.
Qed.
End BuilderEncoding.

(** ** The transfer-call builder: examples *)

Section BuilderExamples.
Import Builder BuilderTest.

Lemma precheck_counts_add_up_witness :
  exists res,
    buildTransferCalls (wallet 0 (fun i => (i =? 0)%nat)) [usdc; true_; eth]
      friend 1 = inr res /\
    precheckResult res = {| total := 2; valid := 1; failed := 1 |} /\
    total (precheckResult res)
    = (valid (precheckResult res) + failed (precheckResult res))%nat.
Proof.
  destruct (buildTransferCalls _ _ _ _) as [e|res] eqn:E;
    [vm_compute in E; discriminate|].
  exists res. split; [reflexivity|].
  destruct (precheck_counts_add_up _ _ _ _ _ E)
    as (_ & _ & _ & _ & _ & _ & _ & _ & _ & _ & _ & Hsum).
  split; [|exact Hsum].
  vm_compute in E. now injection E as <-.
Defined.

Lemma candidate_and_batch_sizes_witness :
  exists res,
    buildTransferCalls (env0 5000000000000000) [usdc; true_; eth] friend 1
    = inr res /\
    total (precheckResult res) = 2%nat /\
    length (calls res) = 3%nat.
Proof.
  destruct (buildTransferCalls _ _ _ _) as [e|res] eqn:E;
    [vm_compute in E; discriminate|].
  exists res. split; [reflexivity|].
  destruct (candidate_and_batch_sizes (env0 5000000000000000)
              [usdc; true_; eth] friend 1) as (_ & Hsize & Hbuild).
  destruct (Hbuild res E) as (sel & nc & Hsel & Hnc & Htot & _ & Hcalls).
  destruct (Hsize sel Hsel) as (Hlen & _).
  split.
  - rewrite Htot, Hlen. reflexivity.
  - rewrite Hcalls. vm_compute in Hnc. injection Hnc as <-.
    vm_compute in E. now injection E as <-.
Defined.

Lemma native_transfer_above_reserve_witness :
  reserveWei 1 = Some 2248000000000000 /\
  nativeTransferCall (env0 2248000000000000) [eth] friend 1 = inr None /\
  exists res c,
    buildTransferCalls (env0 2248000000000001) [usdc; true_; eth] friend 1
    = inr res /\
    In c (calls res) /\ type c = native_transfer /\ value c = 1.
Proof.
  split; [reflexivity|]. split.
  - destruct (native_transfer_above_reserve (env0 2248000000000000) [eth]
                friend 1 2248000000000000 eq_refl)
      as (nc & Hnc & _ & Heq & _).
    rewrite Hnc. f_equal. now apply Heq.
  - destruct (native_transfer_above_reserve (env0 2248000000000001)
                [usdc; true_; eth] friend 1 2248000000000000 eq_refl)
      as (nc & _ & _ & _ & _ & Hbuild).
    destruct (buildTransferCalls (env0 2248000000000001) [usdc; true_; eth]
                friend 1) as [e|res] eqn:E; [vm_compute in E; discriminate|].
    destruct (Hbuild res eq_refl)
      as (Hnative & sel & client & Hsel & Hclient & _ & Hiff).
    vm_compute in Hsel. injection Hsel as <-.
    vm_compute in Hclient. injection Hclient as <-.
    destruct (proj2 Hiff) as (c & Hin & Hty).
    { split; [reflexivity|]. vm_compute. lia. }
    exists res, c. split; [reflexivity|]. split; [exact Hin|].
    split; [exact Hty|].
    now destruct (Hnative c Hin Hty) as (_ & -> & _).
Defined.

(** C3 as stated fails: a native balance above the reserve does not put the
    native transfer into the batch.  Here the native asset is worth $9 and
    ten tokens that pass their simulation are worth more: the batch is those
    ten token calls. *)
Lemma native_above_reserve_left_out :
  ~ (forall env tokens target chainId R res,
       reserveWei chainId = Some R ->
       buildTransferCalls env tokens target chainId = inr res ->
       ((exists c, In c (calls res) /\ type c = native_transfer)
        <-> R < nativeBalance env)) /\
  reserveWei 1 = Some 2248000000000000 /\
  2248000000000000 < nativeBalance (env0 5000000000000000) /\
  exists res,
    buildTransferCalls (env0 5000000000000000) (eth :: twentyFive) friend 1
    = inr res /\
    length (calls res) = 10%nat /\
    forall c, In c (calls res) -> type c = erc20_transfer.
Proof.
  assert (exists res,
            buildTransferCalls (env0 5000000000000000) (eth :: twentyFive)
              friend 1 = inr res /\
            length (calls res) = 10%nat /\
            forall c, In c (calls res) -> type c = erc20_transfer)
    as (res & Hres & Hlen & Hall).
  { eexists. split; [vm_compute; reflexivity|]. split; [reflexivity|].
    intros c Hin. simpl in Hin.
    repeat (destruct Hin as [<-|Hin]; [reflexivity|]). contradiction. }
  split; [|split; [reflexivity|split; [reflexivity|]]].
  - intros H.
    destruct (proj2 (H (env0 5000000000000000) (eth :: twentyFive) friend 1
                       2248000000000000 res eq_refl Hres))
      as (c & Hin & Hty); [reflexivity|].
    rewrite (Hall c Hin) in Hty. discriminate.
  - exists res. auto.
Qed.

Lemma destination_validation_witness :
  Viem.isAddress "0x1234" = false /\
  buildTransferCalls (env0 0) [usdc] "0x1234" 1 = inl InvalidTargetAddressFormat /\
  Viem.isAddress zeroAddress = true /\
  buildTransferCalls (env0 0) [usdc] zeroAddress 1
  <> inl InvalidTargetAddressFormat.
Proof.
  destruct (destination_validation (env0 0) [usdc] "0x1234" 1) as (Hbad & _).
  destruct (destination_validation (env0 0) [usdc] zeroAddress 1)
    as (Hok & _).
  split; [reflexivity|]. split; [apply Hbad; reflexivity|].
  split; [reflexivity|]. intros H. apply Hok in H. discriminate H.
Defined.

(** Twenty-five tokens and a native balance above the reserve: twenty
    candidates, all valid, and a batch of ten, the ten most valuable
    tokens. *)
Example twenty_five_tokens :
  exists res,
    buildTransferCalls (env0 5000000000000000) twentyFive friend 1 = inr res /\
    precheckResult res = {| total := 20; valid := 20; failed := 0 |} /\
    length (calls res) = 10%nat /\
    forallb (fun c => negb (is_native c)) (calls res) = true.
Proof. eexists. split; [vm_compute; reflexivity|]. repeat split. Qed.

(** A candidate with more decimals than [toLocaleString] takes fails the
    build, before any simulation; without a balance it is no candidate. *)
Example decimals_out_of_range :
  let odd bal :=
    {| contract_address := "0x833589fcd6edb6e08f4c7c32d4f71b54bda02913";
       contract_name := "T"; contract_ticker_symbol := "T";
       contract_decimals := 101; supports_erc := ["erc20"];
       native_token := false; is_spam := false;
       balance := bal; quote := 1 |} in
  buildTransferCalls (env0 0) [usdc; odd "5"] friend 1 = inl RangeError /\
  exists res, buildTransferCalls (env0 0) [usdc; odd "0"] friend 1 = inr res.
Proof. split; [vm_compute; reflexivity | eexists; vm_compute; reflexivity]. Qed.

(** C1 as stated fails: the builder accepts the zero address and the
    sender's own address as destination and returns a batch. *)
Lemma zero_and_own_destination_accepted :
  ~ (forall env tokens target chainId,
       Viem.isAddress target = false \/ target = zeroAddress
       \/ address env = Some target ->
       exists e, buildTransferCalls env tokens target chainId = inl e) /\
  (exists res, buildTransferCalls (env0 0) [usdc] zeroAddress 1 = inr res) /\
  (address (env0 0) = Some sender /\
   exists res, buildTransferCalls (env0 0) [usdc] sender 1 = inr res).
Proof.
  split; [|split; [|split]].
  - intros H. destruct (H (env0 0) [usdc] zeroAddress 1) as [e He];
      [right; left; reflexivity|].
    vm_compute in He. discriminate.
  - eexists. vm_compute. reflexivity.
  - reflexivity.
  - eexists. vm_compute. reflexivity.
Qed.

(** The form in front of the builder does refuse the sender's own address,
    in any case of letters; it has no check for the zero address. *)
Lemma form_refuses_own_address env tokens target chainId a :
  address env = Some a -> JS.toLowerCase target = JS.toLowerCase a ->
  handleBuildTransfers env tokens target chainId = None.
Proof.
  intros Ha Heq. unfold handleBuildTransfers, validateAddress.
  rewrite Ha, Heq, String.eqb_refl.
  destruct (negb (JS.truthy _)); [reflexivity|].
  now destruct (negb (Viem.isAddress target)).
Qed.

Example form_accepts_zero_address :
  exists res, handleBuildTransfers (env0 0) [usdc] zeroAddress 1 = Some (inr res).
Proof. eexists. vm_compute. reflexivity. Qed.
End BuilderExamples.

(** ** The discovery filter *)

Section DiscoveryFilter.
Import JSNumber Discovery.

Lemma Qgt_bool_iff q c : negb (Qle_bool q c) = true <-> (c < q)%Q.
Proof.
  rewrite negb_true_iff. split.
  - intros H. apply Qnot_le_lt. intros Hle.
    apply Qle_bool_iff in Hle. congruence.
  - intros H. destruct (Qle_bool q c) eqn:E; [|reflexivity].
    apply Qle_bool_iff in E. exfalso. exact (Qlt_not_le _ _ H E).
Qed.


Lemma gt_positive x : gt x 0 = true <-> positive x.
Proof.
  destruct x as [|q| |]; simpl; try (split; [discriminate | contradiction]).
  - apply Qgt_bool_iff.
  - tauto.
Qed.


Lemma truthy_nonempty s : JS.truthy s = true <-> s <> "".
Proof.
  unfold JS.truthy. rewrite negb_true_iff.
  destruct (String.eqb_spec s ""); split; congruence.
Qed.

Lemma eqb_false_iff (a b : string) : negb (String.eqb a b) = true <-> a <> b.
Proof.
  rewrite negb_true_iff. destruct (String.eqb_spec a b); split; congruence.
Qed.


(** [hasBalance] is the sign test alone: the empty string reads as NaN and
    "0" as zero. *)
Lemma hasBalance_positive asset :
  hasBalance asset = true <-> positive (parseFloat (balanceValue asset)).
Proof.
  unfold hasBalance. rewrite !andb_true_iff, gt_positive. split; [tauto|].
  intros Hp. repeat split; [| |exact Hp].
  - apply truthy_nonempty. intros E. rewrite E in Hp. exact Hp.
  - apply eqb_false_iff. intros E. rewrite E in Hp.
    vm_compute in Hp. discriminate.
Qed.





Lemma filteredTokens_splice isV before asset after :
  filteredTokens isV (before ++ asset :: after)
  = (filteredTokens isV before
     ++ (if keep isV asset then [asset] else [])
     ++ filteredTokens isV after)%list.
Proof.
  unfold filteredTokens. rewrite List.filter_app. simpl.
  now destruct (keep isV asset).
Qed.


(** C6.  Of the records handed to the filter, a native one is among those
    returned exactly when its balance is a positive number and it is not
    flagged spam, in its place among the others; neither its USD value nor
    the registry has a say. *)
Theorem native_kept_iff isTokenVerified assets asset :
  isNative asset = true ->
  let kept :=
    positive (parseFloat (balanceValue asset)) /\ is_spam asset = false in
  (In asset (filteredTokens isTokenVerified assets)
   <-> In asset assets /\ kept)
  /\ (forall before after,
        (kept ->
         filteredTokens isTokenVerified (before ++ asset :: after)
         = (filteredTokens isTokenVerified before
            ++ asset :: filteredTokens isTokenVerified after)%list)
        /\ (~ kept ->
            filteredTokens isTokenVerified (before ++ asset :: after)
            = (filteredTokens isTokenVerified before
               ++ filteredTokens isTokenVerified after)%list))
  /\ (forall isTokenVerified' v,
        filteredTokens isTokenVerified' [with_usd_value v asset]
        = map (with_usd_value v) (filteredTokens isTokenVerified [asset])).
Proof.
  intros Hn. cbv zeta.
  assert (keep isTokenVerified asset = true
          <-> positive (parseFloat (balanceValue asset))
              /\ is_spam asset = false) as Hk.
  { unfold keep. rewrite Hn.
    now rewrite andb_true_iff, hasBalance_positive, negb_true_iff. }
  split; [|split].
  - unfold filteredTokens. rewrite List.filter_In, Hk. reflexivity.
  - intros before after. rewrite filteredTokens_splice. split; intros H.
    + apply Hk in H. now rewrite H.
    + destruct (keep isTokenVerified asset); [|reflexivity].
      exfalso. apply H. now apply Hk.
  - intros isV' v. unfold filteredTokens. simpl.
    assert (keep isV' (with_usd_value v asset) = keep isTokenVerified asset)
      as ->.
    { unfold keep.
      change (isNative (with_usd_value v asset)) with (isNative asset).
      rewrite Hn. reflexivity. }
    now destruct (keep isTokenVerified asset).
Qed.


Lemma native_kept_iff_witness :
  let native := sample NATIVE_SENTINEL "7" "not a number" in
  isNative native = true /\
  filteredTokens (fun _ => false)
    [sample "0x833589fcd6edb6e08f4c7c32d4f71b54bda02913" "50000000" "50";
     native]
  = [native].
Proof.
  cbv zeta. split; [reflexivity|].
  apply (proj1 (proj1 (proj2 (native_kept_iff (fun _ => false) []
           (sample NATIVE_SENTINEL "7" "not a number") eq_refl))
           [sample "0x833589fcd6edb6e08f4c7c32d4f71b54bda02913" "50000000" "50"]
           [])).
  split; [vm_compute; reflexivity | reflexivity].
Defined.

Example discovery_scenario :
  map usd_value
    (filteredTokens (fun _ => true)
       [sample "0x833589fcd6edb6e08f4c7c32d4f71b54bda02913" "50000000" "50";
        sample "0x21cfcfc3d8f98fc728f48341d10ad8283f6eb7ab" "1000" "0.005";
        sample "0x4200000000000000000000000000000000000006" "12" "12";
        sample NATIVE_SENTINEL "5000000000000000" "9";
        sample "0x4200000000000000000000000000000000000042" "0" "3"])
  = ["50"; "12"; "9"].
Proof. reflexivity. Qed.
End DiscoveryFilter.

(** ** Versioned caches *)

Section CacheClaims.
Import VersionedCache.
Context {K : Type} `{Countable K} {V : Type}.
Implicit Types (c : VersionedCache.t K V) (k : K) (v : V).

Lemma get_put_same c k v now now' :
  get now' k (put now k v c)
  = if now' - now <? CACHE_TTL then Some v else None.
Proof.
  unfold get, put. simpl. rewrite lookup_insert_eq. simpl.
  now rewrite Z.eqb_refl, andb_true_r.
Qed.

Lemma get_put_other c k k' v now now' :
  k <> k' -> get now' k' (put now k v c) = get now' k' c.
Proof.
  intros Hne. unfold get, put. simpl. now rewrite lookup_insert_ne.
Qed.

Lemma get_invalidate_put c k v now now' :
  get now' k (invalidate (put now k v c)) = None.
Proof.
  unfold get, invalidate, put. simpl. rewrite lookup_insert_eq. simpl.
  destruct (Z.eqb_spec (cacheVersion c) (cacheVersion c + 1)); [lia|].
  now rewrite andb_false_r.
Qed.

(** C8.  A value put under a key is what a get of that key returns while
    less than the TTL has passed and the version counter is unchanged; once
    the counter has been bumped the get misses, whatever the time. *)
Theorem cache_round_trip c k v now now' :
  (now' - now < CACHE_TTL -> get now' k (put now k v c) = Some v) /\
  get now' k (invalidate (put now k v c)) = None.
Proof.
  split; [|apply get_invalidate_put].
  intros Hfresh. rewrite get_put_same.
  destruct (Z.ltb_spec (now' - now) CACHE_TTL); [reflexivity | lia].
Qed.

(** And a get at or past the TTL misses. *)
Lemma get_expired c k v now now' :
  CACHE_TTL <= now' - now -> get now' k (put now k v c) = None.
Proof.
  intros Hold. rewrite get_put_same.
  destruct (Z.ltb_spec (now' - now) CACHE_TTL); [lia | reflexivity].
Qed.
End CacheClaims.

Lemma cache_round_trip_witness :
  119999 - 0 < VersionedCache.CACHE_TTL /\
  VersionedCache.get 119999 (TokenCache.cacheKey BuilderTest.sender "8453")
    (VersionedCache.put 0 (TokenCache.cacheKey BuilderTest.sender "8453")
       [BuilderTest.usdc] VersionedCache.empty)
  = Some [BuilderTest.usdc].
Proof.
  split; [reflexivity|].
  apply (proj1 (cache_round_trip VersionedCache.empty
                  (TokenCache.cacheKey BuilderTest.sender "8453")
                  [BuilderTest.usdc] 0 119999)).
  reflexivity.
Defined.

(** ** The verified-token registry *)

Section RegistryClaims.
Import Registry.

Lemma isTokenVerified_empty h tokenAddress :
  isReady h = true -> verifiedTokens h = ∅ -> apiStatus h <> untested ->
  isTokenVerified h tokenAddress = true.
Proof.
  intros Hr He Hs. unfold isTokenVerified. rewrite Hr, He, size_empty. simpl.
  destruct (apiStatus h); [now contradiction Hs | reflexivity | reflexivity].
Qed.

Lemma isTokenVerified_not_ready h tokenAddress :
  isReady h = false -> isTokenVerified h tokenAddress = false.
Proof. intros Hr. unfold isTokenVerified. now rewrite Hr. Qed.

(** C7.  When the fetch of the verified-token list fails and no non-empty
    set is cached for the chain, the registry comes out ready and
    [isTokenVerified] is true of every address; where the request was
    made, the status is failed and the allow-list empty. *)
Theorem degraded_registry_verifies_all chainId now now' r c h :
  fetch_failed r -> no_previous_set chainId c ->
  let h' := snd (fetchVerifiedTokens chainId now now' r c h) in
  isReady h' = true /\
  (forall tokenAddress, isTokenVerified h' tokenAddress = true) /\
  (VersionedCache.get now chainId c = None ->
     apiStatus h' = failed /\ verifiedTokens h' = ∅).
Proof.
  intros (message & Hr) Hprev. cbv zeta. unfold fetchVerifiedTokens.
  destruct (VersionedCache.get now chainId c) as [[tokens status]|] eqn:Hget.
  - simpl. split; [reflexivity|]. split; [|discriminate].
    intros tokenAddress. apply isTokenVerified_empty; simpl.
    + reflexivity.
    + unfold VersionedCache.get in Hget.
      destruct (VersionedCache.cache c !! chainId) as [e|] eqn:He;
        [|discriminate].
      destruct (_ && _); [|discriminate]. injection Hget as Hd.
      specialize (Hprev e He). apply (f_equal fst) in Hd. simpl in Hd.
      rewrite <- Hd. exact Hprev.
    + destruct status; discriminate.
  - rewrite Hr. simpl.
    assert (match VersionedCache.cache c !! chainId with
            | Some e => if (0 <? size (VersionedCache.data e).1)%nat
                        then (VersionedCache.data e).1 else ∅
            | None => ∅
            end = (∅ : gset string)) as ->.
    { destruct (VersionedCache.cache c !! chainId) as [e|] eqn:He;
        [|reflexivity].
      rewrite (Hprev e He), size_empty. reflexivity. }
    split; [reflexivity|]. split; [|intros _; split; reflexivity].
    intros tokenAddress. now apply isTokenVerified_empty.
Qed.

Lemma degraded_registry_verifies_all_witness :
  let h' := snd (fetchVerifiedTokens 8453 0 5 (Rejected "Failed to fetch")
                   VersionedCache.empty initial) in
  isReady h' = true /\ apiStatus h' = failed /\
  isTokenVerified h' "0x833589fCD6eDb6E08f4c7C32D4f71b54bdA02913" = true.
Proof.
  assert (fetch_failed (Rejected "Failed to fetch")) as Hf
    by (eexists; reflexivity).
  assert (no_previous_set 8453 VersionedCache.empty) as Hp
    by (intros e He; discriminate He).
  destruct (degraded_registry_verifies_all 8453 0 5 _ _ initial Hf Hp)
    as (Hr & Hall & Hst).
  cbv zeta. split; [exact Hr|]. split; [|apply Hall].
  apply Hst. reflexivity.
Defined.

(** Before the first fetch completes nothing is verified, and with a
    non-empty list membership decides. *)
Example registry_not_ready tokenAddress :
  isTokenVerified initial tokenAddress = false.
Proof. reflexivity. Qed.

(** A list fetched at [now'] is served from the cache until the TTL has
    passed or the version is bumped. *)
Lemma registry_served_from_cache chainId now now' now'' tokens r c h h1 :
  VersionedCache.get now chainId c = None ->
  now'' - now' < VersionedCache.CACHE_TTL ->
  let (c', _) := fetchVerifiedTokens chainId now now' (Json (Some tokens)) c h in
  fetchVerifiedTokens chainId now'' now'' r c' h1
  = (c', {| verifiedTokens := verifiedAddresses tokens; loading := false;
            error := None; apiStatus := working; isReady := true |}).
Proof.
  intros Hmiss Hfresh. unfold fetchVerifiedTokens at 1. rewrite Hmiss. simpl.
  unfold fetchVerifiedTokens. rewrite get_put_same.
  destruct (Z.ltb_spec (now'' - now') VersionedCache.CACHE_TTL);
    [reflexivity | lia].
Qed.
End RegistryClaims.

(** ** Chain resolution *)

Section ChainResolution.
Import Config FetchTokens.

Lemma getMoralisChainName_truthy MONAD chainId :
  JS.truthy (getMoralisChainName MONAD chainId) = true.
Proof.
  unfold getMoralisChainName.
  repeat (destruct (_ =? _); [reflexivity|]).
  now destruct (is_monad MONAD chainId).
Qed.

Lemma getMoralisChainName_unsupported MONAD chainId :
  supported MONAD chainId = false ->
  getMoralisChainName MONAD chainId = "base".
Proof.
  unfold supported, getTrustWalletChainName, getMoralisChainName.
  repeat (destruct (_ =? _); [discriminate|]).
  now destruct (is_monad MONAD chainId).
Qed.

(** C9 does not hold of the code.  [getMoralisChainName] answers "base"
    for every chain it does not know, so the test [!chainName] never fires:
    [fetchTokens] throws "Unsupported chain" for no chain id at all, and on
    Sepolia, a chain of the wallet configuration, it requests the wallet's
    tokens on Base. *)
Theorem unsupported_chain_never_thrown :
  (forall MONAD keys address chainId e,
     fetchTokens MONAD keys address chainId = Throw e -> e = KeysNotConfigured) /\
  (forall MONAD keys address chainId,
     supported MONAD chainId = false -> address <> "" ->
     PRIMARY_API_KEY keys <> "" ->
     fetchTokens MONAD keys address chainId
     = Fetch (MORALIS_BASE_URL keys ++ "/wallets/" ++ address
              ++ "/tokens?chain=base&exclude_spam=true&exclude_unverified_contracts=true&limit=100")
             (PRIMARY_API_KEY keys)) /\
  supported (Some 143) SEPOLIA = false /\
  fetchTokens (Some 143) sampleKeys BuilderTest.sender SEPOLIA
  = Fetch "https://deep-index.moralis.io/api/v2.2/wallets/0x5aaeb6053f3e94c9b9a09f33669435e7ef1beaed/tokens?chain=base&exclude_spam=true&exclude_unverified_contracts=true&limit=100"
          "key".
Proof.
  split; [|split; [|split; reflexivity]].
  - intros MONAD keys address chainId e. unfold fetchTokens.
    rewrite getMoralisChainName_truthy. simpl.
    destruct (negb (JS.truthy address)); [discriminate|].
    destruct (_ && _); [now intros [= <-]|].
    destruct (JS.truthy (PRIMARY_API_KEY keys)); discriminate.
  - intros MONAD keys address chainId Hun Ha Hk. unfold fetchTokens.
    rewrite getMoralisChainName_truthy, (getMoralisChainName_unsupported _ _ Hun).
    apply truthy_nonempty in Ha, Hk. rewrite Ha, Hk. reflexivity.
Qed.

Lemma unsupported_chain_never_thrown_witness :
  supported None 999 = false /\
  fetchTokens None sampleKeys BuilderTest.friend 999
  = Fetch (MORALIS_BASE_URL sampleKeys ++ "/wallets/" ++ BuilderTest.friend
           ++ "/tokens?chain=base&exclude_spam=true&exclude_unverified_contracts=true&limit=100")
          "key".
Proof.
  split; [reflexivity|].
  apply (proj1 (proj2 unsupported_chain_never_thrown) None sampleKeys
           BuilderTest.friend 999); [reflexivity | discriminate | discriminate].
Defined.
End ChainResolution.

(** * Further properties of the modelled code *)

(** ** The transfer-call builder: the shape of the batch *)

Section BuilderBatch.
Import Builder.

Lemma filter_firstn_le {A} (P : A -> bool) (n : nat) (l : list A) :
  (length (List.filter P (firstn n l)) <= length (List.filter P l))%nat.
Proof.
  revert n. induction l as [|x l IH]; intros [|n]; simpl; try lia.
  specialize (IH n). destruct (P x); simpl; lia.
Qed.

Lemma filter_none {A} (P : A -> bool) (l : list A) :
  (forall x, In x l -> P x = false) -> List.filter P l = [].
Proof.
  induction l as [|x l IH]; simpl; intros H; [reflexivity|].
  rewrite (H x) by now left. apply IH. intros y Hy. apply H. now right.
Qed.

Lemma firstn_sorted {A} (R : A -> A -> Prop) (n : nat) (l : list A) :
  StronglySorted R l -> StronglySorted R (firstn n l).
Proof.
  intros Hs. revert n. induction Hs as [|x l Hl IH Hx]; intros [|n]; simpl;
    try constructor.
  - apply IH.
  - apply List.Forall_forall. intros y Hy. rewrite List.Forall_forall in Hx.
    apply Hx. now apply In_firstn in Hy.
Qed.

Lemma nativeTransferCall_shape env tokens target chainId n :
  nativeTransferCall env tokens target chainId = inr (Some n) ->
  exists R,
    reserveWei chainId = Some R /\ R < nativeBalance env /\
    call n = {| to := target; value := nativeBalance env - R; data := None;
                type := native_transfer |} /\
    tokenQuote n = match List.find native_token tokens with
                   | Some t => quote t
                   | None => 0%Q
                   end.
Proof.
  intros H. destruct (reserveWei chainId) as [R|] eqn:HR.
  - rewrite (nativeTransferCall_configured _ _ _ _ _ HR) in H.
    destruct (Z.ltb_spec R (nativeBalance env)); [|discriminate].
    injection H as <-. exists R. auto.
  - unfold reserveWei in HR. unfold nativeTransferCall in H.
    destruct (NATIVE_TOKEN_RESERVE chainId) as [s|] eqn:Hs; [|discriminate].
    destruct (reserve_table _ _ Hs) as (_ & r & Hr & _).
    rewrite Hr in HR. discriminate.
Qed.

Lemma valid_call_shape f target sel v i :
  In v (succeeded f i (map (fun t => erc20Call target t (amount t)) sel)) ->
  exists t, In t sel /\ v = erc20Call target t (amount t).
Proof.
  intros H. apply succeeded_In, in_map_iff in H as (t & <- & Ht). eauto.
Qed.

(** A returned batch holds between one and ten calls, after at most twenty
    simulations.  A token call carries no value, has call data and goes to the
    contract of a non-native token of the list with a positive balance; a
    native call carries a positive value, has no data and goes to the
    destination; and there is at most one native call. *)
Theorem batch_shape env tokens target chainId res :
  buildTransferCalls env tokens target chainId = inr res ->
  (1 <= length (calls res) <= 10)%nat /\
  (total (precheckResult res) <= 20)%nat /\
  (forall c, In c (calls res) ->
     (type c = erc20_transfer /\ value c = 0 /\ data c <> None /\
      exists t, In t tokens /\ eligible t = true /\ to c = contract_address t)
     \/ (type c = native_transfer /\ 0 < value c /\ data c = None /\
         to c = target)) /\
  (length (List.filter is_native (calls res)) <= 1)%nat.
Proof.
  intros H. destruct (build_trace _ _ _ _ _ H)
    as [sel f nc pre validCalls _ _ H1 H2 H3 H4 Hc Hne Ht Hv Hf].
  split; [|split; [|split]].
  - split.
    + destruct (calls res); [now contradiction Hne | simpl; lia].
    + rewrite Hc, finalCalls_length. lia.
  - rewrite Ht. unfold pre. rewrite length_map, (allERC20Tokens_spec _ _ H1).
    rewrite length_firstn. lia.
  - intros c Hin. rewrite Hc in Hin.
    apply finalCalls_In in Hin as (v & -> & [Hv'|Hv']).
    + left. apply valid_call_shape in Hv' as (t & Hsel & ->).
      destruct (selected_eligible _ _ _ H1 Hsel) as [Hel Htok].
      simpl. repeat split; [discriminate|]. eauto.
    + right. subst nc.
      apply nativeTransferCall_shape in H4 as (R & _ & Hlt & -> & _).
      simpl. repeat split; lia.
  - rewrite Hc. unfold finalCalls, allValidCalls, JSArray.slice0.
    set (P := fun v => is_native (call v)).
    assert (forall l, List.filter is_native (map call l)
                      = map call (List.filter P l)) as Hmap.
    { induction l as [|x l IH]; simpl; [reflexivity|].
      unfold P at 1. destruct (is_native (call x)); simpl; now rewrite IH. }
    rewrite Hmap, length_map.
    etransitivity; [apply filter_firstn_le|].
    change byTokenQuote with (JSArray.byKey tokenQuote).
    rewrite (filter_length_perm P _ _ (sort_perm tokenQuote _)).
    rewrite List.filter_app, length_app.
    assert (List.filter P validCalls = []) as ->.
    { apply filter_none. intros v Hv'.
      apply valid_call_shape in Hv' as (t & _ & ->). reflexivity. }
    destruct nc as [n|]; simpl; [destruct (P n); simpl; lia | lia].
Qed.

Lemma batch_shape_witness :
  exists res,
    buildTransferCalls (BuilderTest.env0 5000000000000000)
      BuilderTest.twentyFive BuilderTest.friend 1 = inr res /\
    length (calls res) = 10%nat /\ total (precheckResult res) = 20%nat.
Proof.
  destruct (buildTransferCalls _ _ _ _) as [e|res] eqn:E;
    [vm_compute in E; discriminate|].
  exists res. split; [reflexivity|].
  pose proof (batch_shape _ _ _ _ _ E) as (_ & _ & _ & _).
  vm_compute in E. injection E as <-. split; reflexivity.
Defined.

(** The batch is in descending order of value and is a best choice: the
    calls of the batch and the calls cut off are together the valid token
    calls and the native call, and no call cut off is worth more than a call
    of the batch. *)
Theorem batch_by_value env tokens target chainId res :
  buildTransferCalls env tokens target chainId = inr res ->
  exists selected client native kept dropped,
    let validCalls :=
      succeeded client 0
        (map (fun t => erc20Call target t (amount t)) selected) in
    allERC20Tokens tokens = inr selected /\
    getPublicClient env chainId = Some client /\
    nativeTransferCall env tokens target chainId = inr native /\
    calls res = map call kept /\
    Permutation (kept ++ dropped) (validCalls ++ option_list native) /\
    StronglySorted (JSArray.desc tokenQuote) kept /\
    (forall k d, In k kept -> In d dropped -> (tokenQuote d <= tokenQuote k)%Q).
Proof.
  intros H. destruct (build_trace _ _ _ _ _ H)
    as [sel f nc pre validCalls _ _ H1 H2 H3 H4 Hc Hne Ht Hv Hf].
  set (sorted := JSArray.sort (JSArray.byKey tokenQuote)
                   (validCalls ++ option_list nc)).
  assert (StronglySorted (JSArray.desc tokenQuote) sorted) as Hsorted
    by apply (sort_sorted tokenQuote).
  exists sel, f, nc, (firstn 10 sorted), (skipn 10 sorted). cbv zeta.
  repeat split; try assumption.
  - rewrite firstn_skipn. apply (sort_perm tokenQuote).
  - now apply firstn_sorted.
  - intros k d Hk Hd.
    exact (sorted_prefix_dominates tokenQuote 10 sorted Hsorted k d Hk Hd).
Qed.

Lemma batch_by_value_witness :
  exists res,
    buildTransferCalls (BuilderTest.env0 5000000000000000)
      [BuilderTest.true_; BuilderTest.usdc; BuilderTest.eth]
      BuilderTest.friend 1 = inr res /\
    map to (calls res)
    = [contract_address BuilderTest.usdc; contract_address BuilderTest.true_;
       BuilderTest.friend].
Proof.
  destruct (buildTransferCalls _ _ _ _) as [e|res] eqn:E;
    [vm_compute in E; discriminate|].
  exists res. split; [reflexivity|].
  destruct (batch_by_value _ _ _ _ _ E) as (sel & f & nc & kept & _ & _).
  vm_compute in E. injection E as <-. reflexivity.
Defined.
End BuilderBatch.

(** ** The transfer-call builder: when it succeeds *)

Section BuilderOutcome.
Import Builder.

Lemma filterERC20_parsable tokens l :
  filterERC20 tokens = inr l ->
  Forall (fun t => JS.BigInt (JS.or_else (balance t) "0") <> None) tokens.
Proof.
  revert l. induction tokens as [|t r IH]; simpl; intros l H; [constructor|].
  apply bind_inr in H as (b & Hb & H). apply bind_inr in H as (l' & Hl' & _).
  constructor; [|now apply (IH l')].
  unfold balanceOf in Hb. now destruct (JS.BigInt _).
Qed.

Lemma filterERC20_unparsable tokens :
  ~ Forall (fun t => JS.BigInt (JS.or_else (balance t) "0") <> None) tokens ->
  filterERC20 tokens = inl SyntaxError.
Proof.
  intros Hn. destruct (filterERC20 tokens) as [e|l] eqn:E.
  - now rewrite (filterERC20_error _ _ E).
  - now apply filterERC20_parsable in E.
Qed.

Lemma candidates_eligible tokens t :
  In t (firstn 20 (JSArray.sort byQuote (List.filter eligible tokens))) ->
  eligible t = true.
Proof.
  intros Ht. apply In_firstn in Ht.
  apply (proj1 (sort_In quote _ _)) in Ht.
  now apply List.filter_In in Ht.
Qed.

(** With a well-formed destination, a connected wallet, integer balances,
    candidates that can be formatted and a chain client, the build comes
    down to its last test. *)
Lemma build_normal_form env tokens target chainId a client :
  Viem.isAddress target = true -> address env = Some a ->
  Forall (fun t => JS.BigInt (JS.or_else (balance t) "0") <> None) tokens ->
  Forall formattable
    (firstn 20 (JSArray.sort byQuote (List.filter eligible tokens))) ->
  getPublicClient env chainId = Some client ->
  let candidates :=
    map (fun t => erc20Call target t (amount t))
        (firstn 20 (JSArray.sort byQuote (List.filter eligible tokens))) in
  exists native,
    nativeTransferCall env tokens target chainId = inr native /\
    buildTransferCalls env tokens target chainId
    = let final := finalCalls (allValidCalls (succeeded client 0 candidates)
                                             native) in
      if (length final =? 0)%nat then inl NoValidTransfers
      else inr {| calls := final;
                  precheckResult :=
                    {| total := length candidates;
                       valid := length (succeeded client 0 candidates);
                       failed := length (reverted client 0 candidates) |} |}.
Proof.
  intros Haddr Ha Hall Hfmt Hf. cbv zeta.
  destruct (nativeTransferCall_total env tokens target chainId) as (nc & Hnc).
  exists nc. split; [exact Hnc|].
  unfold buildTransferCalls, allERC20Tokens.
  rewrite Haddr, Ha, (filterERC20_total _ Hall). cbn [bind ret negb].
  unfold JSArray.slice0. rewrite precheckCalls_spec.
  2:{ intros t Ht. now apply (candidates_eligible tokens). }
  2:{ rewrite List.Forall_forall in Hfmt. exact Hfmt. }
  cbn [bind ret]. rewrite Hf, precheckLoop_spec, Hnc. reflexivity.
Qed.

Lemma finalCalls_empty valid native :
  length (finalCalls (allValidCalls valid native)) = 0%nat
  <-> valid = [] /\ native = None.
Proof.
  rewrite finalCalls_length. split.
  - intros H. destruct valid; [|simpl in H; lia].
    destruct native; [simpl in H; lia | auto].
  - now intros [-> ->].
Qed.

(** The build returns a batch exactly when the destination is well formed,
    a wallet is connected, every balance reads as an integer, the amount of
    every candidate can be formatted with its decimals (0 to 100 of them),
    the chain has a client, and a candidate passes its simulation or the
    native balance exceeds the chain's reserve.  It fails for want of
    transfers exactly when all but the last of these holds. *)
Theorem build_succeeds_iff env tokens target chainId :
  let selected :=
    firstn 20 (JSArray.sort byQuote (List.filter eligible tokens)) in
  let candidates := map (fun t => erc20Call target t (amount t)) selected in
  let ready client :=
    Viem.isAddress target = true /\ address env <> None /\
    Forall (fun t => JS.BigInt (JS.or_else (balance t) "0") <> None) tokens /\
    Forall formattable selected /\
    getPublicClient env chainId = Some client in
  let above_reserve :=
    exists R, reserveWei chainId = Some R /\ R < nativeBalance env in
  ((exists res, buildTransferCalls env tokens target chainId = inr res)
   <-> exists client,
         ready client /\ (succeeded client 0 candidates <> [] \/ above_reserve))
  /\ (buildTransferCalls env tokens target chainId = inl NoValidTransfers
      <-> exists client,
            ready client /\ succeeded client 0 candidates = []
            /\ ~ above_reserve).
Proof.
  cbv zeta.
  set (selected := firstn 20 (JSArray.sort byQuote (List.filter eligible tokens))).
  set (candidates := map (fun t => erc20Call target t (amount t)) selected).
  assert (forall native,
            nativeTransferCall env tokens target chainId = inr native ->
            (native <> None
             <-> exists R, reserveWei chainId = Some R /\ R < nativeBalance env))
    as Hnative.
  { intros native Hn. split.
    - destruct native as [n|]; [intros _ | now intros []].
      apply nativeTransferCall_shape in Hn as (R & HR & Hlt & _). eauto.
    - intros (R & HR & Hlt).
      rewrite (nativeTransferCall_configured _ _ _ _ _ HR) in Hn.
      destruct (Z.ltb_spec R (nativeBalance env)); [|lia].
      injection Hn as <-. discriminate. }
  assert (forall client,
            Viem.isAddress target = true -> address env <> None ->
            Forall (fun t => JS.BigInt (JS.or_else (balance t) "0") <> None)
              tokens ->
            Forall formattable selected ->
            getPublicClient env chainId = Some client ->
            exists native,
              nativeTransferCall env tokens target chainId = inr native /\
              ((succeeded client 0 candidates = [] /\ native = None)
               -> buildTransferCalls env tokens target chainId
                  = inl NoValidTransfers) /\
              (~ (succeeded client 0 candidates = [] /\ native = None)
               -> exists res,
                    buildTransferCalls env tokens target chainId = inr res))
    as Hform.
  { intros client Haddr Ha Hall Hfmt Hf.
    destruct (address env) as [a|] eqn:Ea; [|now contradiction Ha].
    destruct (build_normal_form env tokens target chainId a client
                Haddr Ea Hall Hfmt Hf) as (native & Hn & Hb).
    exists native. split; [exact Hn|]. cbv zeta in Hb.
    fold selected in Hb. fold candidates in Hb. rewrite Hb.
    split; intros Hcase.
    - apply finalCalls_empty in Hcase. now rewrite Hcase.
    - destruct (Nat.eqb_spec (length (finalCalls (allValidCalls
                  (succeeded client 0 candidates) native))) 0) as [E|E];
        [|eauto].
      apply finalCalls_empty in E. now contradiction Hcase. }
  split; split.
  - intros (res & H). destruct (build_trace _ _ _ _ _ H)
      as [sel f nc pre validCalls Haddr (a & Ha) H1 H2 H3 H4 Hc Hne _ _ _].
    assert (Forall (fun t => JS.BigInt (JS.or_else (balance t) "0") <> None)
              tokens) as Hall.
    { unfold allERC20Tokens in H1. apply bind_inr in H1 as (l & Hl & _).
      now apply filterERC20_parsable in Hl. }
    pose proof (allERC20Tokens_spec _ _ H1) as Hsel. fold selected in Hsel.
    assert (Forall formattable selected) as Hfmt.
    { apply List.Forall_forall. rewrite <- Hsel.
      apply (precheckCalls_inr target sel pre); [|exact H2].
      intros t Ht. rewrite Hsel in Ht.
      now apply (candidates_eligible tokens). }
    exists f. split; [repeat split; [assumption | congruence | assumption
                                     | assumption | assumption]|].
    destruct (list_eq_nil_dec validCalls) as [Hnil|Hnil].
    + right. apply (Hnative nc H4). intros ->.
      apply Hne. rewrite Hc. apply length_zero_iff_nil.
      now apply finalCalls_empty.
    + left. unfold validCalls, pre in Hnil. now rewrite Hsel in Hnil.
  - intros (client & (Haddr & Ha & Hall & Hfmt & Hf) & Hsome).
    destruct (Hform client Haddr Ha Hall Hfmt Hf) as (native & Hn & _ & Hok).
    apply Hok. intros [Hnil ->]. destruct Hsome as [Hs|Hs]; [tauto|].
    now apply (Hnative None Hn) in Hs.
  - intros H.
    destruct (Viem.isAddress target) eqn:Haddr.
    2:{ unfold buildTransferCalls in H. now rewrite Haddr in H. }
    destruct (address env) as [a|] eqn:Ha.
    2:{ unfold buildTransferCalls in H. now rewrite Haddr, Ha in H. }
    destruct (filterERC20 tokens) as [e|l] eqn:Hfil.
    { unfold buildTransferCalls, allERC20Tokens in H.
      rewrite Haddr, Ha, Hfil in H. simpl in H.
      rewrite (filterERC20_error _ _ Hfil) in H. discriminate. }
    apply filterERC20_parsable in Hfil.
    assert (buildTransferCalls env tokens target chainId
            = let* pre := precheckCalls target selected in
              match getPublicClient env chainId with
              | None => inl PublicClientNotAvailable
              | Some publicClient_call =>
                  let '(precheckValidCalls, validCount, failedCount) :=
                    precheckLoop publicClient_call 0 pre [] 0%nat 0%nat in
                  let* nativeCall :=
                    nativeTransferCall env tokens target chainId in
                  let final :=
                    finalCalls (allValidCalls precheckValidCalls nativeCall) in
                  if (length final =? 0)%nat then inl NoValidTransfers
                  else inr {| calls := final;
                              precheckResult :=
                                {| total := length pre;
                                   valid := validCount;
                                   failed := failedCount |} |}
              end) as Hbuild.
    { unfold buildTransferCalls, allERC20Tokens.
      rewrite Haddr, Ha, (filterERC20_total _ Hfil). reflexivity. }
    pose proof H as Hfailed. rewrite Hbuild in H.
    destruct (precheckCalls target selected) as [e|pre] eqn:Hpre.
    { simpl in H. injection H as ->.
      apply precheckCalls_error in Hpre as [Hpre|Hpre]; discriminate. }
    assert (Forall formattable selected) as Hfmt.
    { apply List.Forall_forall.
      apply (precheckCalls_inr target selected pre); [|exact Hpre].
      intros t Ht. now apply (candidates_eligible tokens). }
    simpl in H.
    destruct (getPublicClient env chainId) as [client|] eqn:Hf;
      [|discriminate].
    clear H. exists client.
    split; [repeat split; [discriminate | assumption | assumption]|].
    destruct (Hform client eq_refl ltac:(discriminate) Hfil Hfmt eq_refl)
      as (native & Hn & _ & Hok).
    destruct (list_eq_nil_dec (succeeded client 0 candidates)) as [Hnil|Hnil].
    + split; [exact Hnil|]. intros Hab.
      apply (Hnative native Hn) in Hab.
      destruct Hok as (res & Hres); [tauto|]. congruence.
    + destruct Hok as (res & Hres); [tauto|]. congruence.
  - intros (client & (Haddr & Ha & Hall & Hfmt & Hf) & Hnil & Hnot).
    destruct (Hform client Haddr Ha Hall Hfmt Hf) as (native & Hn & Hfail & _).
    apply Hfail. split; [exact Hnil|].
    destruct native as [n|]; [|reflexivity].
    exfalso. apply Hnot. apply (Hnative (Some n) Hn). discriminate.
Qed.

Lemma build_succeeds_iff_witness :
  exists res,
    buildTransferCalls (BuilderTest.wallet 0 (fun _ => false))
      [BuilderTest.usdc] BuilderTest.friend 1 = inl NoValidTransfers /\
    buildTransferCalls (BuilderTest.wallet 2248000000000001 (fun _ => false))
      [BuilderTest.usdc] BuilderTest.friend 1 = inr res.
Proof.
  pose proof (build_succeeds_iff (BuilderTest.wallet 0 (fun _ => false))
                [BuilderTest.usdc] BuilderTest.friend 1) as [_ Hfail].
  pose proof (build_succeeds_iff
                (BuilderTest.wallet 2248000000000001 (fun _ => false))
                [BuilderTest.usdc] BuilderTest.friend 1) as [Hok _].
  cbv zeta in Hfail, Hok.
  assert (Forall formattable
            (firstn 20 (JSArray.sort byQuote
                          (List.filter eligible [BuilderTest.usdc])))) as Hfmt.
  { repeat constructor; vm_compute; discriminate. }
  destruct (proj2 Hok) as (res & Hres).
  { exists (fun _ _ => false). split.
    - repeat split; [discriminate| |exact Hfmt].
      repeat constructor. discriminate.
    - right. exists 2248000000000000. split; reflexivity. }
  exists res. split; [|exact Hres].
  apply (proj2 Hfail). exists (fun _ _ => false). split; [|split].
  - repeat split; [discriminate| |exact Hfmt]. repeat constructor. discriminate.
  - reflexivity.
  - intros (R & HR & Hlt). vm_compute in HR. injection HR as <-.
    vm_compute in Hlt. discriminate.
Defined.
End BuilderOutcome.

(** ** The transfer-call builder: the native transfer among the token calls *)

Section BuilderNative.
Import Builder.

Lemma is_native_type c :
  is_native c = match type c with
                | native_transfer => true
                | erc20_transfer => false
                end.
Proof. reflexivity. Qed.

Lemma reserveWei_none chainId :
  ~ In chainId [1; 137; 56; 42161; 8453; 10] <-> reserveWei chainId = None.
Proof.
  split.
  - intros Hn. unfold reserveWei, NATIVE_TOKEN_RESERVE.
    repeat match goal with
           | |- context [chainId =? ?k] =>
               destruct (Z.eqb_spec chainId k) as [->|_];
               [exfalso; apply Hn; simpl; tauto|]
           end.
    reflexivity.
  - intros HR Hin. simpl in Hin.
    repeat (destruct Hin as [<-|Hin]; [discriminate HR|]). exact Hin.
Qed.

(** On a chain without a reserve in the table (Monad and Sepolia are such
    chains of the wallet configuration) no native transfer is ever built,
    whatever the native balance: a batch holds token calls only. *)
Theorem no_reserve_no_native env tokens target chainId res :
  ~ In chainId [1; 137; 56; 42161; 8453; 10] ->
  buildTransferCalls env tokens target chainId = inr res ->
  nativeTransferCall env tokens target chainId = inr None /\
  forall c, In c (calls res) -> type c = erc20_transfer.
Proof.
  intros Hchain H. apply reserveWei_none in Hchain.
  assert (nativeTransferCall env tokens target chainId = inr None) as Hnone.
  { destruct (nativeTransferCall_total env tokens target chainId) as ([n|] & Hn);
      [|exact Hn].
    apply nativeTransferCall_shape in Hn as (R & HR & _). congruence. }
  split; [exact Hnone|].
  destruct (build_trace _ _ _ _ _ H)
    as [sel f nc pre validCalls _ _ H1 H2 H3 H4 Hc _ _ _ _].
  intros c Hin. rewrite Hc in Hin.
  apply finalCalls_In in Hin as (v & -> & [Hv|Hv]).
  - apply valid_call_shape in Hv as (t & _ & ->). reflexivity.
  - congruence.
Qed.

Lemma no_reserve_no_native_witness :
  exists res,
    buildTransferCalls (BuilderTest.env0 (10 ^ 30)) [BuilderTest.usdc]
      BuilderTest.friend 143 = inr res /\
    map type (calls res) = [erc20_transfer].
Proof.
  destruct (buildTransferCalls _ _ _ _) as [e|res] eqn:E;
    [vm_compute in E; discriminate|].
  exists res. split; [reflexivity|].
  assert (~ In 143 [1; 137; 56; 42161; 8453; 10]) as Hchain.
  { simpl. intros [H|[H|[H|[H|[H|[H|[]]]]]]]; discriminate H. }
  pose proof (no_reserve_no_native _ _ _ _ _ Hchain E) as [_ _].
  vm_compute in E. injection E as <-. reflexivity.
Defined.

Lemma insert_last {A} (key : A -> Q) (a x : A) (m : list A) :
  (key x <= key a)%Q ->
  JSArray.insert (JSArray.byKey key) a (m ++ [x])
  = (JSArray.insert (JSArray.byKey key) a m ++ [x])%list.
Proof.
  intros Hle. induction m as [|y m IH]; simpl.
  - destruct (JSArray.Qpos_bool (JSArray.byKey key a x)) eqn:E; [|reflexivity].
    apply byKey_pos in E. exfalso. exact (Qlt_not_le _ _ E Hle).
  - destruct (JSArray.Qpos_bool (JSArray.byKey key a y)); [|reflexivity].
    now rewrite IH.
Qed.

(** The sort leaves a last element that is worth no more than any other in
    the last place. *)
Lemma sort_last {A} (key : A -> Q) (x : A) (l : list A) :
  (forall y, In y l -> (key x <= key y)%Q) ->
  JSArray.sort (JSArray.byKey key) (l ++ [x])
  = (JSArray.sort (JSArray.byKey key) l ++ [x])%list.
Proof.
  induction l as [|a l IH]; intros H; [reflexivity|].
  simpl. rewrite IH by (intros y Hy; apply H; now right).
  apply insert_last. apply H. now left.
Qed.

(** The native transfer is appended after the token calls and the sort is
    stable, so a native asset worth no more than any candidate token (an
    unpriced one among priced tokens, say) comes last: once ten token calls
    have passed their simulation the batch holds no native transfer, however
    large the native balance. *)
Theorem cheap_native_cut_off env tokens target chainId res :
  let nativeQuote := match List.find native_token tokens with
                     | Some t => quote t
                     | None => 0%Q
                     end in
  buildTransferCalls env tokens target chainId = inr res ->
  (10 <= valid (precheckResult res))%nat ->
  (forall t, In t tokens -> eligible t = true -> (nativeQuote <= quote t)%Q) ->
  forall c, In c (calls res) -> type c = erc20_transfer.
Proof.
  cbv zeta. intros H Hten Hcheap.
  destruct (build_trace _ _ _ _ _ H)
    as [sel f nc pre validCalls _ _ H1 H2 H3 H4 Hc _ _ Hv _].
  assert (forall v, In v validCalls -> type (call v) = erc20_transfer) as Herc.
  { intros v Hin. apply valid_call_shape in Hin as (t & _ & ->). reflexivity. }
  intros c Hin. rewrite Hc in Hin.
  destruct nc as [n|].
  - unfold finalCalls, allValidCalls, JSArray.slice0, maxTransfers in Hin.
    simpl option_list in Hin.
    change byTokenQuote with (JSArray.byKey tokenQuote) in Hin.
    rewrite sort_last in Hin.
    + rewrite firstn_app in Hin.
      replace (10 - length (JSArray.sort (JSArray.byKey tokenQuote) validCalls))%nat
        with 0%nat in Hin by (rewrite sort_length; lia).
      simpl in Hin. rewrite app_nil_r in Hin.
      apply in_map_iff in Hin as (v & <- & Hin).
      apply In_firstn, (proj1 (sort_In tokenQuote _ _)) in Hin. now apply Herc.
    + intros v Hin'.
      apply nativeTransferCall_shape in H4 as (_ & _ & _ & _ & ->).
      apply valid_call_shape in Hin' as (t & Hsel & ->). simpl.
      destruct (selected_eligible _ _ _ H1 Hsel). now apply Hcheap.
  - apply finalCalls_In in Hin as (v & -> & [Hin|Hin]); [|discriminate].
    now apply Herc.
Qed.

Lemma cheap_native_cut_off_witness :
  exists res,
    buildTransferCalls (BuilderTest.env0 (10 ^ 30)) BuilderTest.twentyFive
      BuilderTest.friend 1 = inr res /\
    forallb (fun c => negb (is_native c)) (calls res) = true.
Proof.
  destruct (buildTransferCalls _ _ _ _) as [e|res] eqn:E;
    [vm_compute in E; discriminate|].
  exists res. split; [reflexivity|].
  assert (10 <= valid (precheckResult res))%nat as Hten.
  { vm_compute in E. injection E as <-. simpl. lia. }
  assert (forall t, In t BuilderTest.twentyFive -> eligible t = true ->
                    (0 <= quote t)%Q) as Hcheap.
  { intros t Ht _. unfold BuilderTest.twentyFive in Ht.
    apply in_map_iff in Ht as (i & <- & _). simpl.
    unfold Qle. simpl. lia. }
  pose proof (cheap_native_cut_off _ _ _ _ _ E Hten Hcheap) as Hall.
  apply forallb_forall. intros c Hc. rewrite (is_native_type c), (Hall c Hc).
  reflexivity.
Defined.
End BuilderNative.

(** ** The form in front of the builder, and reading call data back *)

Section BuilderForm.
Import Builder.

(** The form hands a destination to the builder unless it is blank, no
    well-formed address, or the connected account's own address in any case
    of letters; then no build takes place. *)
Theorem form_refuses_iff env tokens target chainId :
  (handleBuildTransfers env tokens target chainId = None
   <-> JS.str (JS.trim (JS.chars target)) = ""
       \/ Viem.isAddress target = false
       \/ exists a, address env = Some a
                    /\ JS.toLowerCase target = JS.toLowerCase a)
  /\ (handleBuildTransfers env tokens target chainId <> None ->
      handleBuildTransfers env tokens target chainId
      = Some (buildTransferCalls env tokens target chainId)).
Proof.
  unfold handleBuildTransfers, validateAddress.
  destruct (JS.truthy (JS.str (JS.trim (JS.chars target)))) eqn:Ht; simpl.
  2:{ split; [|now intros []]. split; [intros _; left | reflexivity].
      unfold JS.truthy in Ht. apply negb_false_iff in Ht.
      now apply String.eqb_eq in Ht. }
  apply truthy_nonempty in Ht.
  destruct (Viem.isAddress target) eqn:Haddr; simpl.
  2:{ split; [|now intros []]. split; [intros _; right; now left | reflexivity]. }
  destruct (address env) as [a|] eqn:Ha.
  - destruct (String.eqb_spec (JS.toLowerCase target) (JS.toLowerCase a))
      as [Heq|Hne]; simpl.
    + split; [|now intros []]. split; [|reflexivity].
      intros _. right. right. eauto.
    + split; [|reflexivity]. split; [discriminate|].
      intros [H|[H|(a' & [= <-] & H)]]; [contradiction | discriminate
                                         | contradiction].
  - split; [|reflexivity]. split; [discriminate|].
    intros [H|[H|(a' & H & _)]]; [contradiction | discriminate | discriminate].
Qed.

Example form_refuses_checksummed_own_address :
  handleBuildTransfers (BuilderTest.env0 0) [BuilderTest.usdc]
    "0x5aAeb6053F3E94C9b9A09f33669435E7Ef1BeAed" 1 = None.
Proof. vm_compute. reflexivity. Qed.

Lemma chars_inj (a b : string) : JS.chars a = JS.chars b -> a = b.
Proof.
  intros H. rewrite <- (str_chars a), <- (str_chars b). now rewrite H.
Qed.

(** Call data determine the transfer: two encodings agree only for the same
    destination and the same amount. *)
Theorem encodeTransfer_injective target1 target2 b1 b2 :
  Viem.isAddress target1 = true -> Viem.isAddress target2 = true ->
  0 < b1 -> 0 < b2 ->
  encodeTransfer target1 b1 = encodeTransfer target2 b2 ->
  target1 = target2 /\ b1 = b2.
Proof.
  intros H1 H2 Hb1 Hb2 Heq. unfold encodeTransfer in Heq.
  rewrite (recipient_word _ H1), (recipient_word _ H2) in Heq.
  destruct (isAddress_shape _ H1) as (Hs1 & Hl1 & _).
  destruct (isAddress_shape _ H2) as (Hs2 & Hl2 & _).
  destruct (amountHex_spec _ Hb1) as (Hv1 & _).
  destruct (amountHex_spec _ Hb2) as (Hv2 & _).
  cbv zeta in Hv1, Hv2.
  apply (f_equal JS.chars) in Heq. rewrite !chars_app in Heq.
  apply app_inv_head in Heq. rewrite <- !app_assoc in Heq.
  apply app_inv_head in Heq.
  apply app_inj_1 in Heq as [Ha Hh].
  2:{ now rewrite !length_chars, Hl1, Hl2. }
  apply chars_inj in Ha. apply chars_inj in Hh.
  split.
  - rewrite Hs1, Hs2. now rewrite Ha.
  - rewrite Hh in Hv1. congruence.
Qed.

Lemma encodeTransfer_injective_witness :
  encodeTransfer BuilderTest.friend 1000
  = encodeTransfer BuilderTest.friend (3 * 16 * 16 + 14 * 16 + 8) /\
  BuilderTest.friend = BuilderTest.friend /\
  1000 = 3 * 16 * 16 + 14 * 16 + 8.
Proof.
  split; [reflexivity|].
  apply (encodeTransfer_injective BuilderTest.friend BuilderTest.friend 1000
           (3 * 16 * 16 + 14 * 16 + 8));
    [vm_compute; reflexivity | vm_compute; reflexivity | lia | lia
     | reflexivity].
Defined.
End BuilderForm.

(** ** Versioned caches: invalidation of every key *)

Section CacheInvalidation.
Import VersionedCache CacheStates.
Context {K : Type} `{Countable K} {V : Type}.
Implicit Types (c : VersionedCache.t K V) (k : K) (v : V).

(** No entry is ahead of the version counter. *)
Lemma reachable_versions c :
  reachable c ->
  forall k e, cache c !! k = Some e -> version e <= cacheVersion c.
Proof.
  induction 1 as [|now key v c _ IH|c _ IH]; intros k e He; simpl in *.
  - rewrite lookup_empty in He. discriminate.
  - destruct (decide (key = k)) as [->|Hne].
    + rewrite lookup_insert_eq in He. injection He as <-. simpl. lia.
    + rewrite lookup_insert_ne in He by exact Hne. now apply (IH k).
  - specialize (IH k e He). lia.
Qed.

(** In every state the two operations lead to from the empty cache, a bump of
    the version makes the get of every key miss, at any time, without a key
    being touched. *)
Theorem invalidate_misses_everything c :
  reachable c ->
  forall now k, get now k (invalidate c) = None
                /\ cache (invalidate c) = cache c.
Proof.
  intros Hr now k. split; [|reflexivity].
  unfold get, invalidate. simpl.
  destruct (cache c !! k) as [e|] eqn:He; [|reflexivity].
  pose proof (reachable_versions c Hr k e He).
  destruct (Z.eqb_spec (version e) (cacheVersion c + 1)); [lia|].
  now rewrite andb_false_r.
Qed.
End CacheInvalidation.

Lemma invalidate_misses_everything_witness :
  let c := VersionedCache.put 5 (8453 : Z) (1%nat)
             (VersionedCache.invalidate
                (VersionedCache.put 0 (1 : Z) (7%nat) VersionedCache.empty)) in
  VersionedCache.get 6 8453 c = Some 1%nat /\
  VersionedCache.get 6 8453 (VersionedCache.invalidate c) = None /\
  VersionedCache.get 6 1 (VersionedCache.invalidate c) = None.
Proof.
  cbv zeta. split; [reflexivity|].
  assert (CacheStates.reachable
            (VersionedCache.put 5 (8453 : Z) (1%nat)
               (VersionedCache.invalidate
                  (VersionedCache.put 0 (1 : Z) (7%nat) VersionedCache.empty))))
    as Hr by (repeat constructor).
  split; apply (invalidate_misses_everything _ Hr).
Defined.

(** ** The verified-token registry: what a fetch leaves behind *)

Section RegistryFetch.
Import Registry.

Lemma size_zero_empty (s : gset string) : (size s =? 0)%nat = true <-> s = ∅.
Proof.
  rewrite Nat.eqb_eq. split.
  - intros Hs. now apply leibniz_equiv, size_empty_iff.
  - intros ->. apply size_empty.
Qed.

Lemma size_pos_nonempty (s : gset string) : (0 <? size s)%nat = true <-> s <> ∅.
Proof.
  rewrite Nat.ltb_lt. split.
  - intros Hs ->. rewrite size_empty in Hs. lia.
  - intros Hne. destruct (size s) eqn:E; [|lia].
    exfalso. apply Hne. now apply leibniz_equiv, size_empty_iff.
Qed.

(** With a list at hand, working or stale, membership of the lowercased
    address decides. *)
Lemma isTokenVerified_member h tokenAddress :
  isReady h = true -> verifiedTokens h <> ∅ ->
  isTokenVerified h tokenAddress
  = bool_decide (JS.toLowerCase tokenAddress ∈ verifiedTokens h).
Proof.
  intros Hr Hne. unfold isTokenVerified. rewrite Hr. simpl.
  destruct (size (verifiedTokens h) =? 0)%nat eqn:Hz.
  { apply size_zero_empty in Hz. contradiction. }
  simpl. apply size_pos_nonempty in Hne. rewrite Hne.
  now destruct (apiStatus h).
Qed.

Lemma lower_char_idem c : JS.lower_char (JS.lower_char c) = JS.lower_char c.
Proof.
  destruct c as [[] [] [] [] [] [] [] []]; reflexivity.
Qed.

Lemma toLowerCase_idem s : JS.toLowerCase (JS.toLowerCase s) = JS.toLowerCase s.
Proof.
  unfold JS.toLowerCase. rewrite chars_str, map_map. f_equal.
  apply map_ext. intros c. apply lower_char_idem.
Qed.

Lemma elem_of_verifiedAddresses x tokens :
  x ∈ verifiedAddresses tokens
  <-> exists t, In t tokens /\ listed t = true /\ address t <> ""
                /\ JS.toLowerCase (address t) = x.
Proof.
  unfold verifiedAddresses.
  rewrite elem_of_list_to_set, list_elem_of_In, in_map_iff. split.
  - intros (t & <- & Ht). apply List.filter_In in Ht as [Hin Hf].
    apply andb_true_iff in Hf as [Hl Ha]. apply truthy_nonempty in Ha.
    exists t. auto.
  - intros (t & Hin & Hl & Ha & <-). exists t. split; [reflexivity|].
    apply List.filter_In. split; [exact Hin|].
    apply andb_true_iff. split; [exact Hl | now apply truthy_nonempty].
Qed.

(** After a fetch that returned a token array the registry is ready and
    working.  If no entry of the array is listed with an address, every
    address is verified; otherwise an address is verified exactly when a
    listed entry has that address up to the case of its letters. *)
Theorem fetched_list_decides chainId now now' tokens c h :
  VersionedCache.get now chainId c = None ->
  let h' := snd (fetchVerifiedTokens chainId now now' (Json (Some tokens)) c h) in
  isReady h' = true /\ apiStatus h' = working /\
  verifiedTokens h' = verifiedAddresses tokens /\
  (verifiedAddresses tokens = ∅ ->
     forall tokenAddress, isTokenVerified h' tokenAddress = true) /\
  (verifiedAddresses tokens <> ∅ ->
     forall tokenAddress,
       isTokenVerified h' tokenAddress = true
       <-> exists t, In t tokens /\ listed t = true /\ address t <> ""
                     /\ JS.toLowerCase (address t) = JS.toLowerCase tokenAddress).
Proof.
  intros Hmiss. cbv zeta. unfold fetchVerifiedTokens. rewrite Hmiss. simpl.
  repeat split.
  - intros He tokenAddress. apply isTokenVerified_empty; simpl;
      [reflexivity | exact He | discriminate].
  - rewrite isTokenVerified_member by (simpl; auto). simpl.
    rewrite bool_decide_eq_true. now apply elem_of_verifiedAddresses.
  - rewrite isTokenVerified_member by (simpl; auto). simpl.
    rewrite bool_decide_eq_true. now apply elem_of_verifiedAddresses.
Qed.

Lemma fetched_list_decides_witness :
  let listed_usdc := {| address := "0x833589fCD6eDb6E08f4c7C32D4f71b54bdA02913";
                        symbol := "USDC"; decimals := 6; listed := true |} in
  let h' := snd (fetchVerifiedTokens 8453 0 1 (Json (Some [listed_usdc]))
                   VersionedCache.empty initial) in
  isTokenVerified h' "0x833589FCD6EDB6E08F4C7C32D4F71B54BDA02913" = true.
Proof.
  cbv zeta.
  pose proof (fetched_list_decides 8453 0 1
                [{| address := "0x833589fCD6eDb6E08f4c7C32D4f71b54bdA02913";
                    symbol := "USDC"; decimals := 6; listed := true |}]
                VersionedCache.empty initial eq_refl) as (_ & _ & _ & _ & Hiff).
  cbv zeta in Hiff. apply Hiff.
  - intros He. vm_compute in He. discriminate.
  - eexists. split; [left; reflexivity|]. repeat split. discriminate.
Defined.

(** When the fetch fails while a non-empty set is still in the cache, stale
    or of an older version, the registry goes on with that set: it is ready,
    its status is failed, and an address is verified exactly when its
    lowercase form is in the old set. *)
Theorem failed_fetch_keeps_previous_set chainId now now' r c h e :
  fetch_failed r ->
  VersionedCache.get now chainId c = None ->
  VersionedCache.cache c !! chainId = Some e ->
  fst (VersionedCache.data e) <> ∅ ->
  let h' := snd (fetchVerifiedTokens chainId now now' r c h) in
  isReady h' = true /\ apiStatus h' = failed /\
  verifiedTokens h' = fst (VersionedCache.data e) /\
  forall tokenAddress,
    isTokenVerified h' tokenAddress = true
    <-> JS.toLowerCase tokenAddress ∈ fst (VersionedCache.data e).
Proof.
  intros (message & Hr) Hmiss He Hne. cbv zeta.
  unfold fetchVerifiedTokens. rewrite Hmiss, Hr, He. simpl.
  apply size_pos_nonempty in Hne as Hpos. rewrite Hpos.
  repeat split.
  - rewrite isTokenVerified_member by (simpl; auto). simpl.
    now rewrite bool_decide_eq_true.
  - rewrite isTokenVerified_member by (simpl; auto). simpl.
    now rewrite bool_decide_eq_true.
Qed.

Lemma failed_fetch_keeps_previous_set_witness :
  let stale := VersionedCache.put 0 8453
                 ({["0x833589fcd6edb6e08f4c7c32d4f71b54bda02913"]}, entry_working)
                 VersionedCache.empty in
  let h' := snd (fetchVerifiedTokens 8453 200000 200001
                   (Rejected "Failed to fetch") stale initial) in
  VersionedCache.get 200000 8453 stale = None /\
  apiStatus h' = failed /\
  isTokenVerified h' "0x833589fCD6eDb6E08f4c7C32D4f71b54bdA02913" = true.
Proof.
  cbv zeta. split; [reflexivity|].
  assert (fetch_failed (Rejected "Failed to fetch")) as Hf
    by (eexists; reflexivity).
  destruct (failed_fetch_keeps_previous_set 8453 200000 200001
              (Rejected "Failed to fetch")
              (VersionedCache.put 0 8453
                 ({["0x833589fcd6edb6e08f4c7c32d4f71b54bda02913"]}, entry_working)
                 VersionedCache.empty)
              initial
              {| VersionedCache.data :=
                   ({["0x833589fcd6edb6e08f4c7c32d4f71b54bda02913"]},
                    entry_working);
                 VersionedCache.timestamp := 0; VersionedCache.version := 1 |}
              Hf eq_refl) as (_ & Hst & _ & Hiff).
  - unfold VersionedCache.put. simpl. now rewrite lookup_insert_eq.
  - simpl. intros He.
    assert ("0x833589fcd6edb6e08f4c7c32d4f71b54bda02913" ∈ (∅ : gset string))
      as Hin by (rewrite <- He; set_solver).
    set_solver.
  - split; [exact Hst|]. apply Hiff. simpl.
    change (JS.toLowerCase "0x833589fCD6eDb6E08f4c7C32D4f71b54bdA02913")
      with "0x833589fcd6edb6e08f4c7c32d4f71b54bda02913".
    set_solver.
Defined.

(** Whatever a fetch that went to the network brought, list or failure, it
    is cached: for the length of the TTL, the version unchanged, the next
    call makes no request (its result does not depend on any response),
    leaves the cache alone and restores the same set and status. *)
Theorem fetch_outcome_cached chainId now now' r c h :
  VersionedCache.get now chainId c = None ->
  forall now'' later r2 h2,
    now'' - now' < VersionedCache.CACHE_TTL ->
    let c' := fst (fetchVerifiedTokens chainId now now' r c h) in
    let h' := snd (fetchVerifiedTokens chainId now now' r c h) in
    fetchVerifiedTokens chainId now'' later r2 c' h2
    = (c', {| verifiedTokens := verifiedTokens h'; loading := false;
              error := None; apiStatus := apiStatus h'; isReady := true |}).
Proof.
  intros Hmiss now'' later r2 h2 Hfresh. cbv zeta.
  assert ((now'' - now' <? VersionedCache.CACHE_TTL) = true) as Hif
    by now apply Z.ltb_lt.
  destruct (fetchVerifiedTokens chainId now now' r c h) as [c' h'] eqn:E.
  unfold fetchVerifiedTokens in E. rewrite Hmiss in E.
  destruct (parseResponse r) as [message|verified]; injection E as <- <-;
    simpl; unfold fetchVerifiedTokens; rewrite get_put_same, Hif;
    [|reflexivity].
  simpl. do 2 f_equal.
  destruct (VersionedCache.cache c !! chainId) as [e|]; [|reflexivity].
  destruct (0 <? size (VersionedCache.data e).1)%nat eqn:Hs; [reflexivity|].
  apply Nat.ltb_ge in Hs.
  apply leibniz_equiv, size_empty_iff. lia.
Qed.

Lemma fetch_outcome_cached_witness :
  fetchVerifiedTokens 8453 119000 119000 (Json (Some []))
    (fst (fetchVerifiedTokens 8453 0 1 (Rejected "Failed to fetch")
            VersionedCache.empty initial)) initial
  = (fst (fetchVerifiedTokens 8453 0 1 (Rejected "Failed to fetch")
            VersionedCache.empty initial),
     {| verifiedTokens := ∅; loading := false; error := None;
        apiStatus := failed; isReady := true |}).
Proof.
  apply (fetch_outcome_cached 8453 0 1 (Rejected "Failed to fetch")
           VersionedCache.empty initial eq_refl 119000 119000
           (Json (Some [])) initial).
  reflexivity.
Defined.
End RegistryFetch.

(** ** Decimal numerals *)

Section DecimalNumerals.
Import Decimal.

Lemma digit_spec d :
  0 <= d < 10 ->
  JS.is_digit (digit d) = true /\ JS.digit_val (digit d) = d.
Proof.
  intros Hd.
  assert (d = 0 \/ d = 1 \/ d = 2 \/ d = 3 \/ d = 4 \/ d = 5 \/ d = 6 \/ d = 7
          \/ d = 8 \/ d = 9) as H by lia.
  repeat (destruct H as [->|H]; [split; reflexivity|]).
  subst d. split; reflexivity.
Qed.

Lemma decimal_val_app l1 l2 a :
  JSNumber.decimal_val (l1 ++ l2) a
  = JSNumber.decimal_val l2 (JSNumber.decimal_val l1 a).
Proof. revert a. induction l1 as [|c r IH]; intros a; simpl; auto. Qed.

Lemma dec_pos_spec fuel : forall n acc,
  0 <= n < 10 ^ Z.of_nat fuel -> (0 < fuel)%nat ->
  exists ds,
    dec_pos fuel n acc = (ds ++ acc)%list /\ ds <> [] /\
    forallb JS.is_digit ds = true /\
    forall a, JSNumber.decimal_val ds a = a * 10 ^ Z.of_nat (length ds) + n.
Proof.
  induction fuel as [|f IH]; intros n acc Hn Hf; [lia|].
  simpl dec_pos. destruct (Z.ltb_spec n 10) as [Hlt|Hge].
  - destruct (digit_spec n) as [Hd Hv]; [lia|].
    exists [digit n]. repeat split.
    + discriminate.
    + simpl. now rewrite Hd.
    + intros a. simpl. rewrite Hv. lia.
  - assert (0 < f)%nat as Hf'.
    { destruct f; [|lia]. simpl in Hn. lia. }
    assert (10 ^ Z.of_nat (S f) = 10 * 10 ^ Z.of_nat f) as Hpow.
    { rewrite Nat2Z.inj_succ, Z.pow_succ_r; lia. }
    destruct (IH (n / 10) (digit (n mod 10) :: acc)) as
      (ds & Hds & Hne & Hdig & Hval); [|exact Hf'|].
    { split; [apply Z.div_pos; lia|]. apply Z.div_lt_upper_bound; lia. }
    destruct (digit_spec (n mod 10)) as [Hd Hv];
      [apply Z.mod_pos_bound; lia|].
    exists (ds ++ [digit (n mod 10)])%list. repeat split.
    + now rewrite Hds, <- app_assoc.
    + destruct ds; discriminate.
    + rewrite forallb_app, Hdig. simpl. now rewrite Hd.
    + intros a. rewrite decimal_val_app, Hval. simpl.
      rewrite Hv, length_app. simpl.
      rewrite Nat2Z.inj_add, Z.pow_add_r by lia.
      change (10 ^ Z.of_nat 1) with 10.
      pose proof (Z.div_mod n 10). lia.
Qed.

Lemma span_all (p : ascii -> bool) l :
  forallb p l = true -> JSNumber.span p l = (l, []).
Proof.
  induction l as [|c r IH]; simpl; [reflexivity|].
  intros H. apply andb_true_iff in H as [Hc Hr]. now rewrite Hc, (IH Hr).
Qed.

Lemma digit_plain c :
  JS.is_digit c = true ->
  JS.is_space c = false /\ Ascii.eqb "x" c = false /\ Ascii.eqb "X" c = false
  /\ forall r, JSNumber.sign (c :: r) = (false, c :: r).
Proof.
  destruct c as [[] [] [] [] [] [] [] []]; try discriminate; intros _;
    repeat split.
Qed.

(** A string that begins with an ASCII character other than white space has
    no leading white space. *)
Lemma drop_space_plain c r :
  JS.is_space c = false -> (nat_of_ascii c <? 128)%nat = true ->
  JS.drop_space (c :: r) = c :: r.
Proof.
  intros Hsp Hlt. apply Nat.ltb_lt in Hlt.
  assert (forall n, (128 <= n)%nat -> JS.byte c n = false) as Hb.
  { intros n Hn. unfold JS.byte. apply Nat.eqb_neq. lia. }
  assert (JS.white_bytes (c :: r) = 0%nat) as Hw.
  { unfold JS.white_bytes. rewrite Hsp.
    destruct r as [|b [|d r']]; [reflexivity| |];
      rewrite !Hb by lia; reflexivity. }
  unfold JS.drop_space. simpl length. cbn [JS.drop_while]. now rewrite Hw.
Qed.

Lemma digit_ascii c : JS.is_digit c = true -> (nat_of_ascii c <? 128)%nat = true.
Proof.
  destruct c as [[] [] [] [] [] [] [] []]; try discriminate; reflexivity.
Qed.

Lemma digits_no_prefix ds :
  forallb JS.is_digit ds = true -> has_hex_prefix ds = false.
Proof.
  assert (forall a b c1 c2 r,
            JSNumber.starts_with [a; b] (c1 :: c2 :: r)
            = Ascii.eqb a c1 && (Ascii.eqb b c2 && true)) as Htwo
    by reflexivity.
  assert (forall a b c1, JSNumber.starts_with [a; b] [c1] = false) as Hone.
  { intros a b c1. simpl. apply andb_false_r. }
  unfold has_hex_prefix.
  change (JS.chars "0x") with ["0"; "x"]%char.
  change (JS.chars "0X") with ["0"; "X"]%char.
  destruct ds as [|c1 [|c2 r]].
  - reflexivity.
  - intros _. now rewrite !Hone.
  - intros H. apply andb_true_iff in H as [_ H].
    apply andb_true_iff in H as [H2 _].
    destruct (digit_plain c2 H2) as (_ & Hx & HX & _).
    rewrite !Htwo, Hx, HX. now rewrite !andb_false_r.
Qed.

(** Digits read back: what [parseInt] makes of a run of decimal digits. *)
Lemma parseInt_digits ds :
  ds <> [] -> forallb JS.is_digit ds = true ->
  parseInt (JS.str ds) = Some (JSNumber.decimal_val ds 0)
  /\ parseInt (JS.str ("-"%char :: ds)) = Some (- JSNumber.decimal_val ds 0).
Proof.
  intros Hne Hdig. unfold parseInt. rewrite !chars_str.
  destruct ds as [|c r]; [contradiction|].
  pose proof Hdig as Hc. simpl in Hc. apply andb_true_iff in Hc as [Hc _].
  destruct (digit_plain c Hc) as (Hsp & _ & _ & Hsign).
  split.
  - rewrite (drop_space_plain c r Hsp (digit_ascii c Hc)), Hsign.
    cbv beta iota.
    rewrite (digits_no_prefix _ Hdig). now rewrite (span_all _ _ Hdig).
  - rewrite (drop_space_plain "-"%char (c :: r) eq_refl eq_refl).
    change (JSNumber.sign ("-"%char :: c :: r)) with (true, c :: r).
    cbv beta iota.
    rewrite (digits_no_prefix _ Hdig). now rewrite (span_all _ _ Hdig).
Qed.

(** [parseInt] undoes the writing of an integer. *)
Theorem parseInt_toString10 n : parseInt (toString10 n) = Some n.
Proof.
  assert (forall m, 0 <= m ->
            exists ds, dec_pos (Z.to_nat (Z.log2 m) + 1) m [] = ds
                       /\ ds <> [] /\ forallb JS.is_digit ds = true
                       /\ JSNumber.decimal_val ds 0 = m) as Hdigits.
  { intros m Hm.
    destruct (dec_pos_spec (Z.to_nat (Z.log2 m) + 1) m [])
      as (ds & Hds & Hne & Hdig & Hval); [|lia|].
    - split; [lia|].
      destruct (Z.eq_dec m 0) as [->|Hnz]; [reflexivity|].
      pose proof (Z.log2_nonneg m).
      pose proof (Z.log2_spec m ltac:(lia)) as [_ Hlog].
      rewrite Nat2Z.inj_add, Z2Nat.id by lia. change (Z.of_nat 1) with 1.
      eapply Z.lt_le_trans; [exact Hlog|].
      rewrite <- Z.add_1_r. apply Z.pow_le_mono_l. lia.
    - exists ds. rewrite app_nil_r in Hds. repeat split; try assumption.
      rewrite Hval. lia. }
  unfold toString10. destruct (Z.ltb_spec n 0) as [Hneg|Hpos].
  - destruct (Hdigits (- n)) as (ds & -> & Hne & Hdig & Hval); [lia|].
    change ("-" ++ JS.str ds)%string with (JS.str ("-"%char :: ds)).
    rewrite (proj2 (parseInt_digits ds Hne Hdig)), Hval. f_equal. lia.
  - destruct (Hdigits n Hpos) as (ds & -> & Hne & Hdig & Hval).
    now rewrite (proj1 (parseInt_digits ds Hne Hdig)), Hval.
Qed.

Example decimal_examples :
  toString10 8453 = "8453" /\ toString10 0 = "0" /\ toString10 (-12) = "-12"
  /\ parseInt "  42abc" = Some 42 /\ parseInt "0x1F" = Some 31
  /\ parseInt "abc" = None /\ parseInt "" = None /\ parseInt "-7.9" = Some (-7).
Proof. vm_compute. repeat split. Qed.
End DecimalNumerals.

(** ** The verified-token route and the registry behind it *)

Section RouteAndRegistry.
Import Registry VerifiedRoute.

Lemma toString10_truthy n : JS.truthy (Decimal.toString10 n) = true.
Proof.
  apply truthy_nonempty. intros He.
  pose proof (parseInt_toString10 n) as Hp. rewrite He in Hp. discriminate.
Qed.

(** The route answers 200 with an empty token array or 400 with no array; it
    never lists a token.  It answers 200 exactly when [chainId] is present and
    reads as one of the six chain ids and [limit], 1000 when absent, reads as
    a positive number.  Asked with a chain id written in decimal and no
    limit, it answers 200 exactly for the six chain ids. *)
Theorem route_never_lists_a_token chainIdParam limitParam :
  let r := GET chainIdParam limitParam in
  ((status r = 200 /\ tokens r = Some []) \/ (status r = 400 /\ tokens r = None))
  /\ (status r = 200
      <-> chainIdParam <> ""
          /\ (exists n, Decimal.parseInt chainIdParam = Some n
                        /\ In n SUPPORTED_CHAIN_IDS)
          /\ exists l, Decimal.parseInt (JS.or_else limitParam "1000") = Some l
                       /\ 0 < l)
  /\ (forall chainId,
        status (GET (Decimal.toString10 chainId) "") = 200
        <-> In chainId SUPPORTED_CHAIN_IDS).
Proof.
  cbv zeta.
  assert (forall chainId,
            status (GET (Decimal.toString10 chainId) "") = 200
            <-> In chainId SUPPORTED_CHAIN_IDS) as Hdecimal.
  { intros chainId. unfold GET.
    rewrite toString10_truthy, parseInt_toString10. cbn [negb includes].
    destruct (existsb (Z.eqb chainId) SUPPORTED_CHAIN_IDS) eqn:Hin; cbn [negb].
    - split; [|reflexivity]. intros _.
      apply existsb_exists in Hin as (m & Hm & E). apply Z.eqb_eq in E.
      now subst m.
    - split; [discriminate|]. intros Hc.
      assert (existsb (Z.eqb chainId) SUPPORTED_CHAIN_IDS = true); [|congruence].
      apply existsb_exists. exists chainId. split; [exact Hc | apply Z.eqb_refl]. }
  refine ((fun H => conj (proj1 H) (conj (proj2 H) Hdecimal)) _).
  clear Hdecimal.
  unfold GET.
  destruct (JS.truthy chainIdParam) eqn:Ht; simpl.
  2:{ split; [right; auto|]. split; [discriminate|].
      intros (Hne & _). apply truthy_nonempty in Hne. congruence. }
  apply truthy_nonempty in Ht.
  destruct (Decimal.parseInt chainIdParam) as [n|] eqn:Hn; unfold includes.
  2:{ simpl. split; [right; auto|]. split; [discriminate|].
      intros (_ & (m & Hm & _) & _). discriminate Hm. }
  destruct (existsb (Z.eqb n) SUPPORTED_CHAIN_IDS) eqn:Hin; cbn [negb].
  2:{ split; [right; auto|]. split; [discriminate|].
      intros (_ & (m & [= <-] & Hm) & _).
      assert (existsb (Z.eqb n) SUPPORTED_CHAIN_IDS = true); [|congruence].
      apply existsb_exists. exists n. split; [exact Hm | apply Z.eqb_refl]. }
  assert (In n SUPPORTED_CHAIN_IDS) as Hsup.
  { apply existsb_exists in Hin as (m & Hm & E). apply Z.eqb_eq in E.
    now subst m. }
  destruct (Decimal.parseInt (JS.or_else limitParam "1000")) as [l|] eqn:Hl.
  2:{ split; [right; auto|]. split; [discriminate|].
      intros (_ & _ & (l & Hl' & _)). discriminate Hl'. }
  destruct (Z.leb_spec l 0) as [Hle|Hgt]; simpl.
  - split; [right; auto|]. split; [discriminate|].
    intros (_ & _ & (l' & [= <-] & Hpos)). lia.
  - split; [left; auto|]. split; [|reflexivity]. intros _.
    repeat split; eauto.
Qed.

(** White space in front of the chain id is skipped, a no-break space
    (bytes C2 A0) as well as a blank. *)
Example route_skips_white_space :
  status (GET (String (ascii_of_nat 194) (String (ascii_of_nat 160) "8453")) "")
  = 200
  /\ status (GET " 8453" "") = 200 /\ status (GET "8453x" "5") = 200
  /\ status (GET "x8453" "") = 400 /\ status (GET "8453" "0") = 400.
Proof. vm_compute. repeat split. Qed.

(** What the hook's own request gets: an empty list for the six chains of
    the table, a refusal for every other chain id. *)
Lemma request_answer chainId :
  request chainId
  = if existsb (Z.eqb chainId) SUPPORTED_CHAIN_IDS
    then Json (Some [])
    else NotOk "Unsupported chain ID".
Proof.
  unfold request, GET. rewrite toString10_truthy, parseInt_toString10.
  unfold includes. cbn [negb].
  destruct (existsb (Z.eqb chainId) SUPPORTED_CHAIN_IDS); reflexivity.
Qed.

Lemma all_empty_put now chainId status (c : Cache) :
  all_empty c ->
  all_empty (VersionedCache.put now chainId (∅, status) c).
Proof.
  intros Hc k e. unfold VersionedCache.put. simpl.
  destruct (decide (chainId = k)) as [->|Hne].
  - rewrite lookup_insert_eq. now intros [= <-].
  - rewrite lookup_insert_ne by exact Hne. apply Hc.
Qed.

(** Served by the application's own route, the registry never holds an
    address: from the empty cache on, through fetches for any chains and
    invalidations, every cached set is empty, and after each fetch the
    registry is ready and verifies every address.  On a cache miss its status
    is working for the six chains of the route's table and failed for every
    other chain. *)
Theorem registry_behind_route_verifies_all :
  all_empty VersionedCache.empty /\
  (forall c, all_empty c -> all_empty (invalidateVerifiedTokensCache c)) /\
  (forall chainId now now' c h,
     all_empty c ->
     let c' := fst (fetchVerifiedTokens chainId now now' (request chainId) c h) in
     let h' := snd (fetchVerifiedTokens chainId now now' (request chainId) c h) in
     all_empty c' /\ isReady h' = true /\
     (forall tokenAddress, isTokenVerified h' tokenAddress = true) /\
     (VersionedCache.get now chainId c = None ->
        apiStatus h' = if existsb (Z.eqb chainId) SUPPORTED_CHAIN_IDS
                       then working else failed)).
Proof.
  split; [|split].
  - intros k e He. discriminate He.
  - intros c Hc k e He. exact (Hc k e He).
  - intros chainId now now' c h Hc. cbv zeta.
    rewrite request_answer. unfold fetchVerifiedTokens.
    destruct (VersionedCache.get now chainId c) as [[set status]|] eqn:Hget.
    + simpl. split; [exact Hc|]. split; [reflexivity|]. split; [|discriminate].
      intros tokenAddress. apply isTokenVerified_empty; simpl.
      * reflexivity.
      * unfold VersionedCache.get in Hget.
        destruct (VersionedCache.cache c !! chainId) as [e|] eqn:He;
          [|discriminate].
        destruct (_ && _); [|discriminate]. injection Hget as Hd.
        apply (f_equal fst) in Hd. simpl in Hd. rewrite <- Hd.
        exact (Hc chainId e He).
      * destruct status; discriminate.
    + destruct (existsb (Z.eqb chainId) SUPPORTED_CHAIN_IDS); simpl.
      * split; [now apply all_empty_put|]. split; [reflexivity|].
        split; [|reflexivity]. intros tokenAddress.
        now apply isTokenVerified_empty.
      * assert (match VersionedCache.cache c !! chainId with
                | Some e => (VersionedCache.data e).1
                | None => ∅
                end = (∅ : gset string)) as Hprev.
        { destruct (VersionedCache.cache c !! chainId) as [e|] eqn:He;
            [exact (Hc chainId e He) | reflexivity]. }
        assert (match VersionedCache.cache c !! chainId with
                | Some e => if (0 <? size (VersionedCache.data e).1)%nat
                            then (VersionedCache.data e).1 else ∅
                | None => ∅
                end = (∅ : gset string)) as Hnow.
        { destruct (VersionedCache.cache c !! chainId) as [e|] eqn:He;
            [|reflexivity].
          rewrite (Hc chainId e He), size_empty. reflexivity. }
        rewrite Hprev, Hnow.
        split; [now apply all_empty_put|]. split; [reflexivity|].
        split; [|reflexivity]. intros tokenAddress.
        now apply isTokenVerified_empty.
Qed.

Lemma registry_behind_route_verifies_all_witness :
  let h' := snd (fetchVerifiedTokens 11155111 0 1 (request 11155111)
                   VersionedCache.empty initial) in
  apiStatus h' = failed /\
  isTokenVerified h' "0x833589fCD6eDb6E08f4c7C32D4f71b54bdA02913" = true.
Proof.
  destruct registry_behind_route_verifies_all as (Hinit & _ & Hstep).
  destruct (Hstep 11155111 0 1 VersionedCache.empty initial Hinit)
    as (_ & _ & Hall & Hstatus).
  cbv zeta. split; [|apply Hall].
  rewrite (Hstatus eq_refl). reflexivity.
Defined.
End RouteAndRegistry.

(** ** Requests with key rotation *)

Section KeyRotation.
Import Moralis.
Context {J : Type}.
Implicit Types (server : Server J) (keys trace : list string) (m : nat).

Lemma key_scoped_not_ok (res : HttpResponse J) :
  key_scoped (status res) = true -> ok res = false.
Proof.
  unfold key_scoped, ok. rewrite !orb_true_iff, !Z.eqb_eq.
  intros [[->| ->]| ->]; reflexivity.
Qed.

Lemma all_failed_snoc server trace key res :
  all_failed server trace -> server (length trace) key = Some res ->
  ok res = false -> all_failed server (trace ++ [key]).
Proof.
  intros Hall Hs Hok i k Hi.
  destruct (Nat.lt_ge_cases i (length trace)) as [Hlt|Hge].
  - rewrite nth_error_app1 in Hi by exact Hlt. now apply Hall.
  - rewrite nth_error_app2 in Hi by exact Hge.
    destruct (i - length trace)%nat as [|j] eqn:Ej; simpl in Hi.
    + injection Hi as <-. replace i with (length trace) by lia. eauto.
    + destruct j; discriminate.
Qed.

(** One key: between one and [m + 1] requests, all with that key, all but
    the last answered with a failure, and the last one deciding. *)
Lemma tryKey_spec server key m : forall trace o trace',
  all_failed server trace ->
  tryKey server key m trace = (o, trace') ->
  exists n t,
    (n <= m)%nat /\ t = (trace ++ repeat key n)%list /\
    trace' = (t ++ [key])%list /\ all_failed server t /\
    match o with
    | Some Rejects => server (length t) key = None
    | Some (Resolves (Ok data)) =>
        exists res, server (length t) key = Some res /\ ok res = true
                    /\ json res = Some data
    | Some (Resolves (Err s st e)) =>
        exists res, server (length t) key = Some res /\
          ((ok res = true /\ json res = None /\ s = 500)
           \/ (ok res = false /\ key_scoped (status res) = false
               /\ (transient (status res) = true -> n = m)
               /\ s = status res /\ st = statusText res /\ e = text res))
    | None =>
        exists res, server (length t) key = Some res
                    /\ key_scoped (status res) = true
    end.
Proof.
  induction m as [|m IH]; intros trace o trace' Hall H; simpl in H.
  - exists 0%nat, trace. simpl. rewrite app_nil_r.
    destruct (server (length trace) key) as [res|] eqn:Hs.
    + destruct (ok res) eqn:Hok.
      * injection H as <- <-. repeat split; auto.
        destruct (json res) eqn:Hj; eauto 10.
      * destruct (key_scoped (status res)) eqn:Hk; injection H as <- <-;
          repeat split; eauto 12.
    + injection H as <- <-. repeat split; auto.
  - destruct (server (length trace) key) as [res|] eqn:Hs.
    + destruct (ok res) eqn:Hok.
      * injection H as <- <-. exists 0%nat, trace. simpl. rewrite app_nil_r.
        repeat split; auto; [lia|]. destruct (json res) eqn:Hj; eauto 10.
      * destruct (key_scoped (status res)) eqn:Hk.
        { injection H as <- <-. exists 0%nat, trace. simpl.
          rewrite app_nil_r. repeat split; eauto; lia. }
        destruct (transient (status res)) eqn:Ht.
        { apply IH in H as (n & t & Hn & -> & -> & Hall' & Ho).
          - exists (S n), (trace ++ repeat key (S n))%list.
            assert ((trace ++ [key]) ++ repeat key n
                    = trace ++ repeat key (S n))%list as Heq.
            { now rewrite <- app_assoc. }
            rewrite Heq in *. repeat split; auto; [lia|].
            destruct o as [[|[data|s st e]]|]; auto.
            destruct Ho as (res' & Hs' & [Hl|(H1 & H2 & H3 & H4)]);
              exists res'; split; auto.
            right. repeat split; try tauto. intros Htr. rewrite (H3 Htr); auto.
          - now apply (all_failed_snoc _ _ _ res). }
        injection H as <- <-. exists 0%nat, trace. simpl. rewrite app_nil_r.
        repeat split; auto; [lia|]. exists res. split; [exact Hs|]. right.
        repeat split; auto. congruence.
    + injection H as <- <-. exists 0%nat, trace. simpl. rewrite app_nil_r.
      repeat split; auto. lia.
Qed.
(** The requests made with [keys] when key [i] is used [counts_i] times. *)
Lemma blocks_length keys : forall (counts : list nat) m,
  Forall (fun c => (c <= S m)%nat) counts ->
  (length (concat (map (fun p => repeat (fst p) (snd p)) (combine keys counts)))
   <= length keys * S m)%nat.
Proof.
  induction keys as [|k keys IH]; intros counts m Hc; [simpl; lia|].
  destruct counts as [|c counts]; [simpl; lia|].
  inversion Hc as [|? ? Hc1 Hc2]; subst. simpl combine. simpl map.
  simpl concat. rewrite length_app, repeat_length.
  specialize (IH counts m Hc2). simpl in *. lia.
Qed.

Lemma overKeys_spec server m : forall keys trace o trace',
  all_failed server trace ->
  overKeys server keys m trace = (o, trace') ->
  exists counts,
    (length counts <= length keys)%nat /\
    Forall (fun c => (1 <= c <= S m)%nat) counts /\
    trace' = (trace ++ concat (map (fun p => repeat (fst p) (snd p))
                                   (combine keys counts)))%list /\
    (forall data, o = Resolves (Ok data) ->
       exists t key res,
         trace' = (t ++ [key])%list /\ all_failed server t /\ In key keys /\
         server (length t) key = Some res /\ ok res = true
         /\ json res = Some data) /\
    (forall st e, o = Resolves (Err 429 st e) ->
       length counts = length keys /\ all_failed server trace').
Proof.
  induction keys as [|k keys IH]; intros trace o trace' Hall H; simpl in H.
  - injection H as <- <-. exists []. simpl. rewrite app_nil_r.
    repeat split; auto; discriminate.
  - destruct (tryKey server k m trace) as [[o1|] t1] eqn:Htry.
    + injection H as <- <-.
      destruct (tryKey_spec server k m trace _ _ Hall Htry)
        as (n & t & Hn & Ht & -> & Hall' & Ho).
      exists [S n]. simpl. rewrite combine_nil. simpl. rewrite app_nil_r.
      assert (t ++ [k] = trace ++ k :: repeat k n)%list as Heq.
      { rewrite Ht, <- app_assoc. f_equal. symmetry. apply repeat_cons. }
      split; [lia|]. split; [constructor; [lia | constructor]|].
      split; [exact Heq|]. split.
      * intros data ->. destruct Ho as (res & Hs & Hok & Hj).
        exists t, k, res. repeat split; auto.
      * intros st e ->. exfalso.
        destruct Ho as (res & Hs & [(_ & _ & H5)|H']); [discriminate|].
        destruct H' as (_ & Hk & _ & Hst & _). rewrite <- Hst in Hk.
        discriminate.
    + destruct (tryKey_spec server k m trace _ _ Hall Htry)
        as (n & t & Hn & Ht & -> & Hall' & (res & Hs & Hk)).
      assert (all_failed server (t ++ [k])) as Hall''.
      { apply (all_failed_snoc _ _ _ res); auto.
        now apply key_scoped_not_ok. }
      destruct (IH _ _ _ Hall'' H) as (counts & Hlen & Hc & Htr & Hok & Hex).
      exists (S n :: counts). simpl.
      split; [lia|]. split; [constructor; [lia | exact Hc]|]. split.
      { rewrite Htr, Ht, <- !app_assoc. f_equal. simpl.
        rewrite app_comm_cons, repeat_cons, <- app_assoc. reflexivity. }
      split.
      * intros data Hd. destruct (Hok data Hd) as (t' & key & r' & H').
        exists t', key, r'. intuition.
      * intros st e He. destruct (Hex st e He) as [Hl Ha]. split; [|exact Ha].
        now rewrite Hl.
Qed.

(** The requests of one call come in blocks, one block for each key of a
    prefix of the keys, in the order of the keys, a block holding between one
    and maxRetriesPerKey + 1 requests: no key is returned to, none is used
    before its turn, and with no key there is no request at all. *)
Theorem requests_follow_the_keys server keys maxRetriesPerKey o trace :
  fetchWithKeys server keys maxRetriesPerKey = (o, trace) ->
  (exists counts,
     (length counts <= length keys)%nat /\
     Forall (fun c => (1 <= c <= S (retries maxRetriesPerKey))%nat) counts /\
     trace = concat (map (fun p => repeat (fst p) (snd p)) (combine keys counts)))
  /\ (length trace <= length keys * S (retries maxRetriesPerKey))%nat
  /\ (keys = [] ->
      trace = [] /\ o = Resolves (Err 500 "No Moralis API keys configured" None)).
Proof.
  intros H.
  assert (exists counts,
            (length counts <= length keys)%nat /\
            Forall (fun c => (1 <= c <= S (retries maxRetriesPerKey))%nat) counts /\
            trace = concat (map (fun p => repeat (fst p) (snd p))
                                (combine keys counts))) as Hblocks.
  { destruct keys as [|k keys].
    - injection H as <- <-. exists []. repeat split; auto.
    - unfold fetchWithKeys in H. fold (retries maxRetriesPerKey) in H.
      apply overKeys_spec in H as (counts & Hlen & Hc & Htr & _).
      + exists counts. auto.
      + intros i key Hi. destruct i; discriminate. }
  split; [exact Hblocks|]. split.
  - destruct Hblocks as (counts & _ & Hc & ->). apply blocks_length.
    eapply Forall_impl; [exact Hc|]. simpl. intros c Hc'. lia.
  - intros ->. now injection H as <- <-.
Qed.

(** A call resolves with data only on the first 2xx answer it gets: every
    request before the last was answered with a failure, and the data are the
    body of the last. *)
Theorem success_is_first_ok server keys maxRetriesPerKey data trace :
  fetchWithKeys server keys maxRetriesPerKey = (Resolves (Ok data), trace) ->
  exists t key res,
    trace = (t ++ [key])%list /\ all_failed server t /\ In key keys /\
    server (length t) key = Some res /\ ok res = true /\ json res = Some data.
Proof.
  intros H. destruct keys as [|k keys]; [discriminate|].
  unfold fetchWithKeys in H.
  apply overKeys_spec in H as (counts & _ & _ & _ & Hok & _).
  - now apply Hok.
  - intros i key Hi. destruct i; discriminate.
Qed.

Lemma tryKey_key_scoped server key m trace :
  (forall i k, exists res, server i k = Some res
                           /\ key_scoped (status res) = true) ->
  tryKey server key m trace = (None, (trace ++ [key])%list).
Proof.
  intros Hs. destruct (Hs (length trace) key) as (res & Hres & Hk).
  destruct m; simpl; rewrite Hres, (key_scoped_not_ok _ Hk), Hk; reflexivity.
Qed.

(** When every answer is 401, 403 or 429, each key is tried exactly once, in
    order, without a retry, and the call resolves with status 429, keys
    exhausted. *)
Theorem rejected_keys_are_tried_once server keys maxRetriesPerKey :
  keys <> [] ->
  (forall i k, exists res, server i k = Some res
                           /\ key_scoped (status res) = true) ->
  fetchWithKeys server keys maxRetriesPerKey
  = (Resolves (Err 429 "All Moralis API keys exhausted or rate-limited" None),
     keys).
Proof.
  intros Hne Hs.
  assert (forall ks trace,
            overKeys server ks (retries maxRetriesPerKey) trace
            = (Resolves (Err 429 "All Moralis API keys exhausted or rate-limited"
                             None), (trace ++ ks)%list)) as Hover.
  { induction ks as [|k ks IH]; intros trace; simpl.
    - now rewrite app_nil_r.
    - rewrite (tryKey_key_scoped _ _ _ _ Hs), IH, <- app_assoc. reflexivity. }
  destruct keys as [|k keys]; [contradiction|].
  unfold fetchWithKeys. fold (retries maxRetriesPerKey). now rewrite Hover.
Qed.

Lemma tryKey_same server (res : HttpResponse J) key m : forall trace,
  (forall i k, server i k = Some res) ->
  ok res = false -> key_scoped (status res) = false ->
  tryKey server key m trace
  = (Some (Resolves (Err (status res) (statusText res) (text res))),
     (trace ++ repeat key (if transient (status res) then S m else 1))%list).
Proof.
  induction m as [|m IH]; intros trace Hs Hok Hk; simpl; rewrite Hs, Hok, Hk.
  - now destruct (transient (status res)).
  - destruct (transient (status res)) eqn:Ht; [|reflexivity].
    rewrite IH by assumption. rewrite <- app_assoc. reflexivity.
Qed.

Lemma chained_prefix server trace key :
  chained server (trace ++ [key]) -> chained server trace.
Proof.
  intros H i k k' Hi Hi'. apply (H i k k').
  - rewrite nth_error_app1; [exact Hi|]. apply nth_error_Some. congruence.
  - rewrite nth_error_app1; [exact Hi'|]. apply nth_error_Some. congruence.
Qed.

Lemma chained_snoc server trace key next res :
  chained server (trace ++ [key]) ->
  server (length trace) key = Some res -> ok res = false ->
  key_scoped (status res) = true
  \/ (transient (status res) = true /\ next = key) ->
  chained server ((trace ++ [key]) ++ [next]).
Proof.
  intros H Hs Hok Hwhy i k k' Hi Hi'.
  destruct (Nat.lt_ge_cases i (length trace)) as [Hlt|Hge].
  - apply (H i k k').
    + rewrite nth_error_app1 in Hi; [exact Hi|]. rewrite length_app. simpl. lia.
    + rewrite nth_error_app1 in Hi'; [exact Hi'|]. rewrite length_app. simpl. lia.
  - assert (S i < length ((trace ++ [key]) ++ [next]))%nat as Hlen
      by (apply nth_error_Some; congruence).
    rewrite !length_app in Hlen. simpl in Hlen.
    assert (i = length trace) as -> by lia.
    rewrite nth_error_app1 in Hi by (rewrite length_app; simpl; lia).
    rewrite nth_error_app2, Nat.sub_diag in Hi by lia. injection Hi as <-.
    rewrite nth_error_app2 in Hi' by (rewrite length_app; simpl; lia).
    rewrite length_app in Hi'. simpl in Hi'.
    replace (S (length trace) - (length trace + 1))%nat with 0%nat in Hi' by lia.
    injection Hi' as <-. exists res. auto.
Qed.

(** One key: its requests are chained to those before, and a [break] leaves
    the trace open to any next key. *)
Lemma tryKey_chained server key m : forall trace o trace',
  chained server (trace ++ [key]) ->
  tryKey server key m trace = (o, trace') ->
  chained server trace' /\
  (o = None -> forall next, chained server (trace' ++ [next])).
Proof.
  induction m as [|m IH]; intros trace o trace' Hc H; simpl in H.
  - destruct (server (length trace) key) as [res|] eqn:Hs.
    + destruct (ok res) eqn:Hok.
      * injection H as <- <-. split; [exact Hc | discriminate].
      * destruct (key_scoped (status res)) eqn:Hk; injection H as <- <-.
        { split; [exact Hc|]. intros _ next.
          apply (chained_snoc _ _ _ _ res); auto. }
        split; [exact Hc | discriminate].
    + injection H as <- <-. split; [exact Hc | discriminate].
  - destruct (server (length trace) key) as [res|] eqn:Hs.
    + destruct (ok res) eqn:Hok.
      * injection H as <- <-. split; [exact Hc | discriminate].
      * destruct (key_scoped (status res)) eqn:Hk.
        { injection H as <- <-. split; [exact Hc|]. intros _ next.
          apply (chained_snoc _ _ _ _ res); auto. }
        destruct (transient (status res)) eqn:Ht.
        { apply IH in H; [exact H|].
          apply (chained_snoc _ _ _ _ res); auto. }
        injection H as <- <-. split; [exact Hc | discriminate].
    + injection H as <- <-. split; [exact Hc | discriminate].
Qed.

Lemma overKeys_chained server m : forall keys trace o trace',
  (forall next, chained server (trace ++ [next])) ->
  overKeys server keys m trace = (o, trace') ->
  chained server trace'.
Proof.
  induction keys as [|k keys IH]; intros trace o trace' Hc H; simpl in H.
  - injection H as <- <-. exact (chained_prefix _ _ _ (Hc ""%string)).
  - destruct (tryKey server k m trace) as [[o1|] t1] eqn:Htry.
    + injection H as <- <-.
      exact (proj1 (tryKey_chained _ _ _ _ _ _ (Hc k) Htry)).
    + apply (IH _ _ _ (proj2 (tryKey_chained _ _ _ _ _ _ (Hc k) Htry) eq_refl) H).
Qed.

(** A failure that is not 401, 403 or 429 never leads to a change of key:
    whatever the server answers, a request that is followed by another was
    answered with a failure, either 401, 403 or 429, or a status in 500-599
    after which the next request uses the same key again.  Against a server
    that keeps answering with one failure other than 401, 403 and 429, only
    the first key is used: once for a status outside 500-599, and
    maxRetriesPerKey + 1 times for a status in 500-599, after which that
    status is returned although further keys are configured. *)
Theorem server_error_is_not_rotated server keys maxRetriesPerKey o trace :
  fetchWithKeys server keys maxRetriesPerKey = (o, trace) ->
  (forall i k k',
     nth_error trace i = Some k -> nth_error trace (S i) = Some k' ->
     exists res, server i k = Some res /\ ok res = false /\
       (key_scoped (status res) = true
        \/ (transient (status res) = true /\ k' = k))) /\
  (forall res key rest,
     keys = key :: rest -> (forall i k, server i k = Some res) ->
     ok res = false -> key_scoped (status res) = false ->
     o = Resolves (Err (status res) (statusText res) (text res)) /\
     trace = repeat key (if transient (status res)
                         then S (retries maxRetriesPerKey) else 1)).
Proof.
  intros H. split.
  - destruct keys as [|k keys].
    + injection H as <- <-. intros i k k' Hi. destruct i; discriminate.
    + unfold fetchWithKeys in H. fold (retries maxRetriesPerKey) in H.
      apply (overKeys_chained _ _ _ _ _ _) in H; [exact H|].
      intros next i k1 k2 Hi Hi'. simpl in Hi'. destruct i; discriminate.
  - intros res key rest -> Hs Hok Hk.
    unfold fetchWithKeys in H. fold (retries maxRetriesPerKey) in H.
    simpl overKeys in H. rewrite (tryKey_same _ res) in H by assumption.
    now injection H as <- <-.
Qed.

(** Rotation reaches a working key: when the keys in front of it are answered
    with 401, 403 or 429 and it is answered with a 2xx and a JSON body, the
    call resolves with that body after one request for each of those keys. *)
Theorem rotation_reaches_working_key server bad good rest maxRetriesPerKey
    res data :
  (forall i k, In k bad -> exists r, server i k = Some r
                                     /\ key_scoped (status r) = true) ->
  server (length bad) good = Some res -> ok res = true ->
  json res = Some data ->
  fetchWithKeys server (bad ++ good :: rest) maxRetriesPerKey
  = (Resolves (Ok data), (bad ++ [good])%list).
Proof.
  intros Hbad Hgood Hok Hj.
  assert (forall ks trace,
            (forall i k, In k ks -> exists r, server i k = Some r
                                              /\ key_scoped (status r) = true) ->
            server (length (trace ++ ks)) good = Some res ->
            overKeys server (ks ++ good :: rest) (retries maxRetriesPerKey) trace
            = (Resolves (Ok data), ((trace ++ ks) ++ [good])%list)) as Hover.
  { induction ks as [|k ks IH]; intros trace Hks Hg.
    - rewrite app_nil_r in *. simpl.
      assert (tryKey server good (retries maxRetriesPerKey) trace
              = (Some (Resolves (Ok data)), (trace ++ [good])%list)) as ->.
      { destruct (retries maxRetriesPerKey); simpl; now rewrite Hg, Hok, Hj. }
      reflexivity.
    - simpl.
      destruct (Hks (length trace) k (or_introl eq_refl)) as (r & Hr & Hk).
      assert (tryKey server k (retries maxRetriesPerKey) trace
              = (None, (trace ++ [k])%list)) as ->.
      { destruct (retries maxRetriesPerKey); simpl;
          now rewrite Hr, (key_scoped_not_ok _ Hk), Hk. }
      rewrite IH.
      + now rewrite <- !app_assoc.
      + intros i k' Hk'. apply Hks. now right.
      + now rewrite <- app_assoc. }
  unfold fetchWithKeys. fold (retries maxRetriesPerKey).
  specialize (Hover bad [] Hbad Hgood). simpl in Hover.
  destruct (bad ++ good :: rest)%list eqn:E; [now destruct bad|].
  exact Hover.
Qed.
End KeyRotation.

Lemma requests_follow_the_keys_witness :
  (length (snd (Moralis.fetchWithKeys (Moralis.always (Moralis.plain 503))
                  ["k1"; "k2"] None)) <= 2 * 2)%nat.
Proof.
  destruct (Moralis.fetchWithKeys (Moralis.always (Moralis.plain 503))
              ["k1"; "k2"] None) as [o trace] eqn:E.
  exact (proj1 (proj2 (requests_follow_the_keys _ _ _ _ _ E))).
Defined.

Lemma success_is_first_ok_witness :
  let server := fun (_ : nat) k =>
    Some (Moralis.plain (if String.eqb k "k2" then 200 else 401)) in
  exists t key res,
    ["k1"; "k2"] = (t ++ [key])%list /\ Moralis.all_failed server t /\
    In key ["k1"; "k2"; "k3"] /\ server (length t) key = Some res /\
    Moralis.ok res = true /\ Moralis.json res = Some 7%nat.
Proof.
  cbv zeta.
  apply (success_is_first_ok _ ["k1"; "k2"; "k3"] None 7%nat ["k1"; "k2"]).
  reflexivity.
Defined.

Lemma rejected_keys_are_tried_once_witness :
  Moralis.fetchWithKeys (Moralis.always (Moralis.plain 429))
    ["k1"; "k2"; "k3"] (Some 5%nat)
  = (Moralis.Resolves
       (Moralis.Err 429 "All Moralis API keys exhausted or rate-limited" None),
     ["k1"; "k2"; "k3"]).
Proof.
  apply rejected_keys_are_tried_once; [discriminate|].
  intros i k. exists (Moralis.plain 429). split; reflexivity.
Defined.

Lemma server_error_is_not_rotated_witness :
  Moralis.fetchWithKeys (Moralis.always (Moralis.plain 503))
    ["k1"; "k2"] (Some 2%nat)
  = (Moralis.Resolves (Moralis.Err 503 "status" (Some "body")),
     ["k1"; "k1"; "k1"]).
Proof.
  destruct (Moralis.fetchWithKeys (Moralis.always (Moralis.plain 503))
              ["k1"; "k2"] (Some 2%nat)) as [o trace] eqn:E.
  destruct (server_error_is_not_rotated _ _ _ _ _ E) as [_ H].
  destruct (H (Moralis.plain 503) "k1" ["k2"] eq_refl (fun _ _ => eq_refl)
              eq_refl eq_refl) as [-> ->].
  reflexivity.
Defined.

Lemma rotation_reaches_working_key_witness :
  let server := fun (_ : nat) k =>
    Some (Moralis.plain (if String.eqb k "k3" then 200 else 403)) in
  Moralis.fetchWithKeys server ["k1"; "k2"; "k3"; "k4"] None
  = (Moralis.Resolves (Moralis.Ok 7%nat), ["k1"; "k2"; "k3"]).
Proof.
  cbv zeta.
  apply (rotation_reaches_working_key _ ["k1"; "k2"] "k3" ["k4"] None
           (Moralis.plain 200) 7%nat); try reflexivity.
  intros i k [<-|[<-|[]]]; exists (Moralis.plain 403); split; reflexivity.
Defined.

(** ** The configured API keys *)

Section ApiKeyList.
Import ApiKeys.

Lemma existsb_eqb_In (x : string) (seen : list string) :
  existsb (String.eqb x) seen = true <-> In x seen.
Proof.
  rewrite existsb_exists. split.
  - intros (y & Hy & He). apply String.eqb_eq in He. now subst.
  - intros H. exists x. split; [exact H | apply String.eqb_refl].
Qed.

Lemma dedupe_In (l : list string) : forall seen x,
  In x (dedupe seen l) <-> In x l /\ ~ In x seen.
Proof.
  induction l as [|a r IH]; intros seen x; simpl; [tauto|].
  destruct (existsb (String.eqb a) seen) eqn:E.
  - apply existsb_eqb_In in E. rewrite IH. split.
    + tauto.
    + intros [[<-|H] Hn]; [contradiction | tauto].
  - assert (~ In a seen) as Ha.
    { intros H. apply existsb_eqb_In in H. congruence. }
    simpl. rewrite IH. simpl. split.
    + intros [<-|[H Hn]]; tauto.
    + intros [[<-|H] Hn]; [tauto|].
      destruct (String.string_dec a x) as [<-|Hne]; tauto.
Qed.

Lemma dedupe_NoDup (l : list string) : forall seen, List.NoDup (dedupe seen l).
Proof.
  induction l as [|a r IH]; intros seen; simpl; [constructor|].
  destruct (existsb (String.eqb a) seen); [apply IH|].
  constructor; [|apply IH].
  rewrite dedupe_In. simpl. tauto.
Qed.

Lemma truthy_iff (s : string) : JS.truthy s = true <-> s <> "".
Proof.
  unfold JS.truthy. rewrite negb_true_iff. split.
  - intros H ->. discriminate.
  - intros H. destruct (String.eqb_spec s ""); congruence.
Qed.

Lemma keysFromList_nonempty env k : In k (keysFromList env) -> k <> "".
Proof.
  unfold keysFromList. rewrite filter_In. intros [_ H] ->. discriminate.
Qed.

(** The keys of the server hold no duplicate and no empty string; they are
    the non-empty trimmed pieces of MORALIS_API_KEYS, the primary key
    (MORALIS_PRIMARY_API_KEY, else MORALIS_API_KEY) and the backup key
    (MORALIS_FALLBACK_API_KEY, else MORALIS_API_KEY_BACKUP), the latter two
    as they are given; a first piece of the list is the first key; and there
    is no key exactly when the list gives none and the four other variables
    are unset or empty. *)
Theorem api_keys_distinct_and_nonempty env :
  List.NoDup (getMoralisApiKeys env) /\
  (forall k, In k (getMoralisApiKeys env) <->
     k <> "" /\ (In k (keysFromList env) \/ k = primary env \/ k = backup env)) /\
  (forall k r, keysFromList env = k :: r ->
     hd_error (getMoralisApiKeys env) = Some k) /\
  (getMoralisApiKeys env = [] <->
     keysFromList env = [] /\
     MORALIS_PRIMARY_API_KEY env = "" /\ MORALIS_API_KEY env = "" /\
     MORALIS_FALLBACK_API_KEY env = "" /\ MORALIS_API_KEY_BACKUP env = "").
Proof.
  assert (forall k, In k (getMoralisApiKeys env) <->
     k <> "" /\ (In k (keysFromList env) \/ k = primary env \/ k = backup env))
    as Hin.
  { intros k. unfold getMoralisApiKeys. cbv zeta. rewrite dedupe_In, !in_app_iff.
    pose proof (keysFromList_nonempty env k) as Hl.
    pose proof (truthy_iff (primary env)) as Hp.
    pose proof (truthy_iff (backup env)) as Hb.
    destruct (JS.truthy (primary env)), (JS.truthy (backup env)); simpl;
      split.
    all: try (intros [[H|[[H|[]]|[H|[]]]] _]; subst;
              intuition congruence).
    all: try (intros [[H|[[H|[]]|[]]] _]; subst; intuition congruence).
    all: try (intros [[H|[[]|[H|[]]]] _]; subst; intuition congruence).
    all: try (intros [[H|[[]|[]]] _]; subst; intuition congruence).
    all: intros [Hk [H|[H|H]]]; subst; split; try tauto.
    all: try (right; left; left; reflexivity).
    all: try (right; right; left; reflexivity).
    all: try (exfalso; apply Hk;
              destruct (String.string_dec (primary env) "") as [e|e];
              [exact e | exfalso; intuition congruence]).
    all: try (exfalso; apply Hk;
              destruct (String.string_dec (backup env) "") as [e|e];
              [exact e | exfalso; intuition congruence]). }
  split; [apply dedupe_NoDup|]. split; [exact Hin|]. split.
  - intros k r Hk. unfold getMoralisApiKeys. cbv zeta. rewrite Hk. reflexivity.
  - assert (forall a b, JS.or_else a b = "" <-> a = "" /\ b = "") as Hor.
    { intros a b. unfold JS.or_else. pose proof (truthy_iff a) as Ha.
      destruct (JS.truthy a).
      - split; [intros H; exfalso; apply (proj1 Ha eq_refl H)|].
        intros [H _]. exact H.
      - split; [intros H; split; [|exact H]|intros [_ H]; exact H].
        destruct (String.string_dec a "") as [e|e]; [exact e|].
        apply Ha in e. discriminate. }
    split.
    + intros He.
      assert (forall k, ~ In k (getMoralisApiKeys env)) as Hno.
      { intros k. rewrite He. auto. }
      assert (keysFromList env = []) as Hl.
      { destruct (keysFromList env) as [|k r] eqn:E; [reflexivity|].
        exfalso. apply (Hno k). apply Hin. split.
        - apply (keysFromList_nonempty env). rewrite E. now left.
        - left. now left. }
      assert (primary env = "") as Hp.
      { destruct (String.string_dec (primary env) "") as [e|e]; [exact e|].
        exfalso. apply (Hno (primary env)). apply Hin. tauto. }
      assert (backup env = "") as Hb.
      { destruct (String.string_dec (backup env) "") as [e|e]; [exact e|].
        exfalso. apply (Hno (backup env)). apply Hin. tauto. }
      apply Hor in Hp, Hb. tauto.
    + intros (Hl & H1 & H2 & H3 & H4).
      unfold getMoralisApiKeys, primary, backup. cbv zeta.
      rewrite Hl, H1, H2, H3, H4. reflexivity.
Qed.
End ApiKeyList.

(** ** The configured keys behind the requests *)

Section KeysAndRequests.
Import Moralis ApiKeys.
Context {J : Type}.

Lemma blocks_In (keys : list string) : forall (counts : list nat) k,
  In k (concat (map (fun p => repeat (fst p) (snd p)) (combine keys counts))) ->
  In k keys.
Proof.
  induction keys as [|a keys IH]; intros counts k H; [contradiction|].
  destruct counts as [|c counts]; [contradiction|].
  simpl in H. apply in_app_or in H as [H|H].
  - left. symmetry. exact (repeat_spec _ _ _ H).
  - right. exact (IH _ _ H).
Qed.

Lemma blocks_count (keys : list string) : forall (counts : list nat) m k,
  List.NoDup keys -> Forall (fun c => (c <= S m)%nat) counts ->
  (count_occ String.string_dec
     (concat (map (fun p => repeat (fst p) (snd p)) (combine keys counts))) k
   <= S m)%nat.
Proof.
  induction keys as [|a keys IH]; intros counts m k Hnd Hc; [simpl; lia|].
  destruct counts as [|c counts]; [simpl; lia|].
  inversion Hnd as [|? ? Ha Hnd']; subst.
  inversion Hc as [|? ? Hc1 Hc2]; subst.
  simpl. rewrite count_occ_app.
  destruct (String.string_dec k a) as [->|Hne].
  - rewrite count_occ_repeat_eq by reflexivity.
    assert (count_occ String.string_dec
              (concat (map (fun p => repeat (fst p) (snd p))
                           (combine keys counts))) a = 0%nat) as ->.
    { apply count_occ_not_In. intros H. apply Ha. exact (blocks_In _ _ _ H). }
    lia.
  - rewrite count_occ_repeat_neq by exact Hne. simpl.
    exact (IH counts m k Hnd' Hc2).
Qed.

Lemma tryKey_length (server : Server J) key m : forall trace o trace',
  tryKey server key m trace = (o, trace') ->
  (length trace < length trace')%nat.
Proof.
  induction m as [|m IH]; intros trace o trace' H; simpl in H;
    destruct (server (length trace) key) as [res|];
    try destruct (ok res); try destruct (key_scoped (status res));
    try destruct (transient (status res));
    try (injection H as <- <-; rewrite length_app; simpl; lia).
  apply IH in H. rewrite length_app in H. simpl in H. lia.
Qed.

Lemma overKeys_length (server : Server J) m : forall keys trace o trace',
  overKeys server keys m trace = (o, trace') ->
  (length trace <= length trace')%nat /\
  (keys <> [] -> (length trace < length trace')%nat).
Proof.
  induction keys as [|k keys IH]; intros trace o trace' H; simpl in H.
  - injection H as <- <-. split; [lia|contradiction].
  - destruct (tryKey server k m trace) as [[o1|] t1] eqn:Htry;
      apply tryKey_length in Htry.
    + injection H as <- <-. split; [lia|intros _; exact Htry].
    + apply IH in H as [H _]. split; [lia|intros _; lia].
Qed.

(** One call of [fetchMoralisJson] sends only configured keys, hence no
    empty key, sends no key more than maxRetriesPerKey + 1 times, and makes
    no request exactly when no key is configured, in which case it resolves
    with status 500. *)
Theorem each_key_within_its_budget env (server : Server J) maxRetriesPerKey
    o trace :
  fetchMoralisJson env server maxRetriesPerKey = (o, trace) ->
  (forall k, In k trace -> In k (getMoralisApiKeys env) /\ k <> "") /\
  (forall k, (count_occ String.string_dec trace k
              <= S (retries maxRetriesPerKey))%nat) /\
  (trace = [] <-> getMoralisApiKeys env = []) /\
  (getMoralisApiKeys env = [] ->
   o = Resolves (Err 500 "No Moralis API keys configured" None)).
Proof.
  unfold fetchMoralisJson. intros H.
  assert (List.NoDup (getMoralisApiKeys env)) as Hnd by apply dedupe_NoDup.
  assert (forall k, In k (getMoralisApiKeys env) -> k <> "") as Hne.
  { intros k. unfold getMoralisApiKeys. cbv zeta.
    rewrite dedupe_In, !in_app_iff. intros [[Hk|[Hk|Hk]] _].
    - exact (keysFromList_nonempty env k Hk).
    - pose proof (truthy_iff (primary env)) as Hp.
      destruct (JS.truthy (primary env)); [|contradiction].
      destruct Hk as [<-|[]]. now apply Hp.
    - pose proof (truthy_iff (backup env)) as Hb.
      destruct (JS.truthy (backup env)); [|contradiction].
      destruct Hk as [<-|[]]. now apply Hb. }
  destruct (getMoralisApiKeys env) as [|key keys] eqn:Ek.
  - injection H as <- <-. repeat split; auto; try contradiction.
    intros k. simpl. lia.
  - unfold fetchWithKeys in H. fold (retries maxRetriesPerKey) in H.
    pose proof (proj2 (overKeys_length _ _ _ _ _ _ H) ltac:(discriminate))
      as Hpos.
    apply overKeys_spec in H as (counts & Hlen & Hc & Htr & _).
    2:{ intros i k Hi. destruct i; discriminate. }
    cbn [app] in Htr. split; [|split; [|split]].
    + intros k Hk. rewrite Htr in Hk. apply blocks_In in Hk. auto.
    + intros k. rewrite Htr. apply blocks_count; [exact Hnd|].
      eapply Forall_impl; [exact Hc|]. simpl. intros c Hc'. lia.
    + split; [|discriminate]. intros He. rewrite He in Hpos.
      simpl in Hpos. lia.
    + discriminate.
Qed.
End KeysAndRequests.

Lemma each_key_within_its_budget_witness :
  let env := {| ApiKeys.MORALIS_API_KEYS := " k1 ,,k2, k1";
                ApiKeys.MORALIS_PRIMARY_API_KEY := "";
                ApiKeys.MORALIS_API_KEY := "k2";
                ApiKeys.MORALIS_FALLBACK_API_KEY := "k3";
                ApiKeys.MORALIS_API_KEY_BACKUP := "k4" |} in
  ApiKeys.getMoralisApiKeys env = ["k1"; "k2"; "k3"] /\
  forall k,
    (count_occ String.string_dec
       (snd (Moralis.fetchMoralisJson env (Moralis.always (Moralis.plain 503))
               (Some 2%nat))) k <= 3)%nat.
Proof.
  cbv zeta. split; [reflexivity|].
  match goal with
  | |- context [Moralis.fetchMoralisJson ?e ?s ?m] =>
      destruct (Moralis.fetchMoralisJson e s m) as [o trace] eqn:E
  end.
  exact (proj1 (proj2 (each_key_within_its_budget _ _ _ _ _ E))).
Defined.

(** ** The token request: two keys and the message shown *)

Section TokenRequestProperties.
Import FetchTokens TokenRequest.

Lemma starts_with_app (n l r : list ascii) :
  JSNumber.starts_with n l = true -> JSNumber.starts_with n (l ++ r) = true.
Proof.
  revert l. induction n as [|c n IH]; intros l H; [reflexivity|].
  destruct l as [|d l]; [discriminate|]. simpl in *.
  apply andb_true_iff in H as [H1 H2]. now rewrite H1, IH.
Qed.

Lemma includes_chars_app (n l r : list ascii) :
  includes_chars n l = true -> includes_chars n (l ++ r) = true.
Proof.
  induction l as [|d l IH]; intros H.
  - simpl in H. rewrite orb_false_r in H.
    destruct n; [|discriminate]. destruct r; reflexivity.
  - cbn [includes_chars] in H.
    change ((d :: l) ++ r)%list with (d :: (l ++ r)%list).
    cbn [includes_chars]. apply orb_true_iff in H as [H|H].
    + apply (starts_with_app _ _ r) in H. cbn [app] in H.
      rewrite H. reflexivity.
    + rewrite (IH H). apply orb_true_r.
Qed.

Lemma includes_prefix (p s needle : string) :
  includes p needle = true -> includes (p ++ s) needle = true.
Proof. unfold includes. rewrite chars_app. apply includes_chars_app. Qed.

Lemma request_keys_sent keys server r sent :
  request keys server = (r, sent) ->
  forall k, In k sent ->
    k <> "" /\ (k = PRIMARY_API_KEY keys \/ k = FALLBACK_API_KEY keys).
Proof.
  unfold request, primaryRequest, fallbackRequest.
  pose proof (truthy_iff (PRIMARY_API_KEY keys)) as HP.
  pose proof (truthy_iff (FALLBACK_API_KEY keys)) as HF.
  destruct (JS.truthy (PRIMARY_API_KEY keys)),
           (JS.truthy (FALLBACK_API_KEY keys)); cbn [negb andb];
    repeat (match goal with
            | |- context [server ?i ?k] => destruct (server i k) as [?|?]
            | |- context [ok ?x] => destruct (ok x)
            | |- context [text ?x] => destruct (text x) as [?|?]
            end; cbn [negb length app]);
    intros H; injection H as <- <-; intros k Hk; simpl in Hk;
    intuition (subst; auto).
Qed.

Lemma nth_one {A} (a : A) (P : nat -> A -> Prop) :
  P 0%nat a -> forall i k, nth_error [a] i = Some k -> P i k.
Proof.
  intros Ha [|i] k Hk; [now injection Hk as <-|]. destruct i; discriminate.
Qed.

Lemma nth_two {A} (a b : A) (P : nat -> A -> Prop) :
  P 0%nat a -> P 1%nat b -> forall i k, nth_error [a; b] i = Some k -> P i k.
Proof.
  intros Ha Hb [|[|i]] k Hk; [now injection Hk as <- ..|].
  destruct i; discriminate.
Qed.

(** The two keys are used in order.  A response is that of the last request
    made, with the key current, and the fallback key is only sent after the
    primary key is missing or its request has failed; an error is thrown
    only when every configured key has been sent once and each request has
    failed. *)
Theorem fallback_only_after_failure keys server r sent :
  request keys server = (r, sent) ->
  (forall response key, r = inr (response, key) ->
     exists before,
       sent = (before ++ [key])%list /\
       server (length before) key = Responds response /\ ok response = true /\
       ((before = [] /\ (key = PRIMARY_API_KEY keys
                         \/ (PRIMARY_API_KEY keys = ""
                             /\ key = FALLBACK_API_KEY keys)))
        \/ (before = [PRIMARY_API_KEY keys]
            /\ fails (server 0%nat (PRIMARY_API_KEY keys))
            /\ key = FALLBACK_API_KEY keys))) /\
  (forall message, r = inl message ->
     sent = ((if JS.truthy (PRIMARY_API_KEY keys)
              then [PRIMARY_API_KEY keys] else [])
             ++ (if JS.truthy (FALLBACK_API_KEY keys)
                 then [FALLBACK_API_KEY keys] else []))%list /\
     forall i k, nth_error sent i = Some k -> fails (server i k)).
Proof.
  unfold request, primaryRequest, fallbackRequest.
  pose proof (truthy_iff (PRIMARY_API_KEY keys)) as HP.
  destruct (JS.truthy (PRIMARY_API_KEY keys)) eqn:EP;
    destruct (JS.truthy (FALLBACK_API_KEY keys)) eqn:EF; cbn [negb andb].
  - destruct (server 0%nat (PRIMARY_API_KEY keys)) as [m|res] eqn:E0;
      [|destruct (ok res) eqn:Hok]; cbn [negb length].
    + destruct (server 1%nat (FALLBACK_API_KEY keys)) as [m'|res'] eqn:E1;
        [|destruct (ok res') eqn:Hok'; [|destruct (text res')]];
        cbn [negb]; intros H; injection H as <- <-;
        (split; [intros response key Hr | intros message Hr]);
        try discriminate.
      * split; [reflexivity|].
        apply nth_two; cbv beta; [rewrite E0 | rewrite E1]; simpl; auto.
      * injection Hr as <- <-. exists [PRIMARY_API_KEY keys].
        repeat split; auto; right; repeat split; simpl; auto.
      * split; [reflexivity|].
        apply nth_two; cbv beta; [rewrite E0 | rewrite E1]; simpl; auto.
      * split; [reflexivity|].
        apply nth_two; cbv beta; [rewrite E0 | rewrite E1]; simpl; auto.
    + intros H; injection H as <- <-.
      split; [intros response key Hr | intros message Hr]; [|discriminate].
      injection Hr as <- <-. exists []. repeat split; auto.
    + destruct (server 1%nat (FALLBACK_API_KEY keys)) as [m'|res'] eqn:E1;
        [|destruct (ok res') eqn:Hok'; [|destruct (text res')]];
        cbn [negb]; intros H; injection H as <- <-;
        (split; [intros response key Hr | intros message Hr]);
        try discriminate.
      * split; [reflexivity|].
        apply nth_two; cbv beta; [rewrite E0 | rewrite E1]; simpl; auto.
      * injection Hr as <- <-. exists [PRIMARY_API_KEY keys].
        repeat split; auto; right; repeat split; simpl; auto.
      * split; [reflexivity|].
        apply nth_two; cbv beta; [rewrite E0 | rewrite E1]; simpl; auto.
      * split; [reflexivity|].
        apply nth_two; cbv beta; [rewrite E0 | rewrite E1]; simpl; auto.
  - destruct (server 0%nat (PRIMARY_API_KEY keys)) as [m|res] eqn:E0;
      [|destruct (ok res) eqn:Hok]; cbn [negb length];
      intros H; injection H as <- <-;
      (split; [intros response key Hr | intros message Hr]);
      try discriminate.
    + split; [reflexivity|]. apply nth_one. cbv beta. rewrite E0. simpl; auto.
    + injection Hr as <- <-. exists []. repeat split; auto.
    + split; [reflexivity|]. apply nth_one. cbv beta. rewrite E0. simpl; auto.
  - assert (PRIMARY_API_KEY keys = "") as HP0.
    { destruct (String.string_dec (PRIMARY_API_KEY keys) "") as [e|e];
        [exact e|]. apply HP in e. discriminate. }
    cbn [length].
    destruct (server 0%nat (FALLBACK_API_KEY keys)) as [m'|res'] eqn:E1;
      [|destruct (ok res') eqn:Hok'; [|destruct (text res')]];
      cbn [negb]; intros H; injection H as <- <-;
      (split; [intros response key Hr | intros message Hr]);
      try discriminate.
    + split; [reflexivity|]. apply nth_one. cbv beta. rewrite E1. simpl; auto.
    + injection Hr as <- <-. exists []. repeat split; auto.
    + split; [reflexivity|]. apply nth_one. cbv beta. rewrite E1. simpl; auto.
    + split; [reflexivity|]. apply nth_one. cbv beta. rewrite E1. simpl; auto.
  - intros H; injection H as <- <-. split; [discriminate|].
    intros message _. split; [reflexivity|]. intros [|i] k Hk; discriminate.
Qed.
End TokenRequestProperties.

Section TokenRequestMessages.
Import FetchTokens TokenRequest.

Lemma fetchTokens_requests MONAD keys address chainId server :
  address <> "" ->
  PRIMARY_API_KEY keys <> "" \/ FALLBACK_API_KEY keys <> "" ->
  TokenRequest.fetchTokens MONAD keys address chainId server
  = match request keys server with
    | (inr (response, currentApiKey), sent) =>
        (Received response currentApiKey, sent)
    | (inl message, sent) => (Failed (userFriendlyError message), sent)
    end.
Proof.
  intros Ha Hk. unfold TokenRequest.fetchTokens, FetchTokens.fetchTokens.
  rewrite getMoralisChainName_truthy.
  apply truthy_iff in Ha. rewrite Ha. cbn [negb].
  destruct Hk as [Hk|Hk]; apply truthy_iff in Hk; rewrite Hk; cbn [negb andb].
  - reflexivity.
  - rewrite andb_false_r. destruct (JS.truthy (PRIMARY_API_KEY keys));
      reflexivity.
Qed.

(** With one key configured, the primary one, every failure of its request,
    a network error or any status outside 200-299, ends in the message that
    the API keys are not configured. *)
Theorem lone_key_failure_reads_as_unconfigured MONAD keys address chainId
    server :
  address <> "" -> PRIMARY_API_KEY keys <> "" -> FALLBACK_API_KEY keys = "" ->
  fails (server 0%nat (PRIMARY_API_KEY keys)) ->
  TokenRequest.fetchTokens MONAD keys address chainId server
  = (Failed CONFIG_LOCAL, [PRIMARY_API_KEY keys]).
Proof.
  intros Ha HP HF Hfail.
  rewrite fetchTokens_requests by auto.
  unfold request, primaryRequest, fallbackRequest.
  apply truthy_iff in HP. rewrite HP, HF. cbn [negb andb JS.truthy String.eqb].
  destruct (server 0%nat (PRIMARY_API_KEY keys)) as [m|res]; simpl in Hfail.
  - reflexivity.
  - rewrite Hfail. reflexivity.
Qed.

(** When the request with the fallback key, made because there is no
    primary key or its request failed, is answered with a status outside
    200-299 and the body of the answer can be read, the message shown is the
    one for missing keys, the general one, or the status line behind "API
    request failed: "; it is never the message for an invalid key nor the
    one for the rate limit, whatever the status, 401, 403 and 429
    included. *)
Theorem http_failure_never_blames_the_key MONAD keys address chainId server
    res body :
  address <> "" -> FALLBACK_API_KEY keys <> "" ->
  PRIMARY_API_KEY keys = "" \/ fails (server 0%nat (PRIMARY_API_KEY keys)) ->
  server (if JS.truthy (PRIMARY_API_KEY keys) then 1 else 0)%nat
         (FALLBACK_API_KEY keys) = Responds res ->
  ok res = false -> text res = inl body ->
  let message := "Fallback API request failed: "
                 ++ Decimal.toString10 (status res) ++ " " ++ statusText res in
  exists error sent,
    TokenRequest.fetchTokens MONAD keys address chainId server
    = (Failed error, sent) /\
    error = (if includes message "not configured" || includes message "API key"
             then CONFIG_LOCAL
             else if includes message "ERR_CONNECTION_CLOSED"
                     || includes message "Failed to fetch"
             then USER_DEFAULT
             else "API request failed: " ++ message) /\
    error <> USER_INVALID_KEY /\ error <> USER_RATE_LIMIT.
Proof.
  intros Ha HF HP Hs Hok Ht message.
  assert (userFriendlyError (rethrown message)
          = (if includes message "not configured" || includes message "API key"
             then CONFIG_LOCAL
             else if includes message "ERR_CONNECTION_CLOSED"
                     || includes message "Failed to fetch"
             then USER_DEFAULT
             else "API request failed: " ++ message)) as Herr.
  { unfold rethrown.
    destruct (includes message "not configured" || includes message "API key")
      eqn:E1; [reflexivity|].
    destruct (includes message "ERR_CONNECTION_CLOSED"
              || includes message "Failed to fetch") eqn:E2; [reflexivity|].
    unfold userFriendlyError. rewrite E1.
    assert (includes message "API" = true) as ->; [|reflexivity].
    unfold message. now apply includes_prefix. }
  assert (forall e,
            e = (if includes message "not configured"
                    || includes message "API key"
                 then CONFIG_LOCAL
                 else if includes message "ERR_CONNECTION_CLOSED"
                         || includes message "Failed to fetch"
                 then USER_DEFAULT
                 else "API request failed: " ++ message) ->
            e <> USER_INVALID_KEY /\ e <> USER_RATE_LIMIT) as Hne.
  { intros e ->.
    destruct (includes message "not configured" || includes message "API key");
      [split; discriminate|].
    destruct (includes message "ERR_CONNECTION_CLOSED"
              || includes message "Failed to fetch");
      [split; discriminate|].
    split; intros H; cbn in H; discriminate H. }
  rewrite fetchTokens_requests by auto.
  unfold request, primaryRequest, fallbackRequest.
  apply truthy_iff in HF. rewrite HF. rewrite andb_false_r. cbn [negb].
  destruct (JS.truthy (PRIMARY_API_KEY keys)) eqn:EP; cbn [negb].
  - destruct HP as [HP|HP]; [rewrite HP in EP; discriminate|].
    destruct (server 0%nat (PRIMARY_API_KEY keys)) as [m|res0];
      simpl in HP; [|rewrite HP]; cbn [negb length]; rewrite Hs, Hok, Ht;
      cbn [negb]; fold message;
      (eexists _, _; split; [reflexivity|]; split; [exact Herr|]);
      apply Hne; exact Herr.
  - cbn [length]. rewrite Hs, Hok, Ht. cbn [negb]. fold message.
    eexists _, _; split; [reflexivity|]; split; [exact Herr|].
    apply Hne; exact Herr.
Qed.
End TokenRequestMessages.

Lemma fallback_only_after_failure_witness :
  let keys := {| FetchTokens.PRIMARY_API_KEY := "k1";
                 FetchTokens.FALLBACK_API_KEY := "k2";
                 FetchTokens.MORALIS_BASE_URL := "" |} in
  let server := fun (_ : nat) k =>
    TokenRequest.Responds
      (TokenRequest.answer (if String.eqb k "k2" then 200 else 500) "") in
  TokenRequest.request keys server
  = (inr (TokenRequest.answer 200 "", "k2"), ["k1"; "k2"]) /\
  TokenRequest.fails (server 0%nat "k1").
Proof.
  intros keys server.
  assert (TokenRequest.request keys server
          = (inr (TokenRequest.answer 200 "", "k2"), ["k1"; "k2"])) as E
    by reflexivity.
  split; [exact E|].
  destruct (proj1 (fallback_only_after_failure _ _ _ _ E) _ _ eq_refl)
    as (before & Hsent & _ & _ & [[Hb _]|(_ & Hf & _)]).
  - subst before. discriminate Hsent.
  - exact Hf.
Defined.

Lemma lone_key_failure_reads_as_unconfigured_witness :
  TokenRequest.fetchTokens None FetchTokens.sampleKeys BuilderTest.sender 8453
    (fun _ _ => TokenRequest.Responds (TokenRequest.answer 429 "Too Many Requests"))
  = (TokenRequest.Failed TokenRequest.CONFIG_LOCAL, ["key"]).
Proof.
  apply (lone_key_failure_reads_as_unconfigured None FetchTokens.sampleKeys
           BuilderTest.sender 8453);
    [discriminate | discriminate | reflexivity | reflexivity].
Defined.

Lemma http_failure_never_blames_the_key_witness :
  let keys := {| FetchTokens.PRIMARY_API_KEY := "k1";
                 FetchTokens.FALLBACK_API_KEY := "k2";
                 FetchTokens.MORALIS_BASE_URL := "" |} in
  exists error sent,
    TokenRequest.fetchTokens None keys BuilderTest.sender 8453
      (fun _ _ => TokenRequest.Responds (TokenRequest.answer 401 "Unauthorized"))
    = (TokenRequest.Failed error, sent) /\
    error = "API request failed: Fallback API request failed: 401 Unauthorized" /\
    error <> TokenRequest.USER_INVALID_KEY /\
    error <> TokenRequest.USER_RATE_LIMIT.
Proof.
  cbv zeta.
  apply (http_failure_never_blames_the_key None
           {| FetchTokens.PRIMARY_API_KEY := "k1";
              FetchTokens.FALLBACK_API_KEY := "k2";
              FetchTokens.MORALIS_BASE_URL := "" |}
           BuilderTest.sender 8453
           (fun _ _ => TokenRequest.Responds
                         (TokenRequest.answer 401 "Unauthorized"))
           (TokenRequest.answer 401 "Unauthorized") "{}");
    [discriminate | discriminate | right; reflexivity | reflexivity
    | reflexivity | reflexivity].
Defined.

(** ** The order of the discovered tokens *)

Section TokenOrderProperties.
Import JSNumber TokenOrder.
Local Abbreviation quote := Builder.quote.

Lemma Qpos_bool_false q : JSArray.Qpos_bool q = false <-> (q <= 0)%Q.
Proof.
  split.
  - intros H. apply Qnot_lt_le. intros Hlt. apply Qpos_bool_true in Hlt.
    congruence.
  - intros H. destruct (JSArray.Qpos_bool q) eqn:E; [|reflexivity].
    apply Qpos_bool_true in E. exfalso. exact (Qlt_not_le _ _ E H).
Qed.

Lemma priced_bools t :
  priced t ->
  JSArray.Qpos_bool (quote t) = true /\ Qeq_bool (quote t) 0 = false.
Proof.
  intros H. split; [now apply Qpos_bool_true|].
  destruct (Qeq_bool (quote t) 0) eqn:E; [|reflexivity].
  apply Qeq_bool_iff in E. unfold priced in H. rewrite E in H.
  exfalso. exact (Qlt_irrefl _ H).
Qed.

Lemma unpriced_bools t :
  unpriced t ->
  JSArray.Qpos_bool (quote t) = false /\ Qeq_bool (quote t) 0 = true.
Proof.
  intros H. split; [|now apply Qeq_bool_iff].
  apply Qpos_bool_false. unfold unpriced in H. rewrite H. apply Qle_refl.
Qed.

Lemma priced_or_unpriced t : (0 <= quote t)%Q -> priced t \/ unpriced t.
Proof.
  intros H. destruct (Qlt_le_dec 0 (quote t)) as [Hlt|Hle]; [now left|].
  right. apply Qle_antisym; assumption.
Qed.

Lemma priced_not_unpriced t : priced t -> unpriced t -> False.
Proof.
  unfold priced, unpriced. intros H1 H2. rewrite H2 in H1.
  exact (Qlt_irrefl _ H1).
Qed.

Lemma balance_sign (x y : number) :
  x <> NaN -> y <> NaN ->
  (JSArray.Qpos_bool (sortValue (sub y x)) = false <-> num_le y x).
Proof.
  intros Hx Hy. destruct x as [|a| |], y as [|b| |]; try congruence;
    simpl; try (split; [intros _; exact I | intros _; reflexivity]);
    try (split; [discriminate | contradiction]).
  rewrite Qpos_bool_false. unfold Qminus. split; intros H.
  - apply Qnot_lt_le. intros Hlt.
    apply (Qlt_minus_iff a b) in Hlt. exact (Qlt_not_le _ _ Hlt H).
  - apply Qnot_lt_le. intros Hlt.
    apply (Qlt_minus_iff a b) in Hlt. exact (Qlt_not_le _ _ Hlt H).
Qed.

Lemma compareFn_before a b :
  sortable a -> sortable b ->
  (JSArray.Qpos_bool (compareFn a b) = false <-> before a b).
Proof.
  intros [Ha Hna] [Hb Hnb]. unfold compareFn, before. cbv zeta.
  destruct (priced_or_unpriced a Ha) as [Pa|Ua],
           (priced_or_unpriced b Hb) as [Pb|Ub].
  - destruct (priced_bools a Pa) as [-> _], (priced_bools b Pb) as [-> _].
    cbn [andb]. rewrite Qpos_bool_false. unfold Qminus. split.
    + intros H. left. repeat split; auto.
      apply Qnot_lt_le. intros Hlt.
      apply (Qlt_minus_iff (quote a) (quote b)) in Hlt.
      exact (Qlt_not_le _ _ Hlt H).
    + intros [(_ & _ & H)|[(_ & U)|(U & _)]].
      * apply Qnot_lt_le. intros Hlt.
        apply (Qlt_minus_iff (quote a) (quote b)) in Hlt.
        exact (Qlt_not_le _ _ Hlt H).
      * destruct (priced_not_unpriced b Pb U).
      * destruct (priced_not_unpriced a Pa U).
  - destruct (priced_bools a Pa) as [-> _], (unpriced_bools b Ub) as [-> ->].
    cbn [andb]. split; [intros _; right; left; auto | reflexivity].
  - destruct (unpriced_bools a Ua) as [-> ->], (priced_bools b Pb) as [-> _].
    cbn [andb]. split; [discriminate|].
    intros [(P & _)|[(P & _)|(_ & U & _)]].
    + destruct (priced_not_unpriced a P Ua).
    + destruct (priced_not_unpriced a P Ua).
    + destruct (priced_not_unpriced b Pb U).
  - destruct (unpriced_bools a Ua) as [-> ->], (unpriced_bools b Ub) as [-> ->].
    cbn [andb]. rewrite (balance_sign _ _ Hna Hnb). split.
    + intros H. right. right. auto.
    + intros [(P & _)|[(P & _)|(_ & _ & H)]]; [| |exact H].
      * destruct (priced_not_unpriced a P Ua).
      * destruct (priced_not_unpriced a P Ua).
Qed.

Lemma num_le_total (x y : number) :
  x <> NaN -> y <> NaN -> num_le x y \/ num_le y x.
Proof.
  intros Hx Hy. destruct x as [|a| |], y as [|b| |]; try congruence;
    simpl; auto.
  destruct (Qlt_le_dec a b) as [H|H]; [left; now apply Qlt_le_weak | now right].
Qed.

Lemma num_le_trans (x y z : number) : num_le x y -> num_le y z -> num_le x z.
Proof.
  destruct x as [|a| |], y as [|b| |], z as [|c| |]; simpl; try tauto.
  apply Qle_trans.
Qed.

Lemma before_total a b : sortable a -> sortable b -> before a b \/ before b a.
Proof.
  intros [Ha Hna] [Hb Hnb]. unfold before.
  destruct (priced_or_unpriced a Ha) as [Pa|Ua],
           (priced_or_unpriced b Hb) as [Pb|Ub].
  - destruct (Qlt_le_dec (quote a) (quote b)) as [H|H].
    + right. left. repeat split; auto. now apply Qlt_le_weak.
    + left. left. auto.
  - left. right. left. auto.
  - right. right. left. auto.
  - destruct (num_le_total _ _ Hna Hnb) as [H|H].
    + right. right. right. auto.
    + left. right. right. auto.
Qed.

Lemma before_trans a b c : before a b -> before b c -> before a c.
Proof.
  unfold before.
  intros [(Pa & Pb & Hab)|[(Pa & Ub)|(Ua & Ub & Hab)]]
         [(Pb' & Pc & Hbc)|[(Pb' & Uc)|(Ub' & Uc & Hbc)]];
    try (exfalso; exact (priced_not_unpriced b ltac:(assumption)
                           ltac:(assumption))).
  - left. repeat split; auto. eapply Qle_trans; eassumption.
  - right. left. auto.
  - right. left. auto.
  - right. right. repeat split; auto. eapply num_le_trans; eassumption.
Qed.

Lemma insert_compareFn_perm x l :
  Permutation (JSArray.insert compareFn x l) (x :: l).
Proof.
  induction l as [|y r IH]; simpl; [reflexivity|].
  destruct (JSArray.Qpos_bool (compareFn x y)); [|reflexivity].
  rewrite IH. apply perm_swap.
Qed.

Lemma sortTokens_perm l : Permutation (sortTokens l) l.
Proof.
  induction l as [|x r IH]; [reflexivity|].
  unfold sortTokens in *. simpl. rewrite insert_compareFn_perm.
  now apply perm_skip.
Qed.

Lemma insert_compareFn_sorted x l :
  sortable x -> Forall sortable l ->
  StronglySorted before l ->
  StronglySorted before (JSArray.insert compareFn x l).
Proof.
  intros Hx Hl Hs. induction Hs as [|y r Hr IH Hy]; simpl.
  - repeat constructor.
  - inversion Hl as [|? ? Hgy Hgr]; subst.
    destruct (JSArray.Qpos_bool (compareFn x y)) eqn:E.
    + constructor; [exact (IH Hgr)|].
      apply List.Forall_forall. intros z Hz.
      apply (Permutation_in _ (insert_compareFn_perm x r)) in Hz.
      destruct Hz as [<-|Hz].
      * destruct (before_total x y Hx Hgy) as [H|H]; [|exact H].
        apply (compareFn_before x y Hx Hgy) in H. congruence.
      * rewrite List.Forall_forall in Hy. now apply Hy.
    + apply (compareFn_before x y Hx Hgy) in E.
      constructor; [now constructor|].
      constructor; [exact E|].
      apply List.Forall_forall. intros z Hz. rewrite List.Forall_forall in Hy.
      exact (before_trans _ _ _ E (Hy z Hz)).
Qed.

Lemma insert_compareFn_filter (P : Builder.Token -> bool) x l :
  sortable x -> Forall sortable l ->
  (forall a b, P a = true -> P b = true -> before a b) ->
  List.filter P (JSArray.insert compareFn x l) = List.filter P (x :: l).
Proof.
  intros Hx Hl Htie. induction l as [|y r IH]; [reflexivity|].
  inversion Hl as [|? ? Hgy Hgr]; subst.
  simpl. destruct (JSArray.Qpos_bool (compareFn x y)) eqn:E; [|reflexivity].
  simpl. rewrite (IH Hgr). simpl.
  destruct (P x) eqn:Px, (P y) eqn:Py; try reflexivity.
  apply (compareFn_before x y Hx Hgy) in Htie; [congruence | exact Px | exact Py].
Qed.

(** The discovered tokens are shown priced ones first, by descending value,
    then the unpriced ones by descending balance; tokens the order does not
    tell apart keep the order in which the provider listed them. *)
Theorem discovered_tokens_order (tokens : list Builder.Token) :
  Forall sortable tokens ->
  Permutation (sortTokens tokens) tokens /\
  StronglySorted before (sortTokens tokens) /\
  (forall P : Builder.Token -> bool,
     (forall a b, P a = true -> P b = true -> before a b) ->
     List.filter P (sortTokens tokens) = List.filter P tokens).
Proof.
  intros Hg. split; [apply sortTokens_perm|].
  assert (forall l, Forall sortable l -> Forall sortable (sortTokens l)) as Hgs.
  { intros l Hl. apply List.Forall_forall. intros z Hz.
    apply (Permutation_in _ (sortTokens_perm l)) in Hz.
    rewrite List.Forall_forall in Hl. now apply Hl. }
  split.
  - induction tokens as [|x r IH]; [constructor|].
    inversion Hg as [|? ? Hx Hr]; subst.
    unfold sortTokens. simpl.
    apply insert_compareFn_sorted;
      [exact Hx | apply (Hgs r Hr) | apply (IH Hr)].
  - intros P Htie. induction tokens as [|x r IH]; [reflexivity|].
    inversion Hg as [|? ? Hx Hr]; subst.
    unfold sortTokens. simpl JSArray.sort.
    rewrite insert_compareFn_filter;
      [|exact Hx | apply (Hgs r Hr) | exact Htie].
    simpl. fold (sortTokens r). now rewrite (IH Hr).
Qed.
End TokenOrderProperties.

Lemma discovered_tokens_order_witness :
  let dust := BuilderTest.tok BuilderTest.friend "7" 0 false in
  let more := BuilderTest.tok BuilderTest.sender "9" 0 false in
  TokenOrder.sortTokens [dust; BuilderTest.true_; more; BuilderTest.usdc]
  = [BuilderTest.usdc; BuilderTest.true_; more; dust] /\
  StronglySorted TokenOrder.before
    (TokenOrder.sortTokens [dust; BuilderTest.true_; more; BuilderTest.usdc]).
Proof.
  cbv zeta. split; [vm_compute; reflexivity|].
  apply discovered_tokens_order.
  repeat constructor; try (intros H; vm_compute in H; discriminate H);
    unfold Qle; simpl; lia.
Defined.

(** Balances are compared as doubles: 2^53 + 1 reads as 2^53, and two
    unpriced tokens holding the one and the other keep their order. *)
Example equal_doubles_keep_order :
  let a := BuilderTest.tok BuilderTest.friend "9007199254740992" 0 false in
  let b := BuilderTest.tok BuilderTest.sender "9007199254740993" 0 false in
  TokenOrder.balanceNumber a = TokenOrder.balanceNumber b /\
  TokenOrder.sortTokens [a; b] = [a; b] /\
  TokenOrder.sortTokens [b; a] = [b; a].
Proof. vm_compute. repeat split. Qed.

(** ** The cache in localStorage *)

Section RemoveAll.
Import LocalCache.

Lemma removeAll_cons k keys (s : Storage) :
  removeAll (k :: keys) s = removeAll keys (delete k s).
Proof. reflexivity. Qed.

Lemma removeAll_lookup keys : forall (s : Storage) k,
  (In k keys -> removeAll keys s !! k = None) /\
  (~ In k keys -> removeAll keys s !! k = s !! k).
Proof.
  induction keys as [|a r IH]; intros s k; split; simpl In.
  - contradiction.
  - reflexivity.
  - intros Hin. rewrite removeAll_cons.
    destruct (in_dec String.string_dec k r) as [Hr|Hr].
    + now apply IH.
    + rewrite (proj2 (IH _ _) Hr). destruct Hin as [->|Hin]; [|contradiction].
      apply lookup_delete_eq.
  - intros Hn. rewrite removeAll_cons.
    rewrite (proj2 (IH _ _)) by tauto.
    apply lookup_delete_ne. intros ->. tauto.
Qed.

Lemma removeAll_size keys : forall (s : Storage),
  (size s <= size (removeAll keys s) + length keys)%nat.
Proof.
  induction keys as [|a r IH]; intros s; [simpl; lia|].
  rewrite removeAll_cons. specialize (IH (delete a s)).
  rewrite map_size_delete in IH. simpl length.
  destruct (s !! a); simpl in IH; unfold id in IH; lia.
Qed.

End RemoveAll.

Section LocalCacheProperties.
Import LocalCache.
Context {T V : Type}.
Variable stringify : T -> Z -> string.
Variable parse : string -> option (V * option Z).
Variable accepts : Storage -> string -> string -> bool.
Variable keysOf : Storage -> list string.

(** What an entry written by [setCache] parses to. *)
Variable entry : T -> Z -> V.

(** JSON reads back what it wrote, and the empty string is no JSON. *)
Hypothesis parse_stringify : forall data timestamp,
  parse (stringify data timestamp) = Some (entry data timestamp, Some timestamp).
Hypothesis parse_empty : parse "" = None.

(** [Object.keys] lists the keys of the storage. *)
Hypothesis keysOf_spec : forall s k, In k (keysOf s) <-> is_Some (s !! k).

Lemma stringify_truthy data timestamp :
  JS.truthy (stringify data timestamp) = true.
Proof.
  apply truthy_iff. intros H. pose proof (parse_stringify data timestamp) as Hp.
  rewrite H, parse_empty in Hp. discriminate.
Qed.

Lemma getCache_fresh key data timestamp now (s : Storage) :
  s !! key = Some (stringify data timestamp) ->
  (now - timestamp <= CACHE_DURATION ->
   getCache parse key now s = (Some (entry data timestamp), s)) /\
  (CACHE_DURATION < now - timestamp ->
   getCache parse key now s = (None, delete key s)).
Proof.
  intros Hs. unfold getCache.
  rewrite Hs, stringify_truthy, parse_stringify. cbn [negb].
  split; intros H.
  - destruct (Z.gtb_spec (now - timestamp) CACHE_DURATION); [lia|reflexivity].
  - destruct (Z.gtb_spec (now - timestamp) CACHE_DURATION); [reflexivity|lia].
Qed.

(** An entry that [setCache] managed to store, at its first attempt or
    after the eviction, is served unchanged up to and including one hour
    after the time written into it; the first read after that returns
    nothing and removes the entry. *)
Theorem stored_entry_served_for_an_hour key data now retryNow (s : Storage) :
  let s' := setCache stringify accepts keysOf key data now retryNow s in
  let evicted := removeAll (JSArray.slice0 10 (cacheKeys keysOf s)) s in
  let served timestamp :=
    forall read,
      (read - timestamp <= CACHE_DURATION ->
       getCache parse key read s' = (Some (entry data timestamp), s')) /\
      (CACHE_DURATION < read - timestamp ->
       getCache parse key read s' = (None, delete key s')
       /\ forall later, getCache parse key later (delete key s')
                        = (None, delete key s')) in
  (accepts s key (stringify data now) = true -> served now) /\
  (accepts s key (stringify data now) = false ->
   accepts evicted key (stringify data retryNow) = true -> served retryNow).
Proof.
  cbv zeta.
  assert (forall (m : Storage) timestamp read,
            m !! key = Some (stringify data timestamp) ->
            (read - timestamp <= CACHE_DURATION ->
             getCache parse key read m = (Some (entry data timestamp), m)) /\
            (CACHE_DURATION < read - timestamp ->
             getCache parse key read m = (None, delete key m)
             /\ forall later, getCache parse key later (delete key m)
                              = (None, delete key m))) as Hserved.
  { intros m timestamp read Hm.
    destruct (getCache_fresh key data timestamp read m Hm) as [H1 H2].
    split; [exact H1|]. intros H. split; [exact (H2 H)|].
    intros later. unfold getCache. now rewrite lookup_delete_eq. }
  unfold setCache, setItem. split.
  - intros Ha read. rewrite Ha. apply Hserved. apply lookup_insert_eq.
  - intros Ha Hb read. rewrite Ha, Hb. apply Hserved. apply lookup_insert_eq.
Qed.

(** Storing touches no key outside the cache: every other key keeps its
    value, except that a store refused for want of space removes up to ten
    keys with the cache prefix, also when the retry fails.  A store accepted
    at once changes the one key only. *)
Theorem store_spares_foreign_keys key data now retryNow (s : Storage) :
  let s' := setCache stringify accepts keysOf key data now retryNow s in
  (forall k, k <> key ->
     s' !! k = s !! k
     \/ (startsWith k CACHE_PREFIX = true /\ s' !! k = None
         /\ accepts s key (stringify data now) = false)) /\
  (size s <= size s' + 10)%nat /\
  (accepts s key (stringify data now) = true ->
   s' = <[key := stringify data now]> s).
Proof.
  cbv zeta. unfold setCache, setItem.
  set (victims := JSArray.slice0 10 (cacheKeys keysOf s)).
  assert (forall k, In k victims -> startsWith k CACHE_PREFIX = true) as Hv.
  { intros k Hk. unfold victims, JSArray.slice0, cacheKeys in Hk.
    apply In_firstn in Hk. apply filter_In in Hk. tauto. }
  assert (length victims <= 10)%nat as Hlen.
  { unfold victims, JSArray.slice0. rewrite length_firstn. lia. }
  pose proof (removeAll_size victims s) as Hsize.
  destruct (accepts s key (stringify data now)) eqn:Ha.
  - split; [|split; [|reflexivity]].
    + intros k Hk. left. now apply lookup_insert_ne.
    + destruct (s !! key) eqn:Hs.
      * rewrite map_size_insert_Some by eauto. lia.
      * rewrite map_size_insert_None by exact Hs. lia.
  - assert (forall k, removeAll victims s !! k = s !! k
                      \/ (startsWith k CACHE_PREFIX = true
                          /\ removeAll victims s !! k = None)) as Hrem.
    { intros k. destruct (in_dec String.string_dec k victims) as [Hin|Hin].
      - right. split; [now apply Hv|]. now apply removeAll_lookup.
      - left. now apply removeAll_lookup. }
    destruct (accepts (removeAll victims s) key (stringify data retryNow)).
    + split; [|split; [|discriminate]].
      * intros k Hk. rewrite lookup_insert_ne by congruence.
        destruct (Hrem k) as [H|[H1 H2]]; [now left | right; auto].
      * destruct (removeAll victims s !! key) eqn:Hs.
        -- rewrite map_size_insert_Some by eauto. lia.
        -- rewrite map_size_insert_None by exact Hs. lia.
    + split; [|split; [lia|discriminate]].
      intros k Hk. destruct (Hrem k) as [H|[H1 H2]]; [now left | right; auto].
Qed.

Lemma starts_with_prefix (p r : list ascii) :
  JSNumber.starts_with p (p ++ r) = true.
Proof.
  induction p as [|c p IH]; [reflexivity|]. simpl.
  now rewrite Ascii.eqb_refl, IH.
Qed.

Lemma getCacheKey_prefix address chainId :
  startsWith (getCacheKey address chainId) CACHE_PREFIX = true.
Proof.
  unfold startsWith, getCacheKey. rewrite chars_app. apply starts_with_prefix.
Qed.

(** The invalidation removes exactly the keys that begin with the cache
    prefix and leaves every other key of the storage as it is; after it the
    lookup of every wallet and chain misses, and the key of a wallet does not
    depend on the case of the letters of its address. *)
Theorem invalidation_clears_the_cache_keys (s : Storage) :
  let s' := invalidateTokenBalanceCache keysOf s in
  (forall k, s' !! k = if startsWith k CACHE_PREFIX then None else s !! k) /\
  (forall address chainId now,
     getCache parse (getCacheKey address chainId) now s' = (None, s')) /\
  (forall a b chainId,
     JS.toLowerCase a = JS.toLowerCase b ->
     getCacheKey a chainId = getCacheKey b chainId).
Proof.
  cbv zeta.
  assert (forall k, invalidateTokenBalanceCache keysOf s !! k
                    = if startsWith k CACHE_PREFIX then None else s !! k) as Hl.
  { intros k. unfold invalidateTokenBalanceCache.
    destruct (startsWith k CACHE_PREFIX) eqn:Hp.
    - destruct (s !! k) as [v|] eqn:Hs.
      + apply removeAll_lookup. unfold cacheKeys. apply filter_In.
        split; [|exact Hp]. apply keysOf_spec. rewrite Hs. eauto.
      + destruct (in_dec String.string_dec k (cacheKeys keysOf s)) as [Hin|Hin].
        * now apply removeAll_lookup.
        * rewrite (proj2 (removeAll_lookup _ _ _) Hin). exact Hs.
    - apply removeAll_lookup. unfold cacheKeys. rewrite filter_In.
      intros [_ H]. congruence. }
  split; [exact Hl|]. split.
  - intros address chainId now. unfold getCache.
    now rewrite Hl, getCacheKey_prefix.
  - intros a b chainId Hab. unfold getCacheKey. now rewrite Hab.
Qed.
End LocalCacheProperties.

Lemma listedKeys_spec (s : LocalCache.Storage) k :
  In k (LocalCache.listedKeys s) <-> is_Some (s !! k).
Proof.
  unfold LocalCache.listedKeys. rewrite <- list_elem_of_In, list_elem_of_fmap.
  split.
  - intros ([k' v] & -> & H). apply elem_of_map_to_list in H. simpl. eauto.
  - intros [v H]. exists (k, v). split; [reflexivity|].
    now apply elem_of_map_to_list.
Qed.

Lemma readStamp_stamp data timestamp :
  LocalCache.readStamp (LocalCache.stamp data timestamp)
  = Some (timestamp, Some timestamp).
Proof.
  unfold LocalCache.readStamp, LocalCache.stamp.
  now rewrite parseInt_toString10.
Qed.

Lemma stored_entry_served_for_an_hour_witness :
  let s' := LocalCache.setCache LocalCache.stamp (fun _ _ _ => true)
              LocalCache.listedKeys "k" tt 1000 1001 ∅ in
  LocalCache.getCache LocalCache.readStamp "k" 3601000 s' = (Some 1000, s') /\
  LocalCache.getCache LocalCache.readStamp "k" 3601001 s'
  = (None, delete "k" s').
Proof.
  cbv zeta.
  pose proof (stored_entry_served_for_an_hour LocalCache.stamp
                LocalCache.readStamp (fun _ _ _ => true) LocalCache.listedKeys
                (fun _ timestamp => timestamp) readStamp_stamp eq_refl
                "k" tt 1000 1001 ∅) as [H _].
  split.
  - apply (H eq_refl 3601000). unfold LocalCache.CACHE_DURATION. lia.
  - apply (H eq_refl 3601001). unfold LocalCache.CACHE_DURATION. lia.
Defined.

Lemma invalidation_clears_the_cache_keys_witness :
  let s : LocalCache.Storage :=
    <["theme" := "dark"]> (<["asset_cache_erc20_0xab_1" := "5"]> ∅) in
  let s' := LocalCache.invalidateTokenBalanceCache LocalCache.listedKeys s in
  s' !! "theme" = Some "dark" /\ s' !! "asset_cache_erc20_0xab_1" = None.
Proof.
  intros s s'.
  destruct (invalidation_clears_the_cache_keys LocalCache.readStamp
              LocalCache.listedKeys listedKeys_spec s) as [H _].
  unfold s'.
  split; [rewrite (H "theme") | rewrite (H "asset_cache_erc20_0xab_1")];
    reflexivity.
Defined.
